(** * arith32: a 32-bit static-model arithmetic coder

    Shallow embedding of [arith_compress.cpp], [arith_decompress.cpp] and
    [input_stream.hpp], and the properties of the coder stated in the
    specification.

    Conventions.  A [u32] or [u64] value is a [Z] together with its
    wrap-around ([wrap32], [wrap64]) written at every operation that can
    leave the range.  A [char] read from or written to a standard stream is
    a [byte].  Code that can throw ([std::array::at]), abort ([assert]),
    divide by zero or loop for ever returns [option]; [None] is every
    abnormal outcome.  The two [while(1)] loops that have no structural
    bound take a [nat] of fuel. *)

From Stdlib Require Import Strings.Byte Strings.String.
From Stdlib Require Import ZArith List Bool Lia.
Import ListNotations.
Local Open Scope Z_scope.

(** ** Machine integers and the error monad *)

Definition wrap32 (x : Z) : Z := x mod 2 ^ 32.
Definition wrap64 (x : Z) : Z := x mod 2 ^ 64.

(** [int], 32 bits in two's complement.  Signed overflow has no defined
    result in C++; [wrap_int] is the wrap-around the usual compilers give
    ([INT_MAX + 1] is [-2^31]).  The statements below that depend on the
    counter carry the bound under which it does not overflow. *)
Definition wrap_int (x : Z) : Z := (x + 2 ^ 31) mod 2 ^ 32 - 2 ^ 31.

Definition bind {A B : Type} (m : option A) (f : A -> option B) : option B :=
  match m with
  | Some a => f a
  | None => None
  end.

Notation "x <- m ;; k" := (bind m (fun x => k))
  (at level 61, m at next level, right associativity).
Notation "' p <- m ;; k" := (bind m (fun x => let p := x in k))
  (at level 61, p pattern, m at next level, right associativity).

(** [(u32)(unsigned char)c] and [(char)symbol]. *)
Definition byte_to_Z (c : byte) : Z := Z.of_N (Byte.to_N c).

Definition Z_to_byte (z : Z) : byte :=
  match Byte.of_N (Z.to_N (z mod 256)) with
  | Some c => c
  | None => "000"%byte
  end.

(** [std::array::at]: a checked read, and a checked write through the
    reference it returns. *)
Definition at_ (a : list Z) (i : Z) : option Z :=
  if (0 <=? i) && (i <? Z.of_nat (length a)) then nth_error a (Z.to_nat i)
  else None.

Fixpoint update (a : list Z) (n : nat) (v : Z) : list Z :=
  match a, n with
  | [], _ => []
  | _ :: t, O => v :: t
  | h :: t, S n' => h :: update t n' v
  end.

Definition set_at (a : list Z) (i : Z) (v : Z) : option (list Z) :=
  if (0 <=? i) && (i <? Z.of_nat (length a)) then Some (update a (Z.to_nat i) v)
  else None.

(** ** The frequency model (lines 13-55 of both programs) *)

Definition EOF_SYMBOL : Z := 256.

Definition vowels : list byte := list_byte_of_string "AEIOUaeiou".

(** [for (i = 65; i <= 122; i++) frequencies.at(i) = 2], from index [i]
    on. *)
Fixpoint set_letters (fuel : nat) (i : Z) (frequencies : list Z)
  : option (list Z) :=
  match fuel with
  | O => None
  | S fuel' =>
      if i <=? 122 then
        frequencies <- set_at frequencies i 2 ;;
        set_letters fuel' (wrap32 (i + 1)) frequencies
      else Some frequencies
  end.

Fixpoint set_vowels (cs : list byte) (frequencies : list Z)
  : option (list Z) :=
  match cs with
  | [] => Some frequencies
  | c :: cs' =>
      frequencies <- set_at frequencies (byte_to_Z c) 4 ;;
      set_vowels cs' frequencies
  end.

Definition build_frequencies : option (list Z) :=
  let frequencies := repeat 1 (Z.to_nat (EOF_SYMBOL + 1)) in
  frequencies <- set_letters 123 65 frequencies ;;
  set_vowels vowels frequencies.

(** [for (i = 1; i < EOF_SYMBOL+2; i++)
       CF_low.at(i) = CF_low.at(i-1) + frequencies.at(i-1)], from index [i]
    on. *)
Fixpoint cf_loop (fuel : nat) (i : Z) (frequencies CF_low : list Z)
  : option (list Z) :=
  match fuel with
  | O => None
  | S fuel' =>
      if i <? EOF_SYMBOL + 2 then
        prev <- at_ CF_low (wrap32 (i - 1)) ;;
        f <- at_ frequencies (wrap32 (i - 1)) ;;
        CF_low <- set_at CF_low i (wrap64 (prev + f)) ;;
        cf_loop fuel' (wrap32 (i + 1)) frequencies CF_low
      else Some CF_low
  end.

(** Both loops above stop on their own condition; their fuel only has to
    exceed the number of passes. *)
Definition compute_CF (frequencies : list Z) : option (list Z) :=
  let CF_low := repeat 0 (Z.to_nat (EOF_SYMBOL + 2)) in
  CF_low <- set_at CF_low 0 0 ;;
  cf_loop 259 1 frequencies CF_low.

(** The table, the total, and the [assert] on it, taken as compiled in:
    [None] is the abort. *)
Definition model_of (frequencies : list Z) : option (list Z * Z) :=
  CF_low <- compute_CF frequencies ;;
  global_cumulative_frequency <- at_ CF_low (EOF_SYMBOL + 1) ;;
  if global_cumulative_frequency <=? 0xffffffff
  then Some (CF_low, global_cumulative_frequency)
  else None.

Definition build_model : option (list Z * Z) :=
  frequencies <- build_frequencies ;;
  model_of frequencies.

(** ** The bit source ([input_stream.hpp]) *)

Module InputBitStream.

Record t : Type := mk {
  bitvec : Z;
  numbits : Z;
  infile : list byte;
  done : bool;
  last_real_bit : Z
}.

Definition new (input : list byte) : t := mk 0 8 input false 0.

Definition input_byte (s : t) : t :=
  match infile s with
  | [] => mk (bitvec s) 0 [] true (last_real_bit s)
  | c :: rest => mk (byte_to_Z c) 0 rest (done s) (last_real_bit s)
  end.

Definition read_bit (s : t) : Z * t :=
  let s := if numbits s =? 8 then input_byte s else s in
  let s :=
    if done s then s
    else mk (bitvec s) (wrap32 (numbits s + 1)) (infile s) (done s)
            (Z.land (Z.shiftr (bitvec s) (numbits s)) 1) in
  (last_real_bit s, s).

(** The state after [n] calls of [read_bit], and the bit the call after
    them returns. *)
Fixpoint reads (n : nat) (s : t) : t :=
  match n with
  | O => s
  | S n' => reads n' (snd (read_bit s))
  end.

Definition bit_at (s : t) (n : nat) : Z := fst (read_bit (reads n s)).

End InputBitStream.

(** ** The bit sink *)

Module OutputBitStream.

(** Modelled from the spec: [output_stream.hpp], the class
    [OutputBitStream] with [push_bit] and [flush_to_byte], is not among the
    sources.  Section 6 of the specification gives its contract: bits are
    emitted in call order and none is dropped, they are packed into bytes
    least-significant bit first, and [flush_to_byte(pad_bit)] pads the
    current partial byte with copies of [pad_bit] until it is full.  The
    record mirrors the fields of [InputBitStream]. *)
Record t : Type := mk {
  bitvec : Z;
  numbits : Z;
  outfile : list byte
}.

Definition new : t := mk 0 0 [].

Definition output_byte (s : t) : t :=
  mk 0 0 (outfile s ++ [Z_to_byte (bitvec s)]).

(** Modelled from the spec: [push_bit(b)], the sink's next bit is [b]. *)
Definition push_bit (b : Z) (s : t) : t :=
  let s := mk (Z.lor (bitvec s) (Z.shiftl (Z.land b 1) (numbits s)))
              (numbits s + 1) (outfile s) in
  if numbits s =? 8 then output_byte s else s.

(** Modelled from the spec: [flush_to_byte(pad_bit)], with [n] bounding
    the number of pad bits; a stream on a byte boundary has no partial
    byte and is left as it is. *)
Fixpoint pad (n : nat) (pad_bit : Z) (s : t) : t :=
  match n with
  | O => s
  | S n' => if numbits s =? 0 then s else pad n' pad_bit (push_bit pad_bit s)
  end.

Definition flush_to_byte (pad_bit : Z) (s : t) : t := pad 8 pad_bit s.

End OutputBitStream.

(** ** The coder *)

Section Coder.

Variable CF_low : list Z.
Variable global_cumulative_frequency : Z.

(** Lines 75-79 of the compressor. *)
Definition enc_narrow (lower_bound upper_bound symbol : Z)
  : option (Z * Z) :=
  let current_range := wrap64 (wrap64 (upper_bound + 1) - lower_bound) in
  if global_cumulative_frequency =? 0 then None else
  symbol_range_low <- at_ CF_low symbol ;;
  symbol_range_high <- at_ CF_low (wrap32 (symbol + 1)) ;;
  let upper_bound' :=
    wrap32 (wrap64 (wrap64 (lower_bound
              + wrap64 (current_range * symbol_range_high)
                / global_cumulative_frequency) - 1)) in
  let lower_bound' :=
    wrap32 (wrap64 (lower_bound
              + wrap64 (current_range * symbol_range_low)
                / global_cumulative_frequency)) in
  Some (lower_bound', upper_bound').

(** Lines 69 and 96-99 of the decompressor. *)
Definition dec_range (lower_bound upper_bound : Z) : Z :=
  wrap64 (wrap64 (upper_bound - lower_bound) + 1).

Definition dec_narrow (lower_bound upper_bound symbol : Z)
  : option (Z * Z) :=
  let current_range := dec_range lower_bound upper_bound in
  if global_cumulative_frequency =? 0 then None else
  symbol_range_low <- at_ CF_low symbol ;;
  symbol_range_high <- at_ CF_low (wrap32 (symbol + 1)) ;;
  let upper_bound' :=
    wrap32 (wrap64 (wrap64 (lower_bound
              + wrap64 (current_range * symbol_range_high)
                / global_cumulative_frequency) - 1)) in
  let lower_bound' :=
    wrap32 (wrap64 (lower_bound
              + wrap64 (current_range * symbol_range_low)
                / global_cumulative_frequency)) in
  Some (lower_bound', upper_bound').

(** [for (i = 0; i < underflow_counter; i++) stream.push_bit(!b)]. *)
Fixpoint push_copies (n : nat) (b : Z) (stream : OutputBitStream.t)
  : OutputBitStream.t :=
  match n with
  | O => stream
  | S n' => push_copies n' b (OutputBitStream.push_bit b stream)
  end.

Definition lnot (b : Z) : Z := if b =? 0 then 1 else 0.

Definition msb_match (lower_bound upper_bound : Z) : bool :=
  Z.shiftr upper_bound 31 =? Z.shiftr lower_bound 31.

Definition underflow (lower_bound upper_bound : Z) : bool :=
  (Z.land (Z.shiftr lower_bound 30) 1 =? 1)
  && (Z.land (Z.shiftr upper_bound 30) 1 =? 0).

(** The two shifts of the bounds, shared by lines 99-103 and 116-122 of
    the compressor and 115-119 and 136-142 of the decompressor. *)
Definition shift_upper (upper_bound : Z) : Z :=
  Z.lor (wrap32 (Z.shiftl upper_bound 1)) 1.

Definition shift_lower (lower_bound : Z) : Z :=
  wrap32 (Z.shiftl lower_bound 1).

Definition splice_upper (upper_bound : Z) : Z :=
  Z.lor (Z.lor (wrap32 (Z.shiftl upper_bound 1)) (wrap32 (Z.shiftl 1 31))) 1.

Definition splice_lower (lower_bound : Z) : Z :=
  Z.land (wrap32 (Z.shiftl lower_bound 1))
         (wrap32 (wrap32 (Z.shiftl 1 31) - 1)).

(** One pass through the body of the compressor's inner loop (lines
    86-127); [None] is the [break].  [underflow_counter] is an [int]:
    [underflow_counter++] is [wrap_int (underflow_counter + 1)], and the
    loop [for (int i = 0; i < underflow_counter; i++)] makes
    [Z.to_nat underflow_counter] passes, none when the counter is
    negative.  [underflow_counter_bound] below shows that the counter is at
    no time more than 33 per symbol taken, so that it does not overflow
    while [33 * n < 2^31] for [n] symbols taken. *)
Definition enc_renorm_step
    (lower_bound upper_bound underflow_counter : Z)
    (stream : OutputBitStream.t)
  : option (Z * Z * Z * OutputBitStream.t) :=
  if msb_match lower_bound upper_bound then
    let b := Z.shiftr upper_bound 31 in
    let stream := OutputBitStream.push_bit b stream in
    let stream := push_copies (Z.to_nat underflow_counter) (lnot b) stream in
    Some (shift_lower lower_bound, shift_upper upper_bound, 0, stream)
  else if underflow lower_bound upper_bound then
    Some (splice_lower lower_bound, splice_upper upper_bound,
          wrap_int (underflow_counter + 1), stream)
  else None.

Fixpoint enc_renorm (fuel : nat)
    (lower_bound upper_bound underflow_counter : Z)
    (stream : OutputBitStream.t)
  : option (Z * Z * Z * OutputBitStream.t) :=
  match fuel with
  | O => None
  | S fuel' =>
      match enc_renorm_step lower_bound upper_bound underflow_counter
              stream with
      | Some (l, u, c, s) => enc_renorm fuel' l u c s
      | None =>
          Some (lower_bound, upper_bound, underflow_counter, stream)
      end
  end.

(** [n] passes through the body of the compressor's inner loop, none of
    them the [break]. *)
Fixpoint enc_passes (n : nat)
    (lower_bound upper_bound underflow_counter : Z)
    (stream : OutputBitStream.t)
  : option (Z * Z * Z * OutputBitStream.t) :=
  match n with
  | O => Some (lower_bound, upper_bound, underflow_counter, stream)
  | S n' =>
      match enc_renorm_step lower_bound upper_bound underflow_counter
              stream with
      | Some (l, u, c, s) => enc_passes n' l u c s
      | None => None
      end
  end.

(** The inner loops run at most 32 times from bounds in order
    ([enc_renorm_total], [dec_renorm_total]); one more pass takes the
    [break]. *)
Definition renorm_fuel : nat := 33.

(** Lines 75-127: one symbol through the compressor. *)
Definition enc_symbol (symbol : Z)
    (lower_bound upper_bound underflow_counter : Z)
    (stream : OutputBitStream.t)
  : option (Z * Z * Z * OutputBitStream.t) :=
  '(lower_bound, upper_bound) <-
      enc_narrow lower_bound upper_bound symbol ;;
  enc_renorm renorm_fuel lower_bound upper_bound underflow_counter stream.

(** The outer loop of the compressor (lines 63-131) over what is left of
    standard input. *)
Fixpoint encode_loop (input : list byte)
    (lower_bound upper_bound underflow_counter : Z)
    (stream : OutputBitStream.t)
  : option (Z * Z * Z * OutputBitStream.t) :=
  match input with
  | raw_char :: rest =>
      let symbol := byte_to_Z raw_char in
      '(lower_bound, upper_bound, underflow_counter, stream) <-
          enc_symbol symbol lower_bound upper_bound underflow_counter
            stream ;;
      if symbol =? EOF_SYMBOL
      then Some (lower_bound, upper_bound, underflow_counter, stream)
      else encode_loop rest lower_bound upper_bound underflow_counter
             stream
  | [] =>
      enc_symbol EOF_SYMBOL lower_bound upper_bound underflow_counter
        stream
  end.

(** Lines 152-154. *)
Definition flush (stream : OutputBitStream.t) : OutputBitStream.t :=
  let stream := OutputBitStream.push_bit 0 stream in
  let stream := OutputBitStream.push_bit 1 stream in
  OutputBitStream.flush_to_byte 1 stream.

Definition encode (input : list byte) : option OutputBitStream.t :=
  '(_, _, _, stream) <-
      encode_loop input 0 (wrap32 (-1)) 0 OutputBitStream.new ;;
  Some (flush stream).

(** Lines 61-64 of the decompressor. *)
Fixpoint read_window (n : nat) (encoded_bits : Z)
    (stream : InputBitStream.t) : Z * InputBitStream.t :=
  match n with
  | O => (encoded_bits, stream)
  | S n' =>
      let '(b, stream) := InputBitStream.read_bit stream in
      read_window n' (Z.lor (wrap32 (Z.shiftl encoded_bits 1)) b) stream
  end.

(** Line 80. *)
Definition scaled_symbol (lower_bound upper_bound encoded_bits : Z) : Z :=
  wrap64 (wrap64 (wrap64 (wrap64 (encoded_bits - lower_bound) + 1)
                  * global_cumulative_frequency) - 1)
  / dec_range lower_bound upper_bound.

(** Lines 82-84: the linear search.  [at] throws before [fuel], the
    length of the table, runs out. *)
Fixpoint find_symbol (fuel : nat) (symbol scaled : Z) : option Z :=
  match fuel with
  | O => None
  | S fuel' =>
      c <- at_ CF_low (wrap32 (symbol + 1)) ;;
      if c <=? scaled then find_symbol fuel' (wrap32 (symbol + 1)) scaled
      else Some symbol
  end.

Definition shift_window (encoded_bits b : Z) : Z :=
  Z.lor (wrap32 (Z.shiftl encoded_bits 1)) b.

Definition splice_window (encoded_bits b : Z) : Z :=
  let msb := Z.shiftr encoded_bits 31 in
  let rest := Z.land encoded_bits 0x3fffffff in
  Z.lor (Z.lor (wrap32 (Z.shiftl msb 31)) (wrap32 (Z.shiftl rest 1))) b.

(** One pass through the body of the decompressor's inner loop (lines
    105-163). *)
Definition dec_renorm_step
    (lower_bound upper_bound encoded_bits : Z) (stream : InputBitStream.t)
  : option (Z * Z * Z * InputBitStream.t) :=
  if msb_match lower_bound upper_bound then
    let '(b, stream) := InputBitStream.read_bit stream in
    Some (shift_lower lower_bound, shift_upper upper_bound,
          shift_window encoded_bits b, stream)
  else if underflow lower_bound upper_bound then
    let '(b, stream) := InputBitStream.read_bit stream in
    Some (splice_lower lower_bound, splice_upper upper_bound,
          splice_window encoded_bits b, stream)
  else None.

Fixpoint dec_renorm (fuel : nat)
    (lower_bound upper_bound encoded_bits : Z) (stream : InputBitStream.t)
  : option (Z * Z * Z * InputBitStream.t) :=
  match fuel with
  | O => None
  | S fuel' =>
      match dec_renorm_step lower_bound upper_bound encoded_bits stream with
      | Some (l, u, w, s) => dec_renorm fuel' l u w s
      | None => Some (lower_bound, upper_bound, encoded_bits, stream)
      end
  end.

(** [n] passes through the body of the decompressor's inner loop, none of
    them the [break]. *)
Fixpoint dec_passes (n : nat)
    (lower_bound upper_bound encoded_bits : Z) (stream : InputBitStream.t)
  : option (Z * Z * Z * InputBitStream.t) :=
  match n with
  | O => Some (lower_bound, upper_bound, encoded_bits, stream)
  | S n' =>
      match dec_renorm_step lower_bound upper_bound encoded_bits stream with
      | Some (l, u, w, s) => dec_passes n' l u w s
      | None => None
      end
  end.

(** The outer loop of the decompressor (lines 67-164); [fuel] bounds the
    number of symbols decoded, [out] is what went to standard output. *)
Fixpoint decode_loop (fuel : nat)
    (lower_bound upper_bound encoded_bits : Z) (stream : InputBitStream.t)
    (out : list byte) : option (list byte) :=
  match fuel with
  | O => None
  | S fuel' =>
      if dec_range lower_bound upper_bound =? 0 then None
      else
        let scaled := scaled_symbol lower_bound upper_bound encoded_bits in
        symbol <- find_symbol (length CF_low) 0 scaled ;;
        if symbol =? EOF_SYMBOL then Some out
        else
          let out := out ++ [Z_to_byte symbol] in
          '(lower_bound, upper_bound) <-
              dec_narrow lower_bound upper_bound symbol ;;
          '(lower_bound, upper_bound, encoded_bits, stream) <-
              dec_renorm renorm_fuel lower_bound upper_bound encoded_bits
                stream ;;
          decode_loop fuel' lower_bound upper_bound encoded_bits stream out
  end.

Definition decode (fuel : nat) (input : list byte) : option (list byte) :=
  let stream := InputBitStream.new input in
  let '(encoded_bits, stream) := read_window 32 0 stream in
  decode_loop fuel 0 (wrap32 (-1)) encoded_bits stream [].

(** The same outer loop with its ways out told apart, which [decode_loop]
    merges into [None].  One pass through its body (lines 68-163) ends in a
    fault ([at] throws, a division by zero, or an inner loop still running
    after [renorm_fuel] passes), in the [break] at the end-of-stream
    symbol, or with a byte written and the state the next pass starts
    from. *)
Inductive pass_result : Type :=
| Fault
| Stop
| Emit (symbol lower_bound upper_bound encoded_bits : Z)
       (stream : InputBitStream.t).

Definition decode_pass
    (lower_bound upper_bound encoded_bits : Z) (stream : InputBitStream.t)
  : pass_result :=
  if dec_range lower_bound upper_bound =? 0 then Fault
  else
    let scaled := scaled_symbol lower_bound upper_bound encoded_bits in
    match find_symbol (length CF_low) 0 scaled with
    | None => Fault
    | Some symbol =>
        if symbol =? EOF_SYMBOL then Stop
        else
          match dec_narrow lower_bound upper_bound symbol with
          | None => Fault
          | Some (lower_bound, upper_bound) =>
              match dec_renorm renorm_fuel lower_bound upper_bound
                      encoded_bits stream with
              | None => Fault
              | Some (l, u, w, s) => Emit symbol l u w s
              end
          end
    end.

(** Where the decompressor is after at most [n] passes of its outer loop:
    faulted, stopped with its whole output, or at the head of the loop
    with what it has written so far. *)
Inductive run_result : Type :=
| Faulted
| Stopped (out : list byte)
| Running (lower_bound upper_bound encoded_bits : Z)
          (stream : InputBitStream.t) (out : list byte).

Fixpoint decode_run (n : nat)
    (lower_bound upper_bound encoded_bits : Z) (stream : InputBitStream.t)
    (out : list byte) : run_result :=
  match n with
  | O => Running lower_bound upper_bound encoded_bits stream out
  | S n' =>
      match decode_pass lower_bound upper_bound encoded_bits stream with
      | Fault => Faulted
      | Stop => Stopped out
      | Emit symbol l u w s =>
          decode_run n' l u w s (out ++ [Z_to_byte symbol])
      end
  end.

End Coder.

(** The two programs: standard input to standard output. *)
Definition arith_compress (input : list byte) : option (list byte) :=
  '(CF_low, global_cumulative_frequency) <- build_model ;;
  stream <- encode CF_low global_cumulative_frequency input ;;
  Some (OutputBitStream.outfile stream).

Definition arith_decompress (fuel : nat) (input : list byte)
  : option (list byte) :=
  '(CF_low, global_cumulative_frequency) <- build_model ;;
  decode CF_low global_cumulative_frequency fuel input.


(** ** Vocabulary of the properties *)

Definition ordered (lo hi : Z) : Prop := 0 <= lo <= hi /\ hi < 2 ^ 32.

(** The bounds as every pass of an outer loop finds them: top bits 0 and 1,
    and not both second bits on the converging side. *)
Definition normalized (lo hi : Z) : Prop :=
  0 <= lo < 2 ^ 31 /\ 2 ^ 31 <= hi < 2 ^ 32 /\
  (lo < 2 ^ 30 \/ 2 ^ 31 + 2 ^ 30 <= hi).

(** Entry [s] of the cumulative table. *)
Definition cf (CF_low : list Z) (s : Z) : Z := nth (Z.to_nat s) CF_low 0.

(** The interval update of the specification, in unbounded integers. *)
Definition narrow_lo (CF_low : list Z) (T lo hi s : Z) : Z :=
  lo + (hi - lo + 1) * cf CF_low s / T.

Definition narrow_hi (CF_low : list Z) (T lo hi s : Z) : Z :=
  lo + (hi - lo + 1) * cf CF_low (s + 1) / T - 1.

(** The decoder's scaled position of the specification. *)
Definition scaled_of (T lo hi w : Z) : Z :=
  ((w - lo + 1) * T - 1) / (hi - lo + 1).

Definition total_of (frequencies : list Z) : Z :=
  fold_right Z.add 0 frequencies.

Definition is_u32 (x : Z) : Prop := 0 <= x < 2 ^ 32.

Definition is_int (x : Z) : Prop := - 2 ^ 31 <= x < 2 ^ 31.

(** The table the programs build, evaluated once. *)
Definition the_frequencies : list Z :=
  Eval vm_compute in
    match build_frequencies with Some f => f | None => [] end.

Definition the_CF_low : list Z :=
  Eval vm_compute in
    match build_model with Some (c, _) => c | None => [] end.

Definition the_total : Z := 335.

(** The weight the programs give a symbol. *)
Definition weight (s : Z) : option Z :=
  frequencies <- build_frequencies ;;
  at_ frequencies s.

(** The weighting rule in the specification's words: 4 for the ten vowels,
    2 for the other letters [A-Z] and [a-z], 1 for everything else. *)
Definition is_vowel (s : Z) : bool :=
  existsb (Z.eqb s) [65; 69; 73; 79; 85; 97; 101; 105; 111; 117].

Definition is_letter (s : Z) : bool :=
  (65 <=? s) && (s <=? 90) || (97 <=? s) && (s <=? 122).

Definition claimed_weight (s : Z) : Z :=
  if is_vowel s then 4 else if is_letter s then 2 else 1.

(** The rule the programs apply: the whole range 65-122 gets 2, the six
    symbols between [Z] and [a] included. *)
Definition coded_weight (s : Z) : Z :=
  if is_vowel s then 4 else if (65 <=? s) && (s <=? 122) then 2 else 1.

(** Bits [from], [from+1], ... of [v], [n] of them: the order in which both
    streams hold the bits of a byte. *)
Fixpoint bits_from (n : nat) (from v : Z) : list bool :=
  match n with
  | O => []
  | S n' => Z.testbit v from :: bits_from n' (from + 1) v
  end.

Definition byte_bits (c : byte) : list bool := bits_from 8 0 (byte_to_Z c).

Definition bytes_bits (bs : list byte) : list bool := flat_map byte_bits bs.

Definition push_bits (l : list bool) (stream : OutputBitStream.t)
  : OutputBitStream.t :=
  fold_left (fun s b => OutputBitStream.push_bit (Z.b2z b) s) l stream.

(** The bits a sink has taken so far, and the bits a source still holds. *)
Definition written (s : OutputBitStream.t) : list bool :=
  bytes_bits (OutputBitStream.outfile s)
  ++ bits_from (Z.to_nat (OutputBitStream.numbits s)) 0
       (OutputBitStream.bitvec s).

Definition wf_out (s : OutputBitStream.t) : Prop :=
  0 <= OutputBitStream.numbits s < 8 /\
  0 <= OutputBitStream.bitvec s < 2 ^ OutputBitStream.numbits s.

Definition remaining (s : InputBitStream.t) : list bool :=
  bits_from (Z.to_nat (8 - InputBitStream.numbits s))
    (InputBitStream.numbits s) (InputBitStream.bitvec s)
  ++ bytes_bits (InputBitStream.infile s).

Definition wf_in (s : InputBitStream.t) : Prop :=
  InputBitStream.done s = false /\
  0 <= InputBitStream.numbits s <= 8 /\
  0 <= InputBitStream.last_real_bit s <= 1.

(** A list of bits stands for the stream it starts, continued by 1s for
    ever, which is what a source makes of the compressor's output.
    [valT n F] is the number its first [n] bits spell, most significant
    first. *)
Fixpoint valT (n : nat) (F : list bool) : Z :=
  match n with
  | O => 0
  | S n' => Z.b2z (hd true F) * 2 ^ Z.of_nat n' + valT n' (tl F)
  end.

(** The decompressor's window when the compressor still has to emit [F]
    and holds [k] pending underflow bits: the first bit of [F], then the 31
    bits that follow the [k] pending ones. *)
Definition win (k : nat) (F : list bool) : Z :=
  Z.b2z (hd true F) * 2 ^ 31 + valT 31 (skipn (S k) F).

(** The [k] pending bits are the complement of the bit before them. *)
Definition pend_ok (k : nat) (F : list bool) : Prop :=
  forall i, (1 <= i <= k)%nat -> nth i F true = negb (hd true F).

Definition good (k : nat) (F : list bool) (lo hi : Z) : Prop :=
  pend_ok k F /\ lo <= win k F <= hi.

(** The decompressor holds window [w] and source [st] at the point where the
    compressor still has to emit [F] with [k] bits pending. *)
Definition follows (k : nat) (F : list bool) (w : Z)
    (st : InputBitStream.t) : Prop :=
  w = win k F /\
  forall n, InputBitStream.bit_at st n = Z.b2z (nth (k + 32 + n) F true).

(** The two places where the programs test their bounds: the head of the
    outer loop, where the next symbol is taken, and the head of the inner
    loop. *)
Inductive pc : Type := AtSymbol | AtRenorm.

(** The states the compressor can be in at those places, whatever its
    input, with the number of symbols it has taken so far: one rule per way
    of getting from one head to the next.  (The relation lets the outer loop
    go on after the end-of-stream symbol, where the program stops.) *)
Inductive enc_reach (CF_low : list Z) (T : Z)
  : nat -> pc -> Z -> Z -> Z -> OutputBitStream.t -> Prop :=
| enc_start :
    enc_reach CF_low T 0 AtSymbol 0 (wrap32 (-1)) 0 OutputBitStream.new
| enc_take n lo hi k st symbol lo' hi' :
    enc_reach CF_low T n AtSymbol lo hi k st ->
    0 <= symbol <= EOF_SYMBOL ->
    enc_narrow CF_low T lo hi symbol = Some (lo', hi') ->
    enc_reach CF_low T (S n) AtRenorm lo' hi' k st
| enc_pass n lo hi k st lo' hi' k' st' :
    enc_reach CF_low T n AtRenorm lo hi k st ->
    enc_renorm_step lo hi k st = Some (lo', hi', k', st') ->
    enc_reach CF_low T n AtRenorm lo' hi' k' st'
| enc_break n lo hi k st :
    enc_reach CF_low T n AtRenorm lo hi k st ->
    enc_renorm_step lo hi k st = None ->
    enc_reach CF_low T n AtSymbol lo hi k st.

(** The same for the decompressor, on any input at all. *)
Inductive dec_reach (CF_low : list Z) (T : Z)
  : pc -> Z -> Z -> Z -> InputBitStream.t -> Prop :=
| dec_start input w st :
    read_window 32 0 (InputBitStream.new input) = (w, st) ->
    dec_reach CF_low T AtSymbol 0 (wrap32 (-1)) w st
| dec_take lo hi w st symbol lo' hi' :
    dec_reach CF_low T AtSymbol lo hi w st ->
    dec_range lo hi <> 0 ->
    find_symbol CF_low (length CF_low) 0 (scaled_symbol T lo hi w)
      = Some symbol ->
    symbol <> EOF_SYMBOL ->
    dec_narrow CF_low T lo hi symbol = Some (lo', hi') ->
    dec_reach CF_low T AtRenorm lo' hi' w st
| dec_pass lo hi w st lo' hi' w' st' :
    dec_reach CF_low T AtRenorm lo hi w st ->
    dec_renorm_step lo hi w st = Some (lo', hi', w', st') ->
    dec_reach CF_low T AtRenorm lo' hi' w' st'
| dec_break lo hi w st :
    dec_reach CF_low T AtRenorm lo hi w st ->
    dec_renorm_step lo hi w st = None ->
    dec_reach CF_low T AtSymbol lo hi w st.

(** What holds at each place. *)
Definition bounds_inv (p : pc) (lo hi : Z) : Prop :=
  ordered lo hi /\ (p = AtSymbol -> normalized lo hi).

Definition bit_ok (st : InputBitStream.t) : Prop :=
  0 <= InputBitStream.last_real_bit st <= 1.

(** Renormalization in the specification's words.  [shifted_in b x x']:
    [x'] is [x] shifted left by one bit within 32 bits, [b] entering at the
    low end.  [spliced_in b x x']: the same with the top bit of [x] kept and
    its second bit spliced out. *)
Definition top_bit (x : Z) : bool := Z.testbit x 31.

Definition second_bit (x : Z) : bool := Z.testbit x 30.

Definition shifted_in (b : bool) (x x' : Z) : Prop :=
  0 <= x' < 2 ^ 32 /\ Z.testbit x' 0 = b /\
  forall i, 1 <= i <= 31 -> Z.testbit x' i = Z.testbit x (i - 1).

Definition spliced_in (b : bool) (x x' : Z) : Prop :=
  0 <= x' < 2 ^ 32 /\ Z.testbit x' 0 = b /\
  Z.testbit x' 31 = Z.testbit x 31 /\
  forall i, 1 <= i <= 30 -> Z.testbit x' i = Z.testbit x (i - 1).

(** What one pass of the compressor's inner loop has to return. *)
Definition enc_pass_spec (lo hi k : Z) (st : OutputBitStream.t)
    (r : option (Z * Z * Z * OutputBitStream.t)) : Prop :=
  if Bool.eqb (top_bit lo) (top_bit hi) then
    exists lo' hi',
      r = Some (lo', hi', 0,
                push_bits (top_bit hi
                           :: repeat (negb (top_bit hi)) (Z.to_nat k)) st) /\
      shifted_in false lo lo' /\ shifted_in true hi hi'
  else if second_bit lo && negb (second_bit hi) then
    exists lo' hi',
      r = Some (lo', hi', k + 1, st) /\
      spliced_in false lo lo' /\ spliced_in true hi hi'
  else r = None.

(** What one pass of the decompressor's inner loop has to return: the same
    bounds, and the window moved the same way with the bit just read. *)
Definition dec_pass_spec (lo hi w : Z) (st : InputBitStream.t)
    (r : option (Z * Z * Z * InputBitStream.t)) : Prop :=
  let '(bit, st') := InputBitStream.read_bit st in
  if Bool.eqb (top_bit lo) (top_bit hi) then
    exists lo' hi' w',
      r = Some (lo', hi', w', st') /\
      shifted_in false lo lo' /\ shifted_in true hi hi' /\
      shifted_in (bit =? 1) w w'
  else if second_bit lo && negb (second_bit hi) then
    exists lo' hi' w',
      r = Some (lo', hi', w', st') /\
      spliced_in false lo lo' /\ spliced_in true hi hi' /\
      spliced_in (bit =? 1) w w'
  else r = None.

(** ** The other member functions of [InputBitStream] *)

Module InputBitStreamReads.

(** [read_bits], lines 56-61: [n] passes of the loop left, [i] its index.
    A shift of a [u32] by 32 or more has no defined result: [None]. *)
Fixpoint read_bits_loop (n : nat) (i result : Z) (s : InputBitStream.t)
  : option (Z * InputBitStream.t) :=
  match n with
  | O => Some (result, s)
  | S n' =>
      let '(b, s) := InputBitStream.read_bit s in
      if i <? 32 then
        read_bits_loop n' (wrap32 (i + 1))
          (Z.lor result (wrap32 (Z.shiftl b i))) s
      else None
  end.

Definition read_bits (num_bits : Z) (s : InputBitStream.t)
  : option (Z * InputBitStream.t) :=
  read_bits_loop (Z.to_nat num_bits) 0 0 s.

(** [read_byte], lines 39-41: the result narrowed to [u8]. *)
Definition read_byte (s : InputBitStream.t)
  : option (Z * InputBitStream.t) :=
  '(v, s) <- read_bits 8 s ;;
  Some (v mod 2 ^ 8, s).

(** [read_u32] and [read_u16], lines 44-51, are one expression
    [read_bits(8) | (read_bits(8)<<8) | ...], and C++ leaves open in which
    order the operands of [|] are evaluated.  [order] lists the operands,
    numbered from the left, in the order in which their calls are made; the
    value read for operand [j] goes to bits [8j] and up. *)
Fixpoint read_operands (order : list Z) (result : Z) (s : InputBitStream.t)
  : option (Z * InputBitStream.t) :=
  match order with
  | [] => Some (result, s)
  | j :: order' =>
      '(v, s) <- read_bits 8 s ;;
      read_operands order' (Z.lor result (wrap32 (Z.shiftl v (8 * j)))) s
  end.

Definition read_u32 (order : list Z) (s : InputBitStream.t)
  : option (Z * InputBitStream.t) :=
  read_operands order 0 s.

Definition read_u16 (order : list Z) (s : InputBitStream.t)
  : option (Z * InputBitStream.t) :=
  '(v, s) <- read_operands order 0 s ;;
  Some (v mod 2 ^ 16, s).

(** [flush_to_byte], lines 79-81. *)
Definition flush_to_byte (s : InputBitStream.t) : InputBitStream.t :=
  InputBitStream.mk (InputBitStream.bitvec s) 8 (InputBitStream.infile s)
    (InputBitStream.done s) (InputBitStream.last_real_bit s).

End InputBitStreamReads.

(** A source that returns [b] at every call from now on. *)
Definition constant_source (b : Z) (st : InputBitStream.t) : Prop :=
  forall i, InputBitStream.bit_at st i = b.

(** The value [read_u16] and [read_u32] build when the operand written at
    position [j] of the expression (shifted by [8 * j]) is given the byte
    read at that moment: [order] lists the positions in the order their
    [read_bits] calls run, [cs] the bytes in the order they are read. *)
Fixpoint placed (order : list Z) (cs : list byte) : Z :=
  match order, cs with
  | j :: order', c :: cs' => byte_to_Z c * 2 ^ (8 * j) + placed order' cs'
  | _, _ => 0
  end.

(** * Properties *)

(** ** Arithmetic of the 32-bit operations *)

Ltac zlia := Z.div_mod_to_equations; lia.

Lemma lor_low_bits (n a b : Z) :
  0 <= n -> 0 <= b < 2 ^ n -> Z.lor (a * 2 ^ n) b = a * 2 ^ n + b.
Proof.
  intros Hn Hb.
  rewrite <- (Z.add_lor_land (a * 2 ^ n) b).
  replace (Z.land (a * 2 ^ n) b) with 0; [lia|].
  symmetry. apply Z.bits_inj'. intros i Hi.
  rewrite Z.land_spec, Z.bits_0.
  destruct (Z.lt_ge_cases i n) as [Hlt|Hge].
  - rewrite Z.mul_pow2_bits_low by lia. reflexivity.
  - rewrite <- (Z.mod_small b (2 ^ n)) by lia.
    rewrite Z.mod_pow2_bits_high by lia. apply andb_false_r.
Qed.

Lemma land_1 (x : Z) : Z.land x 1 = x mod 2.
Proof. change 1 with (Z.ones 1). rewrite Z.land_ones by lia. reflexivity. Qed.

Lemma shiftr_31 (x : Z) : Z.shiftr x 31 = x / 2 ^ 31.
Proof. apply Z.shiftr_div_pow2. lia. Qed.

Lemma shiftl_1 (x : Z) : Z.shiftl x 1 = x * 2 ^ 1.
Proof. apply Z.shiftl_mul_pow2. lia. Qed.

Lemma msb_match_spec (lo hi : Z) :
  0 <= lo < 2 ^ 32 -> 0 <= hi < 2 ^ 32 ->
  msb_match lo hi = (hi <? 2 ^ 31) && (lo <? 2 ^ 31)
                    || (2 ^ 31 <=? hi) && (2 ^ 31 <=? lo).
Proof.
  intros Hlo Hhi. unfold msb_match. rewrite !shiftr_31.
  destruct (Z.ltb_spec hi (2 ^ 31)), (Z.ltb_spec lo (2 ^ 31)),
    (Z.leb_spec (2 ^ 31) hi), (Z.leb_spec (2 ^ 31) lo),
    (Z.eqb_spec (hi / 2 ^ 31) (lo / 2 ^ 31)); simpl; try reflexivity; zlia.
Qed.

Lemma underflow_spec (lo hi : Z) :
  0 <= lo < 2 ^ 31 -> 2 ^ 31 <= hi < 2 ^ 32 ->
  underflow lo hi = (2 ^ 30 <=? lo) && (hi <? 2 ^ 31 + 2 ^ 30).
Proof.
  intros Hlo Hhi. unfold underflow.
  rewrite !land_1, !Z.shiftr_div_pow2 by lia.
  destruct (Z.leb_spec (2 ^ 30) lo), (Z.ltb_spec hi (2 ^ 31 + 2 ^ 30)),
    (Z.eqb_spec ((lo / 2 ^ 30) mod 2) 1),
    (Z.eqb_spec ((hi / 2 ^ 30) mod 2) 0); simpl; try reflexivity; zlia.
Qed.

Lemma shift_lower_spec (lo : Z) : shift_lower lo = (2 * lo) mod 2 ^ 32.
Proof. unfold shift_lower, wrap32. rewrite shiftl_1. f_equal. lia. Qed.

Lemma shift_upper_spec (hi : Z) :
  0 <= hi < 2 ^ 32 -> shift_upper hi = (2 * hi) mod 2 ^ 32 + 1.
Proof.
  intros Hhi. unfold shift_upper, wrap32. rewrite shiftl_1.
  replace ((hi * 2 ^ 1) mod 2 ^ 32) with ((hi mod 2 ^ 31) * 2 ^ 1) by zlia.
  rewrite lor_low_bits by lia. zlia.
Qed.

Lemma splice_lower_spec (lo : Z) :
  0 <= lo < 2 ^ 32 -> splice_lower lo = (2 * lo) mod 2 ^ 31.
Proof.
  intros Hlo. unfold splice_lower.
  change (wrap32 (wrap32 (Z.shiftl 1 31) - 1)) with (Z.ones 31).
  unfold wrap32. rewrite shiftl_1, Z.land_ones by lia. zlia.
Qed.

Lemma splice_upper_spec (hi : Z) :
  2 ^ 31 <= hi < 2 ^ 31 + 2 ^ 30 ->
  splice_upper hi = 2 * hi - 2 ^ 31 + 1.
Proof.
  intros Hhi. unfold splice_upper, wrap32.
  rewrite shiftl_1, (Z.shiftl_mul_pow2 1 31) by lia.
  replace ((hi * 2 ^ 1) mod 2 ^ 32) with ((hi - 2 ^ 31) * 2 ^ 1) by zlia.
  replace (1 * 2 ^ 31 mod 2 ^ 32) with (1 * 2 ^ 31) by reflexivity.
  rewrite (Z.lor_comm ((hi - 2 ^ 31) * 2 ^ 1)).
  rewrite (lor_low_bits 31) by lia.
  replace (1 * 2 ^ 31 + (hi - 2 ^ 31) * 2 ^ 1)
    with ((hi - 2 ^ 30) * 2 ^ 1) by lia.
  rewrite lor_low_bits by lia. lia.
Qed.

Lemma shift_window_spec (w b : Z) :
  0 <= w < 2 ^ 32 -> 0 <= b <= 1 ->
  shift_window w b = (2 * w) mod 2 ^ 32 + b.
Proof.
  intros Hw Hb. unfold shift_window, wrap32. rewrite shiftl_1.
  replace ((w * 2 ^ 1) mod 2 ^ 32) with ((w mod 2 ^ 31) * 2 ^ 1) by zlia.
  rewrite lor_low_bits by lia. zlia.
Qed.

Lemma splice_window_spec (w b : Z) :
  0 <= w < 2 ^ 32 -> 0 <= b <= 1 ->
  splice_window w b = (w / 2 ^ 31) * 2 ^ 31 + 2 * (w mod 2 ^ 30) + b.
Proof.
  intros Hw Hb. unfold splice_window, wrap32.
  rewrite shiftr_31, shiftl_1, (Z.shiftl_mul_pow2 _ 31) by lia.
  change 0x3fffffff with (Z.ones 30). rewrite Z.land_ones by lia.
  replace ((w / 2 ^ 31 * 2 ^ 31) mod 2 ^ 32) with (w / 2 ^ 31 * 2 ^ 31)
    by zlia.
  replace ((w mod 2 ^ 30 * 2 ^ 1) mod 2 ^ 32) with (w mod 2 ^ 30 * 2 ^ 1)
    by zlia.
  rewrite (lor_low_bits 31) by zlia.
  replace (w / 2 ^ 31 * 2 ^ 31 + w mod 2 ^ 30 * 2 ^ 1)
    with ((w / 2 ^ 31 * 2 ^ 30 + w mod 2 ^ 30) * 2 ^ 1) by lia.
  rewrite lor_low_bits by lia. lia.
Qed.

(** ** The frequency model *)

Lemma at_nth (a : list Z) (i : Z) :
  0 <= i < Z.of_nat (length a) -> at_ a i = Some (nth (Z.to_nat i) a 0).
Proof.
  intros Hi. unfold at_.
  replace ((0 <=? i) && (i <? Z.of_nat (length a))) with true
    by (symmetry; apply andb_true_intro; split;
        [apply Z.leb_le | apply Z.ltb_lt]; lia).
  apply nth_error_nth'. lia.
Qed.

Lemma set_at_in (a : list Z) (i v : Z) :
  0 <= i < Z.of_nat (length a) ->
  set_at a i v = Some (update a (Z.to_nat i) v).
Proof.
  intros Hi. unfold set_at.
  replace ((0 <=? i) && (i <? Z.of_nat (length a))) with true
    by (symmetry; apply andb_true_intro; split;
        [apply Z.leb_le | apply Z.ltb_lt]; lia).
  reflexivity.
Qed.

Lemma length_update (a : list Z) (n : nat) (v : Z) :
  length (update a n v) = length a.
Proof.
  revert n. induction a as [|h t IH]; intros [|n]; simpl; auto.
Qed.

Lemma nth_update_same (a : list Z) (n : nat) (v d : Z) :
  (n < length a)%nat -> nth n (update a n v) d = v.
Proof.
  revert n. induction a as [|h t IH]; intros [|n] Hn; simpl in *;
    try lia; auto. apply IH. lia.
Qed.



Lemma total_of_firstn_succ (l : list Z) (k : nat) :
  (k < length l)%nat ->
  total_of (firstn (S k) l) = total_of (firstn k l) + nth k l 0.
Proof.
  revert k. induction l as [|h t IH]; intros k Hk; simpl in Hk; [lia|].
  destruct k as [|k].
  - simpl. lia.
  - rewrite !firstn_cons. unfold total_of in *. cbn [fold_right nth].
    rewrite IH by lia. lia.
Qed.

Lemma total_of_firstn_bound (l : list Z) (k : nat) :
  Forall is_u32 l ->
  0 <= total_of (firstn k l) <= Z.of_nat k * 2 ^ 32.
Proof.
  intros Hl. revert k. induction Hl as [|h t Hh Ht IH]; intros k.
  - rewrite firstn_nil. simpl. lia.
  - destruct k as [|k]; [simpl; lia|].
    rewrite firstn_cons. unfold total_of in *. cbn [fold_right].
    specialize (IH k). unfold is_u32 in Hh. lia.
Qed.

Lemma nth_is_u32 (l : list Z) (k : nat) :
  Forall is_u32 l -> 0 <= nth k l 0 < 2 ^ 32.
Proof.
  intros Hl. revert k. induction Hl as [|h t Hh Ht IH]; intros [|k]; simpl;
    try lia; auto.
Qed.

(** The loop that fills [CF_low] leaves the sum of all frequencies in its
    last cell. *)
Lemma cf_loop_total (frequencies : list Z) (fuel : nat) (i : Z)
    (cf0 : list Z) :
  length frequencies = 257%nat -> Forall is_u32 frequencies ->
  length cf0 = 258%nat -> 1 <= i <= 258 -> 258 - i < Z.of_nat fuel ->
  nth (Z.to_nat (i - 1)) cf0 0
    = total_of (firstn (Z.to_nat (i - 1)) frequencies) ->
  exists cf1, cf_loop fuel i frequencies cf0 = Some cf1 /\
              length cf1 = 258%nat /\
              nth 257 cf1 0 = total_of frequencies.
Proof.
  intros Hlen Hu. revert i cf0.
  induction fuel as [|fuel IH]; intros i cf0 Hcf Hi Hf Hprev; [lia|].
  cbn [cf_loop]. unfold EOF_SYMBOL.
  destruct (Z.ltb_spec i (256 + 2)) as [Hlt|Hge].
  - unfold wrap32. rewrite (Z.mod_small (i - 1)) by lia.
    rewrite (at_nth cf0), (at_nth frequencies) by lia. cbn [bind].
    rewrite set_at_in by lia. cbn [bind].
    rewrite (Z.mod_small (i + 1)) by lia.
    apply IH; try lia.
    + rewrite length_update. exact Hcf.
    + replace (Z.to_nat (i + 1 - 1)) with (Z.to_nat i) by lia.
      rewrite nth_update_same by lia. unfold wrap64.
      replace (Z.to_nat i) with (S (Z.to_nat (i - 1))) by lia.
      rewrite total_of_firstn_succ by lia.
      rewrite Hprev. apply Z.mod_small.
      pose proof (total_of_firstn_bound frequencies (Z.to_nat (i - 1)) Hu).
      pose proof (nth_is_u32 frequencies (Z.to_nat (i - 1)) Hu). lia.
  - exists cf0. repeat split; auto.
    replace (Z.to_nat (i - 1)) with 257%nat in Hprev by lia.
    rewrite Hprev, <- Hlen, firstn_all. reflexivity.
Qed.

Lemma compute_CF_total (frequencies : list Z) :
  length frequencies = 257%nat -> Forall is_u32 frequencies ->
  exists CF_low, compute_CF frequencies = Some CF_low /\
                 at_ CF_low (EOF_SYMBOL + 1) = Some (total_of frequencies).
Proof.
  intros Hlen Hu. unfold compute_CF.
  change (set_at (repeat 0 (Z.to_nat (EOF_SYMBOL + 2))) 0 0)
    with (Some (repeat 0 258)).
  cbv beta iota delta [bind].
  destruct (cf_loop_total frequencies 259 1 (repeat 0 258) Hlen Hu)
    as (cf1 & H1 & H2 & H3); try reflexivity; try lia.
  exists cf1. split; [exact H1|].
  rewrite at_nth by (rewrite H2; unfold EOF_SYMBOL; lia).
  f_equal. exact H3.
Qed.


Lemma build_frequencies_eq : build_frequencies = Some the_frequencies.
Proof. vm_compute. reflexivity. Qed.

Lemma build_model_eq : build_model = Some (the_CF_low, the_total).
Proof. vm_compute. reflexivity. Qed.

Lemma forall_below (P : Z -> bool) (n : nat) :
  forallb P (map Z.of_nat (seq 0 n)) = true ->
  forall s, 0 <= s < Z.of_nat n -> P s = true.
Proof.
  intros H s Hs. rewrite forallb_forall in H. apply H.
  apply in_map_iff. exists (Z.to_nat s). split; [lia|].
  apply in_seq. lia.
Qed.

Lemma the_model_incr (s : Z) :
  0 <= s <= 256 -> cf the_CF_low s < cf the_CF_low (s + 1).
Proof.
  intros Hs. apply Z.ltb_lt.
  apply (forall_below
           (fun s => cf the_CF_low s <? cf the_CF_low (s + 1)) 257);
    [vm_compute; reflexivity | lia].
Qed.


(** ** The bit streams *)

Lemma byte_to_Z_range (c : byte) : 0 <= byte_to_Z c < 256.
Proof.
  unfold byte_to_Z. pose proof (Byte.to_N_bounded c). lia.
Qed.

Lemma byte_to_Z_to_byte (z : Z) :
  0 <= z < 256 -> byte_to_Z (Z_to_byte z) = z.
Proof.
  intros Hz. unfold byte_to_Z, Z_to_byte. rewrite Z.mod_small by lia.
  destruct (Byte.of_N (Z.to_N z)) as [c|] eqn:E.
  - apply Byte.to_of_N in E. rewrite E. lia.
  - apply Byte.of_N_None_iff in E. lia.
Qed.

Lemma Z_to_byte_to_Z (c : byte) : Z_to_byte (byte_to_Z c) = c.
Proof.
  unfold byte_to_Z, Z_to_byte. pose proof (Byte.to_N_bounded c).
  rewrite Z.mod_small by lia. rewrite N2Z.id, Byte.of_to_N. reflexivity.
Qed.

Lemma bits_from_S (n : nat) (from v : Z) :
  bits_from (S n) from v = Z.testbit v from :: bits_from n (from + 1) v.
Proof. reflexivity. Qed.

Lemma bits_from_snoc (n : nat) (from v : Z) :
  bits_from (S n) from v
    = bits_from n from v ++ [Z.testbit v (from + Z.of_nat n)].
Proof.
  revert from. induction n as [|n IH]; intros from.
  - simpl. rewrite Z.add_0_r. reflexivity.
  - rewrite Nat2Z.inj_succ.
    change (bits_from (S (S n)) from v)
      with (Z.testbit v from :: bits_from (S n) (from + 1) v).
    rewrite IH. cbn [bits_from app].
    replace (from + Z.succ (Z.of_nat n)) with (from + 1 + Z.of_nat n) by lia.
    reflexivity.
Qed.

Lemma bits_from_ext (n : nat) (from v v' : Z) :
  (forall j, from <= j < from + Z.of_nat n ->
             Z.testbit v j = Z.testbit v' j) ->
  bits_from n from v = bits_from n from v'.
Proof.
  revert from. induction n as [|n IH]; intros from H; simpl; [reflexivity|].
  f_equal; [apply H; lia | apply IH; intros j Hj; apply H; lia].
Qed.

Lemma length_bits_from (n : nat) (from v : Z) :
  length (bits_from n from v) = n.
Proof. revert from. induction n; intros; simpl; auto. Qed.

Lemma bytes_bits_app (a b : list byte) :
  bytes_bits (a ++ b) = bytes_bits a ++ bytes_bits b.
Proof. apply flat_map_app. Qed.

Lemma bytes_bits_one (c : byte) : bytes_bits [c] = byte_bits c.
Proof. unfold bytes_bits. cbn [flat_map]. apply app_nil_r. Qed.

Lemma bytes_bits_cons (c : byte) (bs : list byte) :
  bytes_bits (c :: bs) = byte_bits c ++ bytes_bits bs.
Proof. reflexivity. Qed.

Lemma testbit_add_high (v b n j : Z) :
  0 <= n -> 0 <= v < 2 ^ n -> 0 <= j ->
  Z.testbit (v + b * 2 ^ n) j
    = if j <? n then Z.testbit v j else Z.testbit b (j - n).
Proof.
  intros Hn Hv Hj. rewrite Z.add_comm, <- lor_low_bits by lia.
  rewrite Z.lor_spec. destruct (Z.ltb_spec j n).
  - rewrite Z.mul_pow2_bits_low by lia. reflexivity.
  - rewrite Z.mul_pow2_bits by lia.
    rewrite <- (Z.mod_small v (2 ^ n)) by lia.
    rewrite Z.mod_pow2_bits_high by lia. apply orb_false_r.
Qed.

Lemma push_bit_written (b : bool) (s : OutputBitStream.t) :
  wf_out s ->
  wf_out (OutputBitStream.push_bit (Z.b2z b) s) /\
  written (OutputBitStream.push_bit (Z.b2z b) s) = written s ++ [b].
Proof.
  destruct s as [v n out]. unfold wf_out, written, OutputBitStream.push_bit.
  simpl. intros [Hn Hv].
  assert (Hb : Z.land (Z.b2z b) 1 = Z.b2z b)
    by (rewrite land_1; destruct b; reflexivity).
  rewrite Hb, Z.shiftl_mul_pow2, Z.lor_comm, lor_low_bits by lia.
  assert (Hv' : 0 <= Z.b2z b * 2 ^ n + v < 2 ^ (n + 1)).
  { rewrite Z.pow_add_r by lia. destruct b; simpl Z.b2z; lia. }
  assert (Hbits : bits_from (Z.to_nat (n + 1)) 0 (Z.b2z b * 2 ^ n + v)
                  = bits_from (Z.to_nat n) 0 v ++ [b]).
  { replace (Z.to_nat (n + 1)) with (S (Z.to_nat n)) by lia.
    rewrite bits_from_snoc. f_equal.
    - apply bits_from_ext. intros j Hj.
      rewrite Z.add_comm, testbit_add_high by lia.
      destruct (Z.ltb_spec j n); [reflexivity | lia].
    - rewrite Z.add_comm, testbit_add_high by lia.
      destruct (Z.ltb_spec (0 + Z.of_nat (Z.to_nat n)) n); [lia|].
      replace (0 + Z.of_nat (Z.to_nat n) - n) with 0 by lia.
      rewrite Z.b2z_bit0. reflexivity. }
  destruct (Z.eqb_spec (n + 1) 8) as [E|E]; simpl.
  - split; [lia|].
    rewrite bytes_bits_app, app_nil_r, <- app_assoc. f_equal.
    rewrite bytes_bits_one. unfold byte_bits.
    rewrite byte_to_Z_to_byte by (rewrite E in Hv'; lia).
    rewrite <- Hbits, E. reflexivity.
  - split; [lia|]. rewrite Hbits, app_assoc. reflexivity.
Qed.

Lemma push_bits_written (l : list bool) (s : OutputBitStream.t) :
  wf_out s ->
  wf_out (push_bits l s) /\ written (push_bits l s) = written s ++ l.
Proof.
  revert s. induction l as [|b l IH]; intros s Hs.
  - simpl. rewrite app_nil_r. auto.
  - destruct (push_bit_written b s Hs) as [H1 H2].
    destruct (IH _ H1) as [H3 H4].
    change (push_bits (b :: l) s)
      with (push_bits l (OutputBitStream.push_bit (Z.b2z b) s)).
    split; [exact H3|].
    rewrite H4, H2, <- app_assoc. reflexivity.
Qed.

Lemma push_bits_app (l l' : list bool) (s : OutputBitStream.t) :
  push_bits (l ++ l') s = push_bits l' (push_bits l s).
Proof. apply fold_left_app. Qed.

Lemma push_bit_numbits (b : Z) (s : OutputBitStream.t) :
  wf_out s ->
  OutputBitStream.numbits (OutputBitStream.push_bit b s)
    = (OutputBitStream.numbits s + 1) mod 8.
Proof.
  unfold wf_out, OutputBitStream.push_bit. simpl. intros [Hn _].
  destruct (Z.eqb_spec (OutputBitStream.numbits s + 1) 8) as [E|E]; simpl.
  - rewrite E. reflexivity.
  - rewrite Z.mod_small; lia.
Qed.

Lemma pad_written (n : nat) (s : OutputBitStream.t) :
  wf_out s ->
  (OutputBitStream.numbits s = 0 \/
   8 - OutputBitStream.numbits s <= Z.of_nat n) ->
  OutputBitStream.numbits (OutputBitStream.pad n 1 s) = 0 /\
  written (OutputBitStream.pad n 1 s)
    = written s
      ++ repeat true (Z.to_nat ((8 - OutputBitStream.numbits s) mod 8)).
Proof.
  revert s. induction n as [|n IH]; intros s Hs Hn.
  - assert (E : OutputBitStream.numbits s = 0)
      by (unfold wf_out in Hs; lia).
    simpl. rewrite E. simpl. rewrite app_nil_r. auto.
  - cbn [OutputBitStream.pad].
    destruct (Z.eqb_spec (OutputBitStream.numbits s) 0) as [E|E].
    + rewrite E. simpl. rewrite app_nil_r. auto.
    + destruct (push_bit_written true s Hs) as [H1 H2].
      pose proof (push_bit_numbits 1 s Hs) as H3.
      cbn [Z.b2z] in *.
      destruct (IH (OutputBitStream.push_bit 1 s) H1) as [H4 H5].
      { rewrite H3. unfold wf_out in Hs. zlia. }
      split; [exact H4|].
      rewrite H5, H2, <- app_assoc, H3. f_equal.
      change ([true] ++ ?l) with (true :: l).
      replace (Z.to_nat ((8 - OutputBitStream.numbits s) mod 8))
        with (S (Z.to_nat
                   ((8 - (OutputBitStream.numbits s + 1) mod 8) mod 8)))
        by (unfold wf_out in Hs; zlia).
      reflexivity.
Qed.

Lemma b2z_range (b : bool) : 0 <= Z.b2z b <= 1.
Proof. destruct b; simpl; lia. Qed.

Lemma land_shiftr_testbit (v n : Z) :
  0 <= n -> Z.land (Z.shiftr v n) 1 = Z.b2z (Z.testbit v n).
Proof.
  intros Hn. rewrite land_1, Z.shiftr_div_pow2, Z.testbit_spec' by lia.
  reflexivity.
Qed.

Lemma bytes_bits_nil_inv (bs : list byte) : bytes_bits bs = [] -> bs = [].
Proof.
  destruct bs as [|c bs]; [reflexivity|].
  rewrite bytes_bits_cons. unfold byte_bits. simpl. discriminate.
Qed.

Lemma read_bit_cons (s : InputBitStream.t) (b : bool) (l : list bool) :
  wf_in s -> remaining s = b :: l ->
  exists s', InputBitStream.read_bit s = (Z.b2z b, s') /\ wf_in s' /\
             remaining s' = l /\ InputBitStream.last_real_bit s' = Z.b2z b.
Proof.
  destruct s as [v n inf d lrb]. unfold wf_in, remaining.
  cbn [InputBitStream.done InputBitStream.numbits InputBitStream.bitvec
       InputBitStream.infile InputBitStream.last_real_bit].
  intros (Hd & Hn & Hl) Hrem. subst d.
  unfold InputBitStream.read_bit.
  cbn [InputBitStream.done InputBitStream.numbits InputBitStream.bitvec
       InputBitStream.infile InputBitStream.last_real_bit].
  destruct (Z.eqb_spec n 8) as [E|E].
  - subst n. change (Z.to_nat (8 - 8)) with 0%nat in Hrem.
    cbn [bits_from app] in Hrem.
    destruct inf as [|c rest]; [discriminate|].
    unfold InputBitStream.input_byte.
    cbn [InputBitStream.done InputBitStream.numbits InputBitStream.bitvec
         InputBitStream.infile InputBitStream.last_real_bit].
    rewrite bytes_bits_cons in Hrem. unfold byte_bits in Hrem.
    change (bits_from 8 0 (byte_to_Z c))
      with (Z.testbit (byte_to_Z c) 0 :: bits_from 7 1 (byte_to_Z c))
      in Hrem.
    injection Hrem as Hb Hl'. rewrite land_shiftr_testbit by lia.
    subst b. eexists; split; [reflexivity|].
    cbn [InputBitStream.done InputBitStream.numbits InputBitStream.bitvec
         InputBitStream.infile InputBitStream.last_real_bit].
    repeat split; try apply b2z_range; try (vm_compute; congruence).
    exact Hl'.
  - replace (Z.to_nat (8 - n)) with (S (Z.to_nat (8 - (n + 1)))) in Hrem
      by lia.
    rewrite bits_from_S, <- app_comm_cons in Hrem.
    injection Hrem as Hb Hl'.
    cbn [InputBitStream.done InputBitStream.numbits InputBitStream.bitvec
         InputBitStream.infile InputBitStream.last_real_bit].
    rewrite land_shiftr_testbit by lia.
    subst b. eexists; split; [reflexivity|].
    cbn [InputBitStream.done InputBitStream.numbits InputBitStream.bitvec
         InputBitStream.infile InputBitStream.last_real_bit].
    unfold wrap32. rewrite (Z.mod_small (n + 1)) by lia.
    repeat split; try apply b2z_range; try lia. exact Hl'.
Qed.

Lemma read_bit_nil (s : InputBitStream.t) :
  wf_in s -> remaining s = [] ->
  exists s', InputBitStream.read_bit s
               = (InputBitStream.last_real_bit s, s') /\
             InputBitStream.done s' = true /\
             InputBitStream.numbits s' = 0 /\
             InputBitStream.last_real_bit s'
               = InputBitStream.last_real_bit s.
Proof.
  destruct s as [v n inf d lrb]. unfold wf_in, remaining.
  cbn [InputBitStream.done InputBitStream.numbits InputBitStream.bitvec
       InputBitStream.infile InputBitStream.last_real_bit].
  intros (Hd & Hn & Hl) Hrem. subst d.
  apply app_eq_nil in Hrem. destruct Hrem as [Hp Hi].
  apply (f_equal (@length bool)) in Hp. rewrite length_bits_from in Hp.
  cbn [length] in Hp. assert (n = 8) by lia. subst n.
  apply bytes_bits_nil_inv in Hi. subst inf.
  eexists. split; [reflexivity|]. simpl. auto.
Qed.

Lemma read_bit_done (s : InputBitStream.t) :
  InputBitStream.done s = true -> InputBitStream.numbits s = 0 ->
  InputBitStream.read_bit s = (InputBitStream.last_real_bit s, s).
Proof.
  destruct s as [v n inf d lrb]. simpl. intros -> ->. reflexivity.
Qed.

Lemma bit_at_succ (s : InputBitStream.t) (i : nat) :
  InputBitStream.bit_at s (S i)
    = InputBitStream.bit_at (snd (InputBitStream.read_bit s)) i.
Proof. reflexivity. Qed.

Lemma bit_at_done (s : InputBitStream.t) (i : nat) :
  InputBitStream.done s = true -> InputBitStream.numbits s = 0 ->
  InputBitStream.bit_at s i = InputBitStream.last_real_bit s.
Proof.
  intros Hd Hn. induction i as [|i IH].
  - unfold InputBitStream.bit_at. cbn [InputBitStream.reads].
    rewrite read_bit_done by assumption. reflexivity.
  - rewrite bit_at_succ, read_bit_done by assumption. exact IH.
Qed.

Lemma last_cons (x d : Z) (l : list Z) : last (x :: l) d = last l x.
Proof.
  revert x d. induction l as [|y l IH]; intros x d; [reflexivity|].
  change (last (x :: y :: l) d) with (last (y :: l) d).
  rewrite (IH y d), (IH y x). reflexivity.
Qed.

(** What a source returns, call after call: the bits it holds, then the last
    of them for ever. *)
Lemma bit_at_remaining (l : list bool) (s : InputBitStream.t) (i : nat) :
  wf_in s -> remaining s = l ->
  InputBitStream.bit_at s i
    = nth i (map Z.b2z l)
        (last (map Z.b2z l) (InputBitStream.last_real_bit s)).
Proof.
  revert s i. induction l as [|b l IH]; intros s i Hs Hrem.
  - destruct (read_bit_nil s Hs Hrem) as (s' & H1 & H2 & H3 & H4).
    simpl. destruct i as [|i].
    + unfold InputBitStream.bit_at. cbn [InputBitStream.reads].
      rewrite H1. reflexivity.
    + rewrite bit_at_succ, H1. simpl. rewrite bit_at_done by assumption.
      exact H4.
  - destruct (read_bit_cons s b l Hs Hrem) as (s' & H1 & H2 & H3 & H4).
    destruct i as [|i].
    + unfold InputBitStream.bit_at. cbn [InputBitStream.reads].
      rewrite H1. reflexivity.
    + rewrite bit_at_succ, H1. cbn [snd]. rewrite (IH s' i H2 H3), H4.
      cbn [map nth]. rewrite last_cons. reflexivity.
Qed.

Lemma nth_app_repeat (F : list bool) (p i : nat) :
  nth i (F ++ repeat true p) true = nth i F true.
Proof.
  destruct (Nat.lt_ge_cases i (length F)) as [H|H].
  - apply app_nth1. exact H.
  - rewrite app_nth2, (nth_overflow F) by lia. apply nth_repeat.
Qed.

(** A source opened on bytes whose bits end in a 1 returns those bits and then
    1 for ever. *)
Lemma bit_at_new (bs : list byte) (F : list bool) (p i : nat) :
  bytes_bits bs = F ++ true :: repeat true p ->
  InputBitStream.bit_at (InputBitStream.new bs) i
    = Z.b2z (nth i (F ++ [true]) true).
Proof.
  intros Hbs.
  rewrite (bit_at_remaining (bytes_bits bs));
    [| unfold wf_in; simpl; lia | reflexivity].
  replace (last (map Z.b2z (bytes_bits bs)) _) with (Z.b2z true).
  - rewrite map_nth, Hbs.
    change (true :: repeat true p) with ([true] ++ repeat true p).
    rewrite app_assoc, nth_app_repeat. reflexivity.
  - rewrite Hbs, map_app.
    change (true :: repeat true p) with (repeat true (S p)).
    replace (S p) with (p + 1)%nat by lia.
    rewrite repeat_app, map_app, app_assoc. simpl repeat. simpl map.
    rewrite last_last. reflexivity.
Qed.

(** ** Renormalization, case by case *)

Lemma lnot_b2z (b : bool) : lnot (Z.b2z b) = Z.b2z (negb b).
Proof. destruct b; reflexivity. Qed.

Lemma push_copies_bits (n : nat) (c : bool) (st : OutputBitStream.t) :
  push_copies n (Z.b2z c) st = push_bits (repeat c n) st.
Proof.
  revert st. induction n as [|n IH]; intros st; [reflexivity|].
  simpl. apply IH.
Qed.

(** The four ways a pass through an inner loop can go, in arithmetic. *)
Lemma renorm_cases (lo hi : Z) :
  ordered lo hi ->
  (hi < 2 ^ 31 /\ msb_match lo hi = true /\ Z.shiftr hi 31 = 0 /\
   shift_lower lo = 2 * lo /\ shift_upper hi = 2 * hi + 1) \/
  (2 ^ 31 <= lo /\ msb_match lo hi = true /\ Z.shiftr hi 31 = 1 /\
   shift_lower lo = 2 * lo - 2 ^ 32 /\
   shift_upper hi = 2 * hi - 2 ^ 32 + 1) \/
  (2 ^ 30 <= lo < 2 ^ 31 /\ 2 ^ 31 <= hi < 2 ^ 31 + 2 ^ 30 /\
   msb_match lo hi = false /\ underflow lo hi = true /\
   splice_lower lo = 2 * lo - 2 ^ 31 /\
   splice_upper hi = 2 * hi - 2 ^ 31 + 1) \/
  (normalized lo hi /\ msb_match lo hi = false /\ underflow lo hi = false).
Proof.
  unfold ordered, normalized. intros Ho.
  rewrite msb_match_spec, shiftr_31, shift_lower_spec, shift_upper_spec
    by lia.
  destruct (Z.ltb_spec hi (2 ^ 31)) as [H1|H1].
  - left. replace (lo <? 2 ^ 31) with true by (symmetry; apply Z.ltb_lt; lia).
    cbn [andb orb]. repeat split; try reflexivity; zlia.
  - destruct (Z.ltb_spec lo (2 ^ 31)) as [H2|H2].
    + replace (2 ^ 31 <=? hi) with true by (symmetry; apply Z.leb_le; lia).
      replace (2 ^ 31 <=? lo) with false by (symmetry; apply Z.leb_gt; lia).
      cbn [andb orb]. right. right. rewrite underflow_spec by lia.
      destruct (Z.leb_spec (2 ^ 30) lo) as [H3|H3];
        destruct (Z.ltb_spec hi (2 ^ 31 + 2 ^ 30)) as [H4|H4];
        cbn [andb orb].
      * left. rewrite splice_lower_spec, splice_upper_spec by lia.
        repeat split; try reflexivity; zlia.
      * right. repeat split; try reflexivity; lia.
      * right. repeat split; try reflexivity; lia.
      * right. repeat split; try reflexivity; lia.
    + right. left.
      replace (2 ^ 31 <=? hi) with true by (symmetry; apply Z.leb_le; lia).
      replace (2 ^ 31 <=? lo) with true by (symmetry; apply Z.leb_le; lia).
      cbn [andb orb]. repeat split; try reflexivity; zlia.
Qed.

(** ** Streams of bits as numbers *)

Lemma valT_range (n : nat) (F : list bool) : 0 <= valT n F < 2 ^ Z.of_nat n.
Proof.
  revert F. induction n as [|n IH]; intros F.
  - simpl. lia.
  - cbn [valT]. specialize (IH (tl F)). rewrite Nat2Z.inj_succ, Z.pow_succ_r
      by lia. pose proof (b2z_range (hd true F)).
    destruct (hd true F); simpl Z.b2z in *; lia.
Qed.

Lemma hd_nth (F : list bool) : hd true F = nth 0 F true.
Proof. destruct F; reflexivity. Qed.

Lemma nth_tl (F : list bool) (i : nat) : nth i (tl F) true = nth (S i) F true.
Proof. destruct F; [destruct i|]; reflexivity. Qed.

Lemma valT_snoc (n : nat) (F : list bool) :
  valT (S n) F = 2 * valT n F + Z.b2z (nth n F true).
Proof.
  revert F. induction n as [|n IH]; intros F.
  - cbn [valT]. rewrite hd_nth. simpl. lia.
  - change (valT (S (S n)) F)
      with (Z.b2z (hd true F) * 2 ^ Z.of_nat (S n) + valT (S n) (tl F)).
    rewrite IH, nth_tl. cbn [valT].
    rewrite Nat2Z.inj_succ, Z.pow_succ_r by lia. lia.
Qed.

Lemma nth_skipn (F : list bool) (j i : nat) :
  nth i (skipn j F) true = nth (j + i) F true.
Proof.
  revert F. induction j as [|j IH]; intros F; [reflexivity|].
  destruct F as [|x F]; [destruct i; reflexivity|]. simpl. apply IH.
Qed.

Lemma tl_skipn (F : list bool) (j : nat) : tl (skipn j F) = skipn (S j) F.
Proof.
  revert F. induction j as [|j IH]; intros F.
  - destruct F; reflexivity.
  - destruct F as [|x F]; [reflexivity|]. simpl skipn at 1.
    rewrite IH. reflexivity.
Qed.

Lemma win_0 (F : list bool) : win 0 F = valT 32 F.
Proof.
  unfold win. change (skipn 1 F) with (tl (skipn 0 F)).
  reflexivity.
Qed.

(** The window one underflow deeper. *)
Lemma win_split (k : nat) (F : list bool) :
  win k F = Z.b2z (hd true F) * 2 ^ 31
            + Z.b2z (nth (S k) F true) * 2 ^ 30
            + valT 30 (skipn (S (S k)) F) /\
  win (S k) F = Z.b2z (hd true F) * 2 ^ 31
                + 2 * valT 30 (skipn (S (S k)) F)
                + Z.b2z (nth (k + 32) F true).
Proof.
  unfold win. split.
  - change (valT 31 (skipn (S k) F))
      with (Z.b2z (hd true (skipn (S k) F)) * 2 ^ Z.of_nat 30
            + valT 30 (tl (skipn (S k) F))).
    rewrite (hd_nth (skipn (S k) F)), nth_skipn, tl_skipn, Nat.add_0_r.
    change (Z.of_nat 30) with 30. lia.
  - rewrite valT_snoc, nth_skipn.
    replace (S (S k) + 30)%nat with (k + 32)%nat by lia. lia.
Qed.

Lemma skipn_cons_repeat (b c : bool) (k : nat) (F : list bool) :
  skipn (S k) (b :: repeat c k ++ F) = F.
Proof.
  simpl. rewrite skipn_app, repeat_length, Nat.sub_diag.
  rewrite skipn_all2 by (rewrite repeat_length; lia). reflexivity.
Qed.

Lemma nth_cons_repeat (b c : bool) (k i : nat) (F : list bool) :
  nth (S k + i) (b :: repeat c k ++ F) true = nth i F true.
Proof.
  rewrite <- (skipn_cons_repeat b c k F) at 2. rewrite nth_skipn.
  reflexivity.
Qed.

(** ** One pass of the inner loops, compressor against decompressor *)

Lemma good_shift (b : bool) (k : nat) (F : list bool) (lo hi : Z) :
  good 0 F (2 * lo - Z.b2z b * 2 ^ 32) (2 * hi - Z.b2z b * 2 ^ 32 + 1) ->
  good k (b :: repeat (negb b) k ++ F) lo hi.
Proof.
  unfold good. intros [_ Hw]. split.
  - intros i Hi. destruct i as [|i]; [lia|]. cbn [nth hd].
    rewrite app_nth1 by (rewrite repeat_length; lia).
    apply nth_repeat_lt. lia.
  - unfold win at 1 2. rewrite skipn_cons_repeat. cbn [hd].
    rewrite win_0, valT_snoc in Hw.
    pose proof (b2z_range (nth 31 F true)). lia.
Qed.

Lemma good_splice (k : nat) (F : list bool) (lo hi : Z) :
  2 ^ 30 <= lo -> hi < 2 ^ 31 + 2 ^ 30 ->
  good (S k) F (2 * lo - 2 ^ 31) (2 * hi - 2 ^ 31 + 1) ->
  good k F lo hi.
Proof.
  unfold good. intros Hlo Hhi [Hp Hw]. split.
  - intros i Hi. apply Hp. lia.
  - destruct (win_split k F) as [E1 E2]. rewrite E1. rewrite E2 in Hw.
    rewrite (Hp (S k)) by lia.
    pose proof (valT_range 30 (skipn (S (S k)) F)) as HV.
    change (Z.of_nat 30) with 30 in HV.
    pose proof (b2z_range (nth (k + 32) F true)).
    destruct (hd true F); cbn [negb Z.b2z] in *; lia.
Qed.

Lemma read_bit_at (st : InputBitStream.t) :
  InputBitStream.read_bit st
    = (InputBitStream.bit_at st 0, snd (InputBitStream.read_bit st)).
Proof.
  unfold InputBitStream.bit_at. cbn [InputBitStream.reads].
  destruct (InputBitStream.read_bit st); reflexivity.
Qed.

Lemma follows_shift (b : bool) (k : nat) (F : list bool) (w : Z)
    (st : InputBitStream.t) :
  follows k (b :: repeat (negb b) k ++ F) w st ->
  exists bit st', InputBitStream.read_bit st = (bit, st') /\
                  follows 0 F (shift_window w bit) st'.
Proof.
  unfold follows. intros [Hw Hs].
  exists (InputBitStream.bit_at st 0), (snd (InputBitStream.read_bit st)).
  split; [apply read_bit_at|]. split.
  - unfold win in Hw. rewrite skipn_cons_repeat in Hw. cbn [hd] in Hw.
    pose proof (valT_range 31 F) as HV. change (Z.of_nat 31) with 31 in HV.
    rewrite shift_window_spec;
      [| pose proof (b2z_range b); lia
       | rewrite Hs; apply b2z_range].
    rewrite Hs, win_0, valT_snoc.
    replace (k + 32 + 0)%nat with (S k + 31)%nat by lia.
    rewrite nth_cons_repeat. subst w.
    destruct b; cbn [Z.b2z]; zlia.
  - intros n. rewrite <- bit_at_succ, Hs.
    replace (k + 32 + S n)%nat with (S k + (0 + 32 + n))%nat by lia.
    rewrite nth_cons_repeat. reflexivity.
Qed.

Lemma follows_splice (k : nat) (F : list bool) (w : Z)
    (st : InputBitStream.t) :
  follows k F w st ->
  exists bit st', InputBitStream.read_bit st = (bit, st') /\
                  follows (S k) F (splice_window w bit) st'.
Proof.
  unfold follows. intros [Hw Hs].
  exists (InputBitStream.bit_at st 0), (snd (InputBitStream.read_bit st)).
  split; [apply read_bit_at|]. split.
  - destruct (win_split k F) as [E1 E2]. rewrite E1 in Hw. rewrite E2.
    pose proof (valT_range 30 (skipn (S (S k)) F)) as HV.
    change (Z.of_nat 30) with 30 in HV.
    pose proof (b2z_range (hd true F)).
    pose proof (b2z_range (nth (S k) F true)).
    rewrite splice_window_spec; [| lia | rewrite Hs; apply b2z_range].
    rewrite Hs. replace (k + 32 + 0)%nat with (k + 32)%nat by lia.
    subst w. zlia.
  - intros n. rewrite <- bit_at_succ, Hs. f_equal. f_equal. lia.
Qed.

(** ** The inner loops, compressor against decompressor *)

Lemma enc_renorm_step_shift (b : bool) (lo hi k : Z)
    (st : OutputBitStream.t) :
  msb_match lo hi = true -> Z.shiftr hi 31 = Z.b2z b ->
  enc_renorm_step lo hi k st
    = Some (shift_lower lo, shift_upper hi, 0,
            push_bits (b :: repeat (negb b) (Z.to_nat k)) st).
Proof.
  intros Hm Hb. unfold enc_renorm_step. rewrite Hm, Hb, lnot_b2z.
  rewrite push_copies_bits. reflexivity.
Qed.

Lemma pow2_succ (n : nat) : 2 ^ Z.of_nat (S n) = 2 * 2 ^ Z.of_nat n.
Proof. rewrite Nat2Z.inj_succ, Z.pow_succ_r by lia. reflexivity. Qed.

(** From bounds in order the inner loops stop within the fuel, the
    compressor having emitted some bits [E]; whatever stream [E ++ F] the
    compressor goes on to produce, a window inside the bounds after the loop
    was inside them before it, and the decompressor reading that stream leaves
    its own loop with the same bounds and the matching window. *)
Lemma wrap_int_small (x : Z) : is_int x -> wrap_int x = x.
Proof.
  unfold is_int, wrap_int. intros Hx. rewrite Z.mod_small by lia. lia.
Qed.

Lemma wrap_int_range (x : Z) : is_int (wrap_int x).
Proof. unfold is_int, wrap_int. zlia. Qed.

Lemma renorm_sim (fuel : nat) (lo hi k : Z) :
  ordered lo hi -> 0 <= k -> 2 ^ 32 < (hi - lo + 1) * 2 ^ Z.of_nat fuel ->
  k + Z.of_nat fuel < 2 ^ 31 ->
  exists E lo' hi' k',
    normalized lo' hi' /\ 0 <= k' <= k + Z.of_nat fuel /\
    (forall st, enc_renorm fuel lo hi k st
                = Some (lo', hi', k', push_bits E st)) /\
    (forall F, good (Z.to_nat k') F lo' hi' ->
               good (Z.to_nat k) (E ++ F) lo hi) /\
    (forall F w st, follows (Z.to_nat k) (E ++ F) w st ->
       exists w' st', dec_renorm fuel lo hi w st = Some (lo', hi', w', st')
                      /\ follows (Z.to_nat k') F w' st').
Proof.
  revert lo hi k. induction fuel as [|fuel IH]; intros lo hi k Ho Hk Hf Hi.
  - unfold ordered in Ho. simpl in Hf. lia.
  - rewrite pow2_succ in Hf.
    assert (Hshift : forall b : bool,
      msb_match lo hi = true -> Z.shiftr hi 31 = Z.b2z b ->
      shift_lower lo = 2 * lo - Z.b2z b * 2 ^ 32 ->
      shift_upper hi = 2 * hi - Z.b2z b * 2 ^ 32 + 1 ->
      ordered (shift_lower lo) (shift_upper hi) ->
      exists E lo' hi' k',
        normalized lo' hi' /\ 0 <= k' <= k + Z.of_nat (S fuel) /\
        (forall st, enc_renorm (S fuel) lo hi k st
                    = Some (lo', hi', k', push_bits E st)) /\
        (forall F, good (Z.to_nat k') F lo' hi' ->
                   good (Z.to_nat k) (E ++ F) lo hi) /\
        (forall F w st, follows (Z.to_nat k) (E ++ F) w st ->
           exists w' st',
             dec_renorm (S fuel) lo hi w st = Some (lo', hi', w', st')
             /\ follows (Z.to_nat k') F w' st')).
    { intros b Hm Hb Hl Hu Ho'.
      destruct (IH (shift_lower lo) (shift_upper hi) 0 Ho')
        as (E & lo' & hi' & k' & Hn & Hk' & Henc & Hgood & Hdec);
        [lia | rewrite Hl, Hu; lia | lia |].
      exists ((b :: repeat (negb b) (Z.to_nat k)) ++ E), lo', hi', k'.
      split; [exact Hn|]. split; [lia|]. split; [|split].
      - intros st. cbn [enc_renorm].
        rewrite (enc_renorm_step_shift b) by assumption.
        rewrite Henc, push_bits_app. reflexivity.
      - intros F HF. rewrite <- app_assoc, <- app_comm_cons.
        apply good_shift. rewrite <- Hl, <- Hu. apply Hgood. exact HF.
      - intros F w st HF.
        rewrite <- app_assoc, <- app_comm_cons in HF.
        destruct (follows_shift _ _ _ _ _ HF) as (bit & st' & Hr & HF').
        destruct (Hdec F _ _ HF') as (w' & st'' & Hd & HF'').
        exists w', st''. split; [|exact HF''].
        cbn [dec_renorm]. unfold dec_renorm_step. rewrite Hm, Hr.
        exact Hd. }
    destruct (renorm_cases lo hi Ho)
      as [(H1 & Hm & Hb & Hl & Hu)
         |[(H1 & Hm & Hb & Hl & Hu)
          |[(H1 & H2 & Hm & Hun & Hl & Hu)|(Hn & Hm & Hun)]]].
    + apply (Hshift false); cbn [Z.b2z]; try assumption; try lia.
      rewrite Hl, Hu. unfold ordered in *. lia.
    + apply (Hshift true); cbn [Z.b2z]; try assumption; try lia.
      rewrite Hl, Hu. unfold ordered in *. lia.
    + destruct (IH (splice_lower lo) (splice_upper hi) (k + 1))
        as (E & lo' & hi' & k' & Hn & Hk' & Henc & Hgood & Hdec);
        [rewrite Hl, Hu; unfold ordered in *; lia | lia
        | rewrite Hl, Hu; lia | lia |].
      replace (Z.to_nat (k + 1)) with (S (Z.to_nat k)) in * by lia.
      exists E, lo', hi', k'.
      split; [exact Hn|]. split; [lia|]. split; [|split].
      * intros st. cbn [enc_renorm]. unfold enc_renorm_step.
        rewrite Hm, Hun, wrap_int_small by (unfold is_int; lia).
        apply Henc.
      * intros F HF. apply good_splice; [lia | lia |].
        rewrite <- Hl, <- Hu. apply Hgood. exact HF.
      * intros F w st HF.
        destruct (follows_splice _ _ _ _ HF) as (bit & st' & Hr & HF').
        destruct (Hdec F _ _ HF') as (w' & st'' & Hd & HF'').
        exists w', st''. split; [|exact HF''].
        cbn [dec_renorm]. unfold dec_renorm_step. rewrite Hm, Hun, Hr.
        exact Hd.
    + exists [], lo, hi, k.
      split; [exact Hn|]. split; [lia|]. split; [|split].
      * intros st. cbn [enc_renorm]. unfold enc_renorm_step.
        rewrite Hm, Hun. reflexivity.
      * intros F HF. exact HF.
      * intros F w st HF. exists w, st. split; [|exact HF].
        cbn [dec_renorm]. unfold dec_renorm_step. rewrite Hm, Hun.
        reflexivity.
Qed.

(** ** The cumulative table and the interval update *)



Lemma normalized_ordered (lo hi : Z) : normalized lo hi -> ordered lo hi.
Proof. unfold normalized, ordered. lia. Qed.

Lemma normalized_range (lo hi : Z) :
  normalized lo hi -> 2 ^ 30 < hi - lo + 1.
Proof. unfold normalized. lia. Qed.

Lemma div_scale_bounds (R c T : Z) :
  0 < T -> 0 <= c <= T -> 0 <= R -> 0 <= R * c / T <= R.
Proof.
  intros HT Hc HR. split.
  - apply Z.div_pos; nia.
  - apply Z.div_le_upper_bound; nia.
Qed.

Lemma div_scale_lt (R c c' T : Z) :
  0 < T -> T <= R -> 0 <= c -> c < c' -> R * c / T < R * c' / T.
Proof.
  intros HT HR Hc Hcc.
  assert (H1 : R * c / T + 1 <= R * c' / T).
  { apply Z.div_le_lower_bound; [lia|].
    pose proof (Z.mul_div_le (R * c) T HT). nia. }
  lia.
Qed.

Lemma initial_normalized : normalized 0 (wrap32 (-1)).
Proof. unfold normalized. change (wrap32 (-1)) with (2 ^ 32 - 1). lia. Qed.

Lemma renorm_fuel_enough (lo hi : Z) :
  ordered lo hi -> 2 ^ 32 < (hi - lo + 1) * 2 ^ Z.of_nat renorm_fuel.
Proof.
  unfold ordered, renorm_fuel. intros Ho.
  change (2 ^ Z.of_nat 33) with (2 * 2 ^ 32). lia.
Qed.

Lemma valT_ones (n : nat) (F : list bool) :
  (forall i, nth i F true = true) -> valT n F = 2 ^ Z.of_nat n - 1.
Proof.
  revert F. induction n as [|n IH]; intros F HF; [reflexivity|].
  cbn [valT]. rewrite IH by (intros i; rewrite nth_tl; apply HF).
  rewrite hd_nth, HF, pow2_succ. cbn [Z.b2z]. lia.
Qed.

(** The flush: with top bits 0 and 1 in the bounds, 0 followed by 1s lies
    between them, however many underflow bits are pending. *)
Lemma good_final (k : nat) (lo hi : Z) :
  normalized lo hi -> good k [false; true] lo hi.
Proof.
  unfold normalized, good. intros Hn. split.
  - intros i Hi. destruct i as [|[|[|i]]]; try reflexivity. lia.
  - unfold win. cbn [hd Z.b2z].
    rewrite (valT_ones 31).
    + change (Z.of_nat 31) with 31. lia.
    + intros i. rewrite nth_skipn. simpl.
      destruct (k + i)%nat as [|[|]]; reflexivity.
Qed.

Lemma read_bit_ok (st : InputBitStream.t) :
  bit_ok st ->
  0 <= fst (InputBitStream.read_bit st) <= 1 /\
  bit_ok (snd (InputBitStream.read_bit st)).
Proof.
  unfold bit_ok, InputBitStream.read_bit. intros Hb.
  assert (Hi : 0 <= InputBitStream.last_real_bit
                      (InputBitStream.input_byte st) <= 1).
  { unfold InputBitStream.input_byte.
    destruct (InputBitStream.infile st); exact Hb. }
  set (s1 := if InputBitStream.numbits st =? 8
             then InputBitStream.input_byte st else st).
  assert (H1 : 0 <= InputBitStream.last_real_bit s1 <= 1)
    by (subst s1; destruct (InputBitStream.numbits st =? 8); assumption).
  destruct (InputBitStream.done s1); cbn [fst snd].
  - split; exact H1.
  - cbn [InputBitStream.last_real_bit]. rewrite land_1.
    split; zlia.
Qed.

Lemma read_window_ok (n : nat) (acc : Z) (st : InputBitStream.t) :
  bit_ok st -> 0 <= acc < 2 ^ 32 ->
  0 <= fst (read_window n acc st) < 2 ^ 32 /\
  bit_ok (snd (read_window n acc st)).
Proof.
  revert acc st. induction n as [|n IH]; intros acc st Hst Hacc.
  - split; assumption.
  - cbn [read_window]. destruct (read_bit_ok st Hst) as [Hb Hst'].
    destruct (InputBitStream.read_bit st) as [b st']. cbn [fst snd] in *.
    apply IH; [exact Hst'|].
    fold (shift_window acc b). rewrite shift_window_spec by assumption.
    zlia.
Qed.

Lemma wrap64_small (x : Z) : 0 <= x < 2 ^ 64 -> wrap64 x = x.
Proof. apply Z.mod_small. Qed.

Lemma wrap32_small (x : Z) : 0 <= x < 2 ^ 32 -> wrap32 x = x.
Proof. apply Z.mod_small. Qed.

Lemma enc_range_spec (lo hi : Z) :
  ordered lo hi -> wrap64 (wrap64 (hi + 1) - lo) = hi - lo + 1.
Proof.
  unfold ordered. intros Ho.
  rewrite (wrap64_small (hi + 1)) by lia.
  rewrite wrap64_small by lia. lia.
Qed.

Lemma dec_range_spec (lo hi : Z) :
  ordered lo hi -> dec_range lo hi = hi - lo + 1.
Proof.
  unfold ordered, dec_range. intros Ho.
  rewrite (wrap64_small (hi - lo)) by lia.
  rewrite wrap64_small by lia. lia.
Qed.

Section Model.

Variable CF_low : list Z.
Variable T : Z.


(** What the proofs use of the table; [the_model_length] to
    [the_model_small] below show that the table built by the programs has
    it. *)
Hypothesis CF_length : length CF_low = 258%nat.
Hypothesis CF_zero : cf CF_low 0 = 0.
Hypothesis CF_incr :
  forall s, 0 <= s <= 256 -> cf CF_low s < cf CF_low (s + 1).
Hypothesis CF_total : cf CF_low 257 = T.
Hypothesis T_small : T <= 2 ^ 30.

Lemma at_cf (s : Z) : 0 <= s <= 257 -> at_ CF_low s = Some (cf CF_low s).
Proof.
  intros Hs. unfold at_, cf. rewrite CF_length.
  replace ((0 <=? s) && (s <? Z.of_nat 258)) with true
    by (symmetry; apply andb_true_intro; split;
        [apply Z.leb_le | apply Z.ltb_lt]; lia).
  apply nth_error_nth'. lia.
Qed.

Lemma cf_mono_nat (n : nat) (s : Z) :
  0 <= s -> s + Z.of_nat n <= 257 -> cf CF_low s <= cf CF_low (s + Z.of_nat n).
Proof.
  induction n as [|n IH]; intros Hs Hn.
  - rewrite Z.add_0_r. lia.
  - pose proof (CF_incr (s + Z.of_nat n)).
    replace (s + Z.of_nat (S n)) with (s + Z.of_nat n + 1) by lia. lia.
Qed.

Lemma cf_mono (s s' : Z) :
  0 <= s <= s' -> s' <= 257 -> cf CF_low s <= cf CF_low s'.
Proof.
  intros Hs Hs'. replace s' with (s + Z.of_nat (Z.to_nat (s' - s))) by lia.
  apply cf_mono_nat; lia.
Qed.

Lemma cf_range (s : Z) : 0 <= s <= 257 -> 0 <= cf CF_low s <= T.
Proof.
  intros Hs. rewrite <- CF_zero at 1. rewrite <- CF_total.
  split; apply cf_mono; lia.
Qed.

Lemma T_pos : 0 < T.
Proof.
  pose proof (CF_incr 256) as H. change (256 + 1) with 257 in H.
  rewrite CF_total in H. pose proof (cf_range 256). lia.
Qed.

Lemma cf_unique (s s' x : Z) :
  0 <= s <= 256 -> 0 <= s' <= 256 ->
  cf CF_low s <= x < cf CF_low (s + 1) ->
  cf CF_low s' <= x < cf CF_low (s' + 1) -> s = s'.
Proof.
  intros Hs Hs' Hx Hx'.
  destruct (Z.lt_trichotomy s s') as [Hlt|[Heq|Hgt]]; [|exact Heq|].
  - pose proof (cf_mono (s + 1) s'). lia.
  - pose proof (cf_mono (s' + 1) s). lia.
Qed.

Lemma cf_locate_nat (n : nat) (x : Z) :
  (n <= 257)%nat -> 0 <= x < cf CF_low (Z.of_nat n) ->
  exists s, 0 <= s <= 256 /\ cf CF_low s <= x < cf CF_low (s + 1).
Proof.
  induction n as [|n IH]; intros Hn Hx.
  - simpl in Hx. rewrite CF_zero in Hx. lia.
  - destruct (Z.le_gt_cases (cf CF_low (Z.of_nat n)) x) as [Hle|Hgt].
    + exists (Z.of_nat n). replace (Z.of_nat n + 1) with (Z.of_nat (S n))
        by lia. lia.
    + apply IH; lia.
Qed.

Lemma cf_locate (x : Z) :
  0 <= x < T -> exists s, 0 <= s <= 256 /\ cf CF_low s <= x < cf CF_low (s + 1).
Proof.
  intros Hx. apply (cf_locate_nat 257); [lia|].
  change (Z.of_nat 257) with 257. rewrite CF_total. exact Hx.
Qed.


Lemma narrow_bounds (lo hi s : Z) :
  ordered lo hi -> T <= hi - lo + 1 -> 0 <= s <= 256 ->
  lo <= narrow_lo CF_low T lo hi s /\
  narrow_lo CF_low T lo hi s <= narrow_hi CF_low T lo hi s /\
  narrow_hi CF_low T lo hi s <= hi.
Proof.
  intros Ho HR Hs. unfold narrow_lo, narrow_hi, ordered in *.
  pose proof T_pos as HT.
  pose proof (cf_range s) as Hc. pose proof (cf_range (s + 1)) as Hc'.
  pose proof (CF_incr s Hs) as Hi.
  pose proof (div_scale_bounds (hi - lo + 1) (cf CF_low s) T).
  pose proof (div_scale_bounds (hi - lo + 1) (cf CF_low (s + 1)) T).
  pose proof (div_scale_lt (hi - lo + 1) (cf CF_low s) (cf CF_low (s + 1)) T).
  lia.
Qed.

Lemma range_product (R c : Z) :
  0 <= R <= 2 ^ 32 -> 0 <= c <= T -> 0 <= R * c < 2 ^ 64.
Proof. intros HR Hc. nia. Qed.

Lemma narrow_wraps (lo hi s R : Z) :
  ordered lo hi -> R = hi - lo + 1 -> T <= R -> 0 <= s <= 256 ->
  wrap32 (wrap64 (wrap64 (lo + wrap64 (R * cf CF_low (s + 1)) / T) - 1))
    = narrow_hi CF_low T lo hi s /\
  wrap32 (wrap64 (lo + wrap64 (R * cf CF_low s) / T))
    = narrow_lo CF_low T lo hi s.
Proof.
  intros Ho -> HR Hs.
  destruct (narrow_bounds lo hi s Ho HR Hs) as (H1 & H2 & H3).
  unfold narrow_lo, narrow_hi, ordered in *.
  pose proof (cf_range s) as Hc. pose proof (cf_range (s + 1)) as Hc'.
  rewrite !(wrap64_small (_ * _)) by (apply range_product; lia).
  rewrite !(wrap64_small (lo + _)) by lia.
  rewrite (wrap64_small (_ - 1)) by lia.
  rewrite !wrap32_small by lia. split; reflexivity.
Qed.

Lemma enc_narrow_spec (lo hi s : Z) :
  ordered lo hi -> T <= hi - lo + 1 -> 0 <= s <= 256 ->
  enc_narrow CF_low T lo hi s
    = Some (narrow_lo CF_low T lo hi s, narrow_hi CF_low T lo hi s).
Proof.
  intros Ho HR Hs. unfold enc_narrow.
  replace (T =? 0) with false
    by (symmetry; apply Z.eqb_neq; pose proof T_pos; lia).
  rewrite (wrap32_small (s + 1)), !at_cf by lia. simpl.
  rewrite enc_range_spec by assumption.
  destruct (narrow_wraps lo hi s _ Ho eq_refl HR Hs) as [-> ->].
  reflexivity.
Qed.

Lemma dec_narrow_spec (lo hi s : Z) :
  ordered lo hi -> T <= hi - lo + 1 -> 0 <= s <= 256 ->
  dec_narrow CF_low T lo hi s
    = Some (narrow_lo CF_low T lo hi s, narrow_hi CF_low T lo hi s).
Proof.
  intros Ho HR Hs. unfold dec_narrow.
  replace (T =? 0) with false
    by (symmetry; apply Z.eqb_neq; pose proof T_pos; lia).
  rewrite (wrap32_small (s + 1)), !at_cf by lia. simpl.
  rewrite dec_range_spec by assumption.
  destruct (narrow_wraps lo hi s _ Ho eq_refl HR Hs) as [-> ->].
  reflexivity.
Qed.


Lemma scaled_symbol_spec (lo hi w : Z) :
  ordered lo hi -> lo <= w <= hi ->
  scaled_symbol T lo hi w = scaled_of T lo hi w.
Proof.
  intros Ho Hw. unfold scaled_symbol, scaled_of.
  rewrite dec_range_spec by assumption.
  pose proof T_pos as HT. unfold ordered in Ho.
  rewrite (wrap64_small (w - lo)) by lia.
  rewrite (wrap64_small (w - lo + 1)) by lia.
  assert (0 <= (w - lo + 1) * T < 2 ^ 64) by nia.
  rewrite (wrap64_small (_ * _)) by lia.
  rewrite (wrap64_small (_ - 1)) by nia. reflexivity.
Qed.

Lemma scaled_range (lo hi w : Z) :
  ordered lo hi -> lo <= w <= hi -> 0 <= scaled_of T lo hi w < T.
Proof.
  intros Ho Hw. unfold scaled_of, ordered in *. pose proof T_pos as HT.
  split.
  - apply Z.div_pos; nia.
  - apply Z.div_lt_upper_bound; nia.
Qed.

(** The symbol whose sub-interval holds the window is the one the scaled
    position selects, and conversely. *)
Lemma scaled_in_symbol (lo hi w s : Z) :
  ordered lo hi -> 0 <= s <= 256 ->
  narrow_lo CF_low T lo hi s <= w <= narrow_hi CF_low T lo hi s ->
  cf CF_low s <= scaled_of T lo hi w < cf CF_low (s + 1).
Proof.
  intros Ho Hs Hw. unfold narrow_lo, narrow_hi, scaled_of, ordered in *.
  pose proof T_pos as HT.
  pose proof (cf_range s) as Hc. pose proof (cf_range (s + 1)) as Hc'.
  set (R := hi - lo + 1) in *. assert (HR : 0 < R) by (subst R; lia).
  pose proof (Z.mul_succ_div_gt (R * cf CF_low s) T HT) as H1.
  pose proof (Z.mul_div_le (R * cf CF_low (s + 1)) T HT) as H2.
  split.
  - apply Z.div_le_lower_bound; [lia|]. nia.
  - apply Z.div_lt_upper_bound; [lia|]. nia.
Qed.

Lemma symbol_in_scaled (lo hi w s : Z) :
  ordered lo hi -> lo <= w <= hi -> 0 <= s <= 256 ->
  cf CF_low s <= scaled_of T lo hi w < cf CF_low (s + 1) ->
  narrow_lo CF_low T lo hi s <= w <= narrow_hi CF_low T lo hi s.
Proof.
  intros Ho Hw Hs Hx. unfold narrow_lo, narrow_hi, scaled_of, ordered in *.
  pose proof T_pos as HT.
  pose proof (cf_range s) as Hc. pose proof (cf_range (s + 1)) as Hc'.
  set (R := hi - lo + 1) in *. assert (HR : 0 < R) by (subst R; lia).
  set (x := w - lo + 1) in *.
  pose proof (Z.mul_div_le (x * T - 1) R HR) as H1.
  pose proof (Z.mul_succ_div_gt (x * T - 1) R HR) as H2.
  assert (H3 : R * cf CF_low s / T < x).
  { apply Z.div_lt_upper_bound; [lia|]. nia. }
  assert (H4 : x <= R * cf CF_low (s + 1) / T).
  { apply Z.div_le_lower_bound; [lia|]. nia. }
  subst x. lia.
Qed.

Lemma find_symbol_from (fuel : nat) (j s x : Z) :
  0 <= j <= s -> s <= 256 -> (Z.to_nat (s - j) < fuel)%nat ->
  cf CF_low s <= x < cf CF_low (s + 1) ->
  find_symbol CF_low fuel j x = Some s.
Proof.
  revert j. induction fuel as [|fuel IH]; intros j Hj Hs Hf Hx; [lia|].
  simpl. rewrite (wrap32_small (j + 1)), at_cf by lia. simpl.
  destruct (Z.leb_spec (cf CF_low (j + 1)) x) as [Hle|Hgt].
  - assert (j < s).
    { destruct (Z.eq_dec j s) as [->|]; lia. }
    apply IH; lia.
  - pose proof (cf_mono (j + 1) s).
    assert (j = s) by lia. congruence.
Qed.

Lemma find_symbol_spec (s x : Z) :
  0 <= s <= 256 -> cf CF_low s <= x < cf CF_low (s + 1) ->
  find_symbol CF_low (length CF_low) 0 x = Some s.
Proof.
  intros Hs Hx. rewrite CF_length. apply find_symbol_from; lia.
Qed.


(** ** One symbol, and the whole input, through both programs *)

Lemma symbol_sim (s lo hi k : Z) :
  normalized lo hi -> 0 <= k -> 0 <= s <= 256 -> k + 33 < 2 ^ 31 ->
  exists E lo' hi' k',
    normalized lo' hi' /\ 0 <= k' <= k + 33 /\
    (forall st, enc_symbol CF_low T s lo hi k st
                = Some (lo', hi', k', push_bits E st)) /\
    (forall F, good (Z.to_nat k') F lo' hi' ->
       good (Z.to_nat k) (E ++ F) lo hi /\
       narrow_lo CF_low T lo hi s <= win (Z.to_nat k) (E ++ F)
         <= narrow_hi CF_low T lo hi s) /\
    (forall F w st, follows (Z.to_nat k) (E ++ F) w st ->
       exists w' st',
         dec_renorm renorm_fuel (narrow_lo CF_low T lo hi s)
           (narrow_hi CF_low T lo hi s) w st = Some (lo', hi', w', st')
         /\ follows (Z.to_nat k') F w' st').
Proof.
  intros Hn Hk Hs Hi.
  pose proof (normalized_ordered _ _ Hn) as Ho.
  pose proof (normalized_range _ _ Hn) as HR.
  assert (HT : T <= hi - lo + 1) by lia.
  destruct (narrow_bounds lo hi s Ho HT Hs) as (B1 & B2 & B3).
  assert (Ho' : ordered (narrow_lo CF_low T lo hi s)
                        (narrow_hi CF_low T lo hi s))
    by (unfold ordered in *; lia).
  destruct (renorm_sim renorm_fuel _ _ k Ho' Hk
              (renorm_fuel_enough _ _ Ho') Hi)
    as (E & lo' & hi' & k' & Hn' & Hk' & Henc & Hgood & Hdec).
  exists E, lo', hi', k'. split; [exact Hn'|].
  split; [unfold renorm_fuel in Hk'; lia|]. split; [|split].
  - intros st. unfold enc_symbol.
    rewrite enc_narrow_spec by assumption. apply Henc.
  - intros F HF. specialize (Hgood F HF). split; [|apply Hgood].
    destruct Hgood as [Hp Hw]. split; [exact Hp | lia].
  - exact Hdec.
Qed.

Lemma decode_loop_step (n : nat) (lo hi w s : Z) (st : InputBitStream.t)
    (out : list byte) :
  ordered lo hi ->
  narrow_lo CF_low T lo hi s <= w <= narrow_hi CF_low T lo hi s ->
  T <= hi - lo + 1 -> 0 <= s <= 256 ->
  decode_loop CF_low T (S n) lo hi w st out
    = if s =? EOF_SYMBOL then Some out
      else
        '(lo', hi', w', st') <-
           dec_renorm renorm_fuel (narrow_lo CF_low T lo hi s)
             (narrow_hi CF_low T lo hi s) w st ;;
        decode_loop CF_low T n lo' hi' w' st' (out ++ [Z_to_byte s]).
Proof.
  intros Ho Hw HT Hs.
  destruct (narrow_bounds lo hi s Ho HT Hs) as (B1 & B2 & B3).
  cbn [decode_loop]. rewrite dec_range_spec by assumption.
  destruct (Z.eqb_spec (hi - lo + 1) 0) as [E|E];
    [pose proof T_pos; lia|].
  rewrite scaled_symbol_spec by (try assumption; lia).
  rewrite (find_symbol_spec s) by
    (try assumption; apply scaled_in_symbol; assumption).
  cbn [bind]. destruct (s =? EOF_SYMBOL); [reflexivity|].
  rewrite dec_narrow_spec by assumption. reflexivity.
Qed.

Lemma loop_sim (input : list byte) (lo hi k : Z) :
  normalized lo hi -> 0 <= k ->
  k + 33 * (Z.of_nat (length input) + 1) < 2 ^ 31 ->
  exists E lo' hi' k',
    normalized lo' hi' /\
    0 <= k' <= k + 33 * (Z.of_nat (length input) + 1) /\
    (forall st, encode_loop CF_low T input lo hi k st
                = Some (lo', hi', k', push_bits E st)) /\
    good (Z.to_nat k) (E ++ [false; true]) lo hi /\
    (forall w st out n,
       follows (Z.to_nat k) (E ++ [false; true]) w st ->
       (length input < n)%nat ->
       decode_loop CF_low T n lo hi w st out = Some (out ++ input)).
Proof.
  revert lo hi k. induction input as [|c rest IH];
    intros lo hi k Hn Hk Hi; cbn [length] in Hi.
  - destruct (symbol_sim EOF_SYMBOL lo hi k Hn Hk)
      as (E & lo' & hi' & k' & Hn' & Hk' & Henc & Hgood & Hdec);
      [unfold EOF_SYMBOL; lia | lia |].
    pose proof (good_final (Z.to_nat k') lo' hi' Hn') as Hfin.
    destruct (Hgood _ Hfin) as [Hg Hw].
    exists E, lo', hi', k'. split; [exact Hn'|].
    split; [cbn [length]; lia|]. split; [exact Henc|].
    split; [exact Hg|].
    intros w st out n [Hwin _] Hlen. destruct n as [|n]; [simpl in Hlen; lia|].
    rewrite (decode_loop_step n lo hi w EOF_SYMBOL);
      [ rewrite app_nil_r; reflexivity
      | apply normalized_ordered; exact Hn
      | rewrite Hwin; exact Hw
      | pose proof (normalized_range _ _ Hn); lia
      | unfold EOF_SYMBOL; lia ].
  - pose proof (byte_to_Z_range c) as Hc.
    destruct (symbol_sim (byte_to_Z c) lo hi k Hn Hk)
      as (E1 & lo1 & hi1 & k1 & Hn1 & Hk1 & Henc1 & Hgood1 & Hdec1);
      [lia | lia |].
    destruct (IH lo1 hi1 k1 Hn1) as
      (E2 & lo' & hi' & k' & Hn' & Hk' & Henc2 & Hgood2 & Hdec2);
      [lia | lia |].
    destruct (Hgood1 _ Hgood2) as [Hg Hw].
    assert (Hne : (byte_to_Z c =? EOF_SYMBOL) = false)
      by (apply Z.eqb_neq; unfold EOF_SYMBOL; lia).
    exists (E1 ++ E2), lo', hi', k'. split; [exact Hn'|].
    split; [cbn [length]; lia|]. split; [|split].
    + intros st. cbn [encode_loop]. rewrite Henc1. cbn [bind].
      rewrite Hne, Henc2, push_bits_app. reflexivity.
    + rewrite <- app_assoc. exact Hg.
    + intros w st out n Hfol Hlen. rewrite <- app_assoc in Hfol.
      destruct n as [|n]; [simpl in Hlen; lia|].
      rewrite (decode_loop_step n lo hi w (byte_to_Z c));
        [ | apply normalized_ordered; exact Hn
          | destruct Hfol as [-> _]; exact Hw
          | pose proof (normalized_range _ _ Hn); lia
          | lia ].
      rewrite Hne.
      destruct (Hdec1 _ _ _ Hfol) as (w' & st' & Hd & Hfol').
      rewrite Hd. cbn [bind]. rewrite Z_to_byte_to_Z.
      rewrite (Hdec2 w' st' _ n Hfol') by (simpl in Hlen; lia).
      rewrite <- app_assoc. reflexivity.
Qed.

(** ** The bounds and the window at every step *)

Lemma bounds_inv_narrow (lo hi s : Z) :
  normalized lo hi -> 0 <= s <= 256 ->
  bounds_inv AtRenorm (narrow_lo CF_low T lo hi s)
    (narrow_hi CF_low T lo hi s).
Proof.
  intros Hn Hs. pose proof (normalized_ordered _ _ Hn) as Ho.
  pose proof (normalized_range _ _ Hn) as HR.
  destruct (narrow_bounds lo hi s Ho) as (B1 & B2 & B3); [lia | exact Hs |].
  split; [unfold ordered in *; lia | discriminate].
Qed.

Lemma enc_reach_inv (n : nat) (p : pc) (lo hi k : Z)
    (st : OutputBitStream.t) :
  enc_reach CF_low T n p lo hi k st ->
  bounds_inv p lo hi /\ is_int k /\
  (33 * Z.of_nat n < 2 ^ 31 ->
   0 <= k <= 33 * Z.of_nat n /\
   (p = AtRenorm ->
    exists j, 0 <= j /\ 2 ^ j <= hi - lo + 1 /\
              k + 33 <= 33 * Z.of_nat n + j)).
Proof.
  induction 1 as [|n lo hi k st s lo' hi' _ IH Hs Hnar
                  |n lo hi k st lo' hi' k' st' _ IH Hstep
                  |n lo hi k st _ IH Hstep].
  - split; [|split; [unfold is_int; lia|]].
    + split; [apply normalized_ordered|intros _]; apply initial_normalized.
    + intros _. split; [lia|discriminate].
  - destruct IH as ([Ho Hn] & Hint & Hcount). specialize (Hn eq_refl).
    unfold EOF_SYMBOL in Hs.
    rewrite enc_narrow_spec in Hnar
      by (try assumption; pose proof (normalized_range _ _ Hn); lia).
    injection Hnar as <- <-.
    pose proof (bounds_inv_narrow lo hi s Hn Hs) as Hb.
    split; [exact Hb|]. split; [exact Hint|]. intros Hbound.
    destruct (Hcount ltac:(lia)) as [Hk _].
    split; [lia|]. intros _. exists 0.
    destruct Hb as [Ho' _]. unfold ordered in Ho'.
    split; [lia|]. split; [simpl; lia | lia].
  - destruct IH as ([Ho _] & Hint & Hcount).
    assert (Hj32 : forall j, 0 <= j -> 2 ^ j <= hi - lo + 1 -> j <= 32).
    { intros j Hj0 HjR.
      destruct (Z.le_gt_cases j 32) as [|Hgt]; [assumption|].
      pose proof (Z.pow_lt_mono_r 2 32 j ltac:(lia) ltac:(lia) Hgt).
      unfold ordered in Ho. lia. }
    assert (Hpow : forall j, 0 <= j -> 2 ^ (j + 1) = 2 * 2 ^ j)
      by (intros j Hj; rewrite Z.pow_add_r by lia; lia).
    unfold enc_renorm_step in Hstep.
    destruct (renorm_cases lo hi Ho)
      as [(H1 & Hm & Hb & Hl & Hu)
         |[(H1 & Hm & Hb & Hl & Hu)
          |[(H1 & H2 & Hm & Hun & Hl & Hu)|(Hn & Hm & Hun)]]];
      rewrite Hm in Hstep; try rewrite Hun in Hstep;
      try discriminate; injection Hstep as <- <- <- _;
      rewrite Hl, Hu;
      (split; [split; [unfold ordered in *; lia|discriminate]|]);
      (split; [try apply wrap_int_range; unfold is_int; lia|]);
      intros Hbound; destruct (Hcount Hbound) as [Hk Hj];
      destruct (Hj eq_refl) as (j & Hj0 & HjR & Hjk);
      pose proof (Hj32 j Hj0 HjR); pose proof (Hpow j Hj0);
      rewrite ?wrap_int_small by (unfold is_int; lia);
      (split; [lia|]); intros _; exists (j + 1);
      (split; [lia|]); (split; [lia|]); lia.
  - destruct IH as ([Ho _] & Hint & Hcount).
    split; [|split; [exact Hint|]].
    + split; [exact Ho|intros _].
      unfold enc_renorm_step in Hstep.
      destruct (renorm_cases lo hi Ho)
        as [(H1 & Hm & Hb & Hl & Hu)
           |[(H1 & Hm & Hb & Hl & Hu)
            |[(H1 & H2 & Hm & Hun & Hl & Hu)|(Hn & Hm & Hun)]]];
        rewrite Hm in Hstep; try rewrite Hun in Hstep;
        try discriminate; exact Hn.
    + intros Hbound. destruct (Hcount Hbound) as [Hk _].
      split; [exact Hk|discriminate].
Qed.

Lemma find_symbol_inv (lo hi w s : Z) :
  ordered lo hi -> lo <= w <= hi ->
  find_symbol CF_low (length CF_low) 0 (scaled_symbol T lo hi w) = Some s ->
  0 <= s <= 256 /\
  cf CF_low s <= scaled_of T lo hi w < cf CF_low (s + 1) /\
  narrow_lo CF_low T lo hi s <= w <= narrow_hi CF_low T lo hi s.
Proof.
  intros Ho Hw Hf. rewrite scaled_symbol_spec in Hf by assumption.
  destruct (cf_locate (scaled_of T lo hi w)) as (s0 & Hs0 & Hx);
    [apply scaled_range; assumption|].
  rewrite (find_symbol_spec s0) in Hf by assumption.
  injection Hf as <-. split; [exact Hs0|]. split; [exact Hx|].
  apply symbol_in_scaled; assumption.
Qed.

Lemma dec_reach_inv (p : pc) (lo hi w : Z) (st : InputBitStream.t) :
  dec_reach CF_low T p lo hi w st ->
  bounds_inv p lo hi /\ lo <= w <= hi /\ bit_ok st.
Proof.
  induction 1 as [input w st Hr
                 |lo hi w st s lo' hi' _ IH Hrange Hfind Hs Hnar
                 |lo hi w st lo' hi' w' st' _ IH Hstep
                 |lo hi w st _ IH Hstep].
  - destruct (read_window_ok 32 0 (InputBitStream.new input)) as [Hw Hst];
      [unfold bit_ok; simpl; lia | lia |].
    rewrite Hr in Hw, Hst. cbn [fst snd] in *.
    split; [|split; [|exact Hst]].
    + split; [apply normalized_ordered|intros _]; apply initial_normalized.
    + change (wrap32 (-1)) with (2 ^ 32 - 1). lia.
  - destruct IH as ([Ho Hn] & Hw & Hst). specialize (Hn eq_refl).
    destruct (find_symbol_inv lo hi w s Ho Hw Hfind) as (Hs' & _ & Hin).
    rewrite dec_narrow_spec in Hnar
      by (try assumption; pose proof (normalized_range _ _ Hn); lia).
    injection Hnar as <- <-.
    split; [apply bounds_inv_narrow; assumption|]. split; assumption.
  - destruct IH as ([Ho _] & Hw & Hst).
    destruct (read_bit_ok st Hst) as [Hb Hst'].
    unfold dec_renorm_step in Hstep.
    destruct (InputBitStream.read_bit st) as [b st0]. cbn [fst snd] in *.
    unfold bounds_inv.
    destruct (renorm_cases lo hi Ho)
      as [(H1 & Hm & _ & Hl & Hu)
         |[(H1 & Hm & _ & Hl & Hu)
          |[(H1 & H2 & Hm & Hun & Hl & Hu)|(Hn & Hm & Hun)]]];
      rewrite Hm in Hstep; try rewrite Hun in Hstep;
      try discriminate; injection Hstep as <- <- <- <-;
      rewrite Hl, Hu; unfold ordered in *;
      rewrite ?shift_window_spec, ?splice_window_spec by lia;
      (split; [split; [lia|discriminate]|split; [zlia|exact Hst']]).
  - destruct IH as ([Ho _] & Hw & Hst).
    split; [|split; assumption]. split; [exact Ho|intros _].
    unfold dec_renorm_step in Hstep.
    destruct (InputBitStream.read_bit st) as [b st0].
    destruct (renorm_cases lo hi Ho)
      as [(H1 & Hm & Hb & Hl & Hu)
         |[(H1 & Hm & Hb & Hl & Hu)
          |[(H1 & H2 & Hm & Hun & Hl & Hu)|(Hn & Hm & Hun)]]];
      rewrite Hm in Hstep; try rewrite Hun in Hstep;
      try discriminate; exact Hn.
Qed.


End Model.


(** ** The table of the programs *)

Lemma the_model_length : length the_CF_low = 258%nat.
Proof. reflexivity. Qed.

Lemma the_model_zero : cf the_CF_low 0 = 0.
Proof. reflexivity. Qed.

Lemma the_model_total : cf the_CF_low 257 = the_total.
Proof. reflexivity. Qed.

Lemma the_model_small : the_total <= 2 ^ 30.
Proof. unfold the_total. lia. Qed.

Ltac model_facts :=
  first [ exact the_model_length | exact the_model_zero
        | exact the_model_incr | exact the_model_total
        | exact the_model_small ].

(** ** The window the decompressor starts from *)

Lemma pow2_le_31 (j : nat) : (j <= 31)%nat -> 2 ^ Z.of_nat j <= 2 ^ 31.
Proof. intros Hj. apply Z.pow_le_mono_r; lia. Qed.

Lemma read_window_spec (F : list bool) (n j : nat) (acc : Z)
    (st : InputBitStream.t) :
  (j + n <= 32)%nat -> acc = valT j F ->
  (forall i, InputBitStream.bit_at st i = Z.b2z (nth (j + i) F true)) ->
  exists st', read_window n acc st = (valT (j + n) F, st') /\
    forall i, InputBitStream.bit_at st' i
              = Z.b2z (nth (j + n + i) F true).
Proof.
  revert j acc st. induction n as [|n IH]; intros j acc st Hj Hacc Hst.
  - exists st. rewrite Nat.add_0_r. subst acc. split; [reflexivity|].
    exact Hst.
  - cbn [read_window]. rewrite read_bit_at.
    fold (shift_window acc (InputBitStream.bit_at st 0)).
    destruct (IH (S j) (shift_window acc (InputBitStream.bit_at st 0))
                (snd (InputBitStream.read_bit st))) as (st' & H1 & H2).
    + lia.
    + pose proof (valT_range j F) as HV. pose proof (pow2_le_31 j).
      rewrite shift_window_spec;
        [| lia | rewrite Hst; apply b2z_range].
      rewrite Hst, Nat.add_0_r, valT_snoc, Z.mod_small by lia.
      subst acc. reflexivity.
    + intros i. rewrite <- bit_at_succ, Hst. f_equal. f_equal. lia.
    + exists st'. replace (j + S n)%nat with (S j + n)%nat by lia.
      split; [exact H1 | exact H2].
Qed.

Lemma read_window_follows (F : list bool) (st : InputBitStream.t) :
  (forall i, InputBitStream.bit_at st i = Z.b2z (nth i F true)) ->
  exists w st', read_window 32 0 st = (w, st') /\ follows 0 F w st'.
Proof.
  intros Hst.
  destruct (read_window_spec F 32 0 0 st) as (st' & H1 & H2);
    [lia | reflexivity | exact Hst |].
  exists (valT 32 F), st'. split; [exact H1|].
  unfold follows. rewrite win_0. split; [reflexivity | exact H2].
Qed.

(** ** The flush *)

Lemma wf_out_new : wf_out OutputBitStream.new.
Proof. unfold wf_out. simpl. lia. Qed.

Lemma written_new : written OutputBitStream.new = [].
Proof. reflexivity. Qed.

Lemma flush_written (st : OutputBitStream.t) :
  wf_out st ->
  exists p, (p < 8)%nat /\
    bytes_bits (OutputBitStream.outfile (flush st))
      = written st ++ [false; true] ++ repeat true p /\
    (length (written st ++ [false; true] ++ repeat true p) mod 8 = 0)%nat.
Proof.
  intros Hst. unfold flush, OutputBitStream.flush_to_byte.
  change (OutputBitStream.push_bit 1 (OutputBitStream.push_bit 0 st))
    with (push_bits [false; true] st).
  destruct (push_bits_written [false; true] st Hst) as [H1 H2].
  destruct (pad_written 8 (push_bits [false; true] st) H1) as [H3 H4].
  { unfold wf_out in H1. lia. }
  set (st' := OutputBitStream.pad 8 1 (push_bits [false; true] st)) in *.
  set (p := Z.to_nat ((8 - OutputBitStream.numbits
                             (push_bits [false; true] st)) mod 8)) in *.
  assert (Hw : written st' = bytes_bits (OutputBitStream.outfile st')).
  { unfold written. rewrite H3. simpl. apply app_nil_r. }
  exists p. split; [subst p; zlia|].
  rewrite <- Hw, H4, H2, <- app_assoc. split; [reflexivity|].
  rewrite app_assoc, <- H2, <- H4, Hw.
  clear. induction (OutputBitStream.outfile st') as [|c l IH];
    [reflexivity|].
  rewrite bytes_bits_cons, length_app. unfold byte_bits.
  rewrite length_bits_from. rewrite <- Nat.Div0.add_mod_idemp_r, IH.
  reflexivity.
Qed.

(** ** Counting the passes of the compressor *)

Lemma length_push_prefix (b : bool) (k : Z) (E : list bool) :
  Z.of_nat (length ((b :: repeat (negb b) (Z.to_nat k)) ++ E))
    = 1 + Z.max 0 k + Z.of_nat (length E).
Proof.
  rewrite length_app. cbn [length]. rewrite repeat_length. lia.
Qed.

Lemma wrap_int_succ (k : Z) :
  is_int k -> Z.max 0 (wrap_int (k + 1)) <= Z.max 0 k + 1.
Proof. unfold is_int, wrap_int. intros Hk. zlia. Qed.

(** The inner loop of the compressor from bounds in order, whatever the
    counter holds: it ends after [p] passes, fewer than the fuel, each of
    which doubles the interval; the bits pushed and the bits pending grow
    by at most [p], and by exactly [p] when the counter does not
    overflow. *)
Lemma enc_renorm_count (fuel : nat) (lo hi k : Z) :
  ordered lo hi -> is_int k ->
  2 ^ 32 < (hi - lo + 1) * 2 ^ Z.of_nat fuel ->
  exists E lo' hi' k' p,
    (p < fuel)%nat /\ normalized lo' hi' /\ is_int k' /\
    (forall st, enc_passes p lo hi k st
                = Some (lo', hi', k', push_bits E st)) /\
    (forall st, enc_renorm fuel lo hi k st
                = Some (lo', hi', k', push_bits E st)) /\
    hi' - lo' + 1 = 2 ^ Z.of_nat p * (hi - lo + 1) /\
    Z.of_nat (length E) + Z.max 0 k' <= Z.max 0 k + Z.of_nat p /\
    (0 <= k -> k + Z.of_nat p < 2 ^ 31 ->
     0 <= k' /\ Z.of_nat (length E) + k' = k + Z.of_nat p).
Proof.
  revert lo hi k. induction fuel as [|fuel IH]; intros lo hi k Ho Hk Hf.
  - unfold ordered in Ho. simpl in Hf. lia.
  - rewrite pow2_succ in Hf.
    assert (Hshift : forall b : bool,
      msb_match lo hi = true -> Z.shiftr hi 31 = Z.b2z b ->
      ordered (shift_lower lo) (shift_upper hi) ->
      shift_upper hi - shift_lower lo + 1 = 2 * (hi - lo + 1) ->
      exists E lo' hi' k' p,
        (p < S fuel)%nat /\ normalized lo' hi' /\ is_int k' /\
        (forall st, enc_passes p lo hi k st
                    = Some (lo', hi', k', push_bits E st)) /\
        (forall st, enc_renorm (S fuel) lo hi k st
                    = Some (lo', hi', k', push_bits E st)) /\
        hi' - lo' + 1 = 2 ^ Z.of_nat p * (hi - lo + 1) /\
        Z.of_nat (length E) + Z.max 0 k' <= Z.max 0 k + Z.of_nat p /\
        (0 <= k -> k + Z.of_nat p < 2 ^ 31 ->
         0 <= k' /\ Z.of_nat (length E) + k' = k + Z.of_nat p)).
    { intros b Hm Hb Ho' Hw'.
      destruct (IH (shift_lower lo) (shift_upper hi) 0 Ho')
        as (E & lo' & hi' & k' & p & Hp & Hn & Hk' & Hpass & Henc & Hw
            & Hle & Heq);
        [unfold is_int; lia | lia |].
      exists ((b :: repeat (negb b) (Z.to_nat k)) ++ E), lo', hi', k', (S p).
      split; [lia|]. split; [exact Hn|]. split; [exact Hk'|].
      split; [|split; [|split; [|split]]].
      - intros st. cbn [enc_passes].
        rewrite (enc_renorm_step_shift b) by assumption.
        rewrite Hpass, push_bits_app. reflexivity.
      - intros st. cbn [enc_renorm].
        rewrite (enc_renorm_step_shift b) by assumption.
        rewrite Henc, push_bits_app. reflexivity.
      - rewrite Hw, Hw', pow2_succ. lia.
      - rewrite length_push_prefix. lia.
      - intros Hk0 Hb'. rewrite length_push_prefix.
        destruct Heq as [Hk'0 Heq]; lia. }
    destruct (renorm_cases lo hi Ho)
      as [(H1 & Hm & Hb & Hl & Hu)
         |[(H1 & Hm & Hb & Hl & Hu)
          |[(H1 & H2 & Hm & Hun & Hl & Hu)|(Hn & Hm & Hun)]]].
    + apply (Hshift false); try assumption;
        rewrite Hl, Hu; unfold ordered in *; lia.
    + apply (Hshift true); try assumption;
        rewrite Hl, Hu; unfold ordered in *; lia.
    + pose proof (wrap_int_succ k Hk) as Hsucc.
      destruct (IH (splice_lower lo) (splice_upper hi) (wrap_int (k + 1)))
        as (E & lo' & hi' & k' & p & Hp & Hn & Hk' & Hpass & Henc & Hw
            & Hle & Heq);
        [rewrite Hl, Hu; unfold ordered in *; lia | apply wrap_int_range
        | rewrite Hl, Hu; lia |].
      exists E, lo', hi', k', (S p).
      split; [lia|]. split; [exact Hn|]. split; [exact Hk'|].
      split; [|split; [|split; [|split]]].
      * intros st. cbn [enc_passes]. unfold enc_renorm_step.
        rewrite Hm, Hun. apply Hpass.
      * intros st. cbn [enc_renorm]. unfold enc_renorm_step.
        rewrite Hm, Hun. apply Henc.
      * rewrite Hw, Hl, Hu, pow2_succ. lia.
      * lia.
      * intros Hk0 Hb'.
        rewrite wrap_int_small in Heq by (unfold is_int; lia).
        destruct Heq as [Hk'0 Heq]; lia.
    + exists [], lo, hi, k, 0%nat.
      split; [lia|]. split; [exact Hn|]. split; [exact Hk|].
      split; [|split; [|split; [|split]]].
      * intros st. reflexivity.
      * intros st. cbn [enc_renorm]. unfold enc_renorm_step.
        rewrite Hm, Hun. reflexivity.
      * change (2 ^ Z.of_nat 0) with 1. lia.
      * cbn [length]. lia.
      * intros Hk0 _. cbn [length]. lia.
Qed.

Lemma the_model_weights (s : Z) :
  0 <= s <= 256 ->
  cf the_CF_low (s + 1) - cf the_CF_low s = 1 \/
  cf the_CF_low (s + 1) - cf the_CF_low s = 2 \/
  cf the_CF_low (s + 1) - cf the_CF_low s = 4.
Proof.
  intros Hs.
  pose proof (forall_below
                (fun s => let f := cf the_CF_low (s + 1) - cf the_CF_low s in
                          (f =? 1) || (f =? 2) || (f =? 4)) 257
                ltac:(vm_compute; reflexivity) s ltac:(lia)) as H.
  cbv beta zeta in H.
  apply orb_prop in H. destruct H as [H|H]; [apply orb_prop in H|].
  - destruct H as [H|H]; apply Z.eqb_eq in H; auto.
  - apply Z.eqb_eq in H. auto.
Qed.

Lemma small_powers (p : nat) :
  (p <= 10)%nat ->
  In (2 ^ Z.of_nat p) [1; 2; 4; 8; 16; 32; 64; 128; 256; 512; 1024].
Proof.
  intros Hp.
  do 11 (destruct p as [|p]; [vm_compute; tauto|]). lia.
Qed.

Lemma passes_5_10 (f : Z) (p : nat) :
  1 <= f <= 4 -> 128 <= f * 2 ^ Z.of_nat p <= 1024 -> (5 <= p <= 10)%nat.
Proof.
  intros Hf Hp. split.
  - destruct (Nat.le_gt_cases 5 p) as [|Hlt]; [assumption|].
    assert (2 ^ Z.of_nat p <= 2 ^ 4) by (apply Z.pow_le_mono_r; lia).
    nia.
  - destruct (Nat.le_gt_cases p 10) as [|Hgt]; [assumption|].
    assert (2 ^ 11 <= 2 ^ Z.of_nat p) by (apply Z.pow_le_mono_r; lia).
    nia.
Qed.

(** One symbol through the compressor, from the head of the outer loop. *)
Lemma enc_symbol_count (s lo hi k : Z) :
  normalized lo hi -> is_int k -> 0 <= s <= 256 ->
  exists E lo' hi' k' p,
    normalized lo' hi' /\ is_int k' /\
    (forall st, enc_passes p (narrow_lo the_CF_low the_total lo hi s)
                  (narrow_hi the_CF_low the_total lo hi s) k st
                = Some (lo', hi', k', push_bits E st)) /\
    (forall st, enc_symbol the_CF_low the_total s lo hi k st
                = Some (lo', hi', k', push_bits E st)) /\
    Z.of_nat (length E) + Z.max 0 k' <= Z.max 0 k + Z.of_nat p /\
    (0 <= k -> k + Z.of_nat p < 2 ^ 31 ->
     0 <= k' /\ Z.of_nat (length E) + k' = k + Z.of_nat p) /\
    128 <= (cf the_CF_low (s + 1) - cf the_CF_low s) * 2 ^ Z.of_nat p
        <= 1024 /\
    (5 <= p <= 10)%nat.
Proof.
  intros Hn Hk Hs.
  pose proof (normalized_ordered _ _ Hn) as Ho.
  pose proof (normalized_range _ _ Hn) as HR.
  pose proof the_model_small as Hsmall.
  assert (HT : the_total <= hi - lo + 1) by lia.
  destruct (narrow_bounds the_CF_low the_total the_model_length
              the_model_zero the_model_incr the_model_total
              lo hi s Ho HT Hs) as (B1 & B2 & B3).
  assert (Ho' : ordered (narrow_lo the_CF_low the_total lo hi s)
                        (narrow_hi the_CF_low the_total lo hi s))
    by (unfold ordered in *; lia).
  destruct (enc_renorm_count renorm_fuel _ _ k Ho' Hk
              (renorm_fuel_enough _ _ Ho'))
    as (E & lo' & hi' & k' & p & _ & Hn' & Hk' & Hpass & Henc & Hw & Hle
        & Heq).
  assert (Hp : 128 <= (cf the_CF_low (s + 1) - cf the_CF_low s)
                       * 2 ^ Z.of_nat p <= 1024).
  { pose proof (normalized_range _ _ Hn') as HR'.
    pose proof (normalized_ordered _ _ Hn') as Ho''.
    pose proof (cf_range the_CF_low the_total the_model_length
                  the_model_zero the_model_incr the_model_total s
                  ltac:(lia)) as Hcf.
    clear Hpass Henc Hle Heq.
    unfold narrow_lo, narrow_hi, the_total, ordered in *.
    set (c := cf the_CF_low s) in *.
    set (f := cf the_CF_low (s + 1) - c).
    assert (Hc' : cf the_CF_low (s + 1) = c + f) by (unfold f; lia).
    rewrite Hc' in *.
    assert (Hf : f = 1 \/ f = 2 \/ f = 4) by (apply the_model_weights; lia).
    clearbody f c. clear Hc' B1 B2 B3 Ho'.
    set (R := hi - lo + 1) in *.
    assert (Hmul : R * (c + f) = R * c + R * f) by lia.
    rewrite Hmul in Hw.
    set (X := R * c) in *. clearbody X.
    set (a := X / 335) in *. set (a' := (X + R * f) / 335) in *.
    assert (Ha : 335 * a <= X < 335 * a + 335)
      by (unfold a; zlia).
    assert (Ha' : 335 * a' <= X + R * f < 335 * a' + 335)
      by (unfold a'; zlia).
    clearbody a a'.
    assert (Hwidth : 2 ^ 21 < a' - a) by (destruct Hf as [->|[->| ->]]; lia).
    assert (Hp : (p <= 10)%nat).
    { destruct (Nat.le_gt_cases p 10) as [|Hgt]; [assumption|].
      assert (2 ^ 11 <= 2 ^ Z.of_nat p) by (apply Z.pow_le_mono_r; lia).
      nia. }
    pose proof (small_powers p Hp) as Hin.
    set (P := 2 ^ Z.of_nat p) in *. clearbody P.
    cbn [In] in Hin.
    repeat (destruct Hin as [<-|Hin]; [destruct Hf as [->|[->| ->]]; lia|]).
    contradiction. }
  exists E, lo', hi', k', p. split; [exact Hn'|]. split; [exact Hk'|].
  split; [exact Hpass|]. split; [|split; [exact Hle|split; [exact Heq|]]].
  - intros st. unfold enc_symbol.
    rewrite (enc_narrow_spec the_CF_low the_total the_model_length
               the_model_zero the_model_incr the_model_total
               the_model_small) by assumption.
    apply Henc.
  - split; [exact Hp|].
    apply (passes_5_10 (cf the_CF_low (s + 1) - cf the_CF_low s) p);
      [|exact Hp].
    pose proof (the_model_weights s Hs). lia.
Qed.

(** The whole input through the compressor, whatever its length. *)
Lemma encode_loop_count (input : list byte) (lo hi k : Z) :
  normalized lo hi -> is_int k ->
  exists E lo' hi' k' P,
    is_int k' /\
    (forall st, encode_loop the_CF_low the_total input lo hi k st
                = Some (lo', hi', k', push_bits E st)) /\
    Z.of_nat (length E) + Z.max 0 k' <= Z.max 0 k + P /\
    5 * (Z.of_nat (length input) + 1) <= P
      <= 10 * (Z.of_nat (length input) + 1).
Proof.
  revert lo hi k. induction input as [|c rest IH]; intros lo hi k Hn Hk.
  - destruct (enc_symbol_count EOF_SYMBOL lo hi k Hn Hk)
      as (E & lo' & hi' & k' & p & Hn' & Hk' & _ & Henc & Hle & _ & _ & Hp);
      [unfold EOF_SYMBOL; lia|].
    exists E, lo', hi', k', (Z.of_nat p).
    split; [exact Hk'|]. split; [exact Henc|]. split; [exact Hle|].
    cbn [length]. lia.
  - pose proof (byte_to_Z_range c) as Hcr.
    destruct (enc_symbol_count (byte_to_Z c) lo hi k Hn Hk)
      as (E1 & lo1 & hi1 & k1 & p & Hn1 & Hk1 & _ & Henc1 & Hle1 & _ & _
          & Hp);
      [lia|].
    destruct (IH lo1 hi1 k1 Hn1 Hk1)
      as (E2 & lo' & hi' & k' & P & Hk' & Henc2 & Hle2 & HP).
    assert (Hne : (byte_to_Z c =? EOF_SYMBOL) = false)
      by (apply Z.eqb_neq; unfold EOF_SYMBOL; lia).
    exists (E1 ++ E2), lo', hi', k', (Z.of_nat p + P).
    split; [exact Hk'|]. split; [|split].
    + intros st. cbn [encode_loop]. rewrite Henc1. cbn [bind].
      rewrite Hne, Henc2, push_bits_app. reflexivity.
    + rewrite length_app. lia.
    + cbn [length]. lia.
Qed.

(** The compressor on any input: it returns, and its output is the bits
    the loops pushed, then 0 and 1, then fewer than eight 1s. *)
Lemma compress_any (input : list byte) :
  exists E lo hi k p,
    encode_loop the_CF_low the_total input 0 (wrap32 (-1)) 0
      OutputBitStream.new
      = Some (lo, hi, k, push_bits E OutputBitStream.new) /\
    arith_compress input
      = Some (OutputBitStream.outfile
                (flush (push_bits E OutputBitStream.new))) /\
    (p < 8)%nat /\
    bytes_bits (OutputBitStream.outfile
                  (flush (push_bits E OutputBitStream.new)))
      = E ++ [false; true] ++ repeat true p /\
    Z.of_nat (length E) <= 10 * (Z.of_nat (length input) + 1).
Proof.
  destruct (encode_loop_count input 0 (wrap32 (-1)) 0 initial_normalized)
    as (E & lo & hi & k & P & Hk & Henc & Hle & HP);
    [unfold is_int; lia|].
  destruct (push_bits_written E OutputBitStream.new wf_out_new)
    as [Hwf Hwr].
  destruct (flush_written (push_bits E OutputBitStream.new) Hwf)
    as (p & Hp & Hbits & _).
  rewrite Hwr, written_new in Hbits. cbn [app] in Hbits.
  exists E, lo, hi, k, p. split; [apply Henc|].
  split; [|split; [exact Hp|split; [exact Hbits|lia]]].
  unfold arith_compress. rewrite build_model_eq. cbn [bind].
  unfold encode. rewrite Henc. reflexivity.
Qed.

(** ** Round trip *)

Lemma compress_bits (input : list byte) :
  33 * (Z.of_nat (length input) + 1) < 2 ^ 31 ->
  exists E lo hi k p,
    encode_loop the_CF_low the_total input 0 (wrap32 (-1)) 0
      OutputBitStream.new
      = Some (lo, hi, k, push_bits E OutputBitStream.new) /\
    0 <= k <= 33 * (Z.of_nat (length input) + 1) /\
    arith_compress input
      = Some (OutputBitStream.outfile
                (flush (push_bits E OutputBitStream.new))) /\
    (p < 8)%nat /\
    bytes_bits (OutputBitStream.outfile
                  (flush (push_bits E OutputBitStream.new)))
      = E ++ [false; true] ++ repeat true p /\
    forall w st out n,
      follows 0 (E ++ [false; true]) w st -> (length input < n)%nat ->
      decode_loop the_CF_low the_total n 0 (wrap32 (-1)) w st out
        = Some (out ++ input).
Proof.
  intros Hlen.
  destruct (loop_sim the_CF_low the_total the_model_length the_model_zero
              the_model_incr the_model_total the_model_small
              input 0 (wrap32 (-1)) 0 initial_normalized)
    as (E & lo & hi & k & Hn & Hk & Henc & Hgood & Hdec); [lia | lia |].
  destruct (push_bits_written E OutputBitStream.new wf_out_new)
    as [Hwf Hwr].
  destruct (flush_written (push_bits E OutputBitStream.new) Hwf)
    as (p & Hp & Hbits & _).
  rewrite Hwr, written_new in Hbits. cbn [app] in Hbits.
  exists E, lo, hi, k, p. split; [apply Henc|]. split; [lia|].
  split; [|split; [exact Hp|split; [exact Hbits|exact Hdec]]].
  unfold arith_compress. rewrite build_model_eq. cbn [bind].
  unfold encode. rewrite Henc. reflexivity.
Qed.

Lemma decompress_compressed (input : list byte) (E : list bool) (p n : nat)
    (c : list byte) :
  bytes_bits c = E ++ [false; true] ++ repeat true p ->
  (forall w st out n,
      follows 0 (E ++ [false; true]) w st -> (length input < n)%nat ->
      decode_loop the_CF_low the_total n 0 (wrap32 (-1)) w st out
        = Some (out ++ input)) ->
  (length input < n)%nat ->
  arith_decompress n c = Some input.
Proof.
  intros Hbits Hdec Hn.
  unfold arith_decompress. rewrite build_model_eq. cbn [bind].
  unfold decode.
  destruct (read_window_follows (E ++ [false; true])
              (InputBitStream.new c)) as (w & st & Hr & Hf).
  { intros i. rewrite (bit_at_new c (E ++ [false]) p).
    - rewrite <- app_assoc. reflexivity.
    - rewrite Hbits, <- app_assoc. reflexivity. }
  rewrite Hr. rewrite (Hdec w st [] n Hf Hn). reflexivity.
Qed.

Lemma reads_done (n : nat) (s : InputBitStream.t) :
  InputBitStream.done s = true -> InputBitStream.numbits s = 0 ->
  InputBitStream.reads n s = s.
Proof.
  intros Hd Hn. induction n as [|n IH]; [reflexivity|].
  cbn [InputBitStream.reads]. rewrite read_bit_done by assumption.
  exact IH.
Qed.

(** ** The programs stay inside the reachable states *)

Lemma enc_renorm_reach (CF_low : list Z) (T : Z) (fuel n : nat)
    (lo hi k : Z) (st : OutputBitStream.t)
    (lo' hi' k' : Z) (st' : OutputBitStream.t) :
  enc_reach CF_low T n AtRenorm lo hi k st ->
  enc_renorm fuel lo hi k st = Some (lo', hi', k', st') ->
  enc_reach CF_low T n AtSymbol lo' hi' k' st'.
Proof.
  revert lo hi k st. induction fuel as [|fuel IH]; intros lo hi k st Hr He;
    [discriminate|].
  cbn [enc_renorm] in He.
  destruct (enc_renorm_step lo hi k st) as [[[[l u] c] s]|] eqn:Hstep.
  - apply (IH l u c s); [|exact He].
    apply (enc_pass _ _ _ _ _ _ _ _ _ _ _ Hr). exact Hstep.
  - injection He as <- <- <- <-. apply enc_break; assumption.
Qed.

Lemma encode_loop_reach (CF_low : list Z) (T : Z) (input : list byte)
    (n : nat) (lo hi k : Z) (st : OutputBitStream.t)
    (lo' hi' k' : Z) (st' : OutputBitStream.t) :
  enc_reach CF_low T n AtSymbol lo hi k st ->
  encode_loop CF_low T input lo hi k st = Some (lo', hi', k', st') ->
  enc_reach CF_low T (n + length input + 1) AtSymbol lo' hi' k' st'.
Proof.
  assert (Hsym : forall s n lo hi k st lo' hi' k' st',
    0 <= s <= EOF_SYMBOL ->
    enc_reach CF_low T n AtSymbol lo hi k st ->
    enc_symbol CF_low T s lo hi k st = Some (lo', hi', k', st') ->
    enc_reach CF_low T (S n) AtSymbol lo' hi' k' st').
  { clear. intros s n lo hi k st lo' hi' k' st' Hs Hr He.
    unfold enc_symbol in He.
    destruct (enc_narrow CF_low T lo hi s) as [[l u]|] eqn:Hn;
      [|discriminate].
    cbn [bind] in He.
    apply (enc_renorm_reach CF_low T renorm_fuel (S n) l u k st);
      [|exact He].
    apply (enc_take _ _ _ _ _ _ _ _ _ _ Hr Hs Hn). }
  revert n lo hi k st. induction input as [|c rest IH];
    intros n lo hi k st Hr He; cbn [encode_loop] in He.
  - cbn [length]. replace (n + 0 + 1)%nat with (S n) by lia.
    apply (Hsym EOF_SYMBOL n lo hi k st); [unfold EOF_SYMBOL; lia | | ];
      assumption.
  - destruct (enc_symbol CF_low T (byte_to_Z c) lo hi k st)
      as [[[[l u] c0] s]|] eqn:Hs; [|discriminate].
    cbn [bind] in He.
    assert (Hr' : enc_reach CF_low T (S n) AtSymbol l u c0 s).
    { apply (Hsym (byte_to_Z c) n lo hi k st); try assumption.
      pose proof (byte_to_Z_range c). unfold EOF_SYMBOL. lia. }
    pose proof (byte_to_Z_range c) as Hc.
    replace (byte_to_Z c =? EOF_SYMBOL) with false in He
      by (symmetry; apply Z.eqb_neq; unfold EOF_SYMBOL; lia).
    cbn [length]. replace (n + S (length rest) + 1)%nat
      with (S n + length rest + 1)%nat by lia.
    apply (IH (S n) l u c0 s); assumption.
Qed.

Lemma dec_renorm_reach (CF_low : list Z) (T : Z) (fuel : nat)
    (lo hi w : Z) (st : InputBitStream.t)
    (lo' hi' w' : Z) (st' : InputBitStream.t) :
  dec_reach CF_low T AtRenorm lo hi w st ->
  dec_renorm fuel lo hi w st = Some (lo', hi', w', st') ->
  dec_reach CF_low T AtSymbol lo' hi' w' st'.
Proof.
  revert lo hi w st. induction fuel as [|fuel IH]; intros lo hi w st Hr He;
    [discriminate|].
  cbn [dec_renorm] in He.
  destruct (dec_renorm_step lo hi w st) as [[[[l u] c] s]|] eqn:Hstep.
  - apply (IH l u c s); [|exact He]. apply (dec_pass _ _ _ _ _ _ _ _ _ _ Hr).
    exact Hstep.
  - injection He as <- <- <- <-. apply dec_break; assumption.
Qed.

Lemma decode_loop_reach (CF_low : list Z) (T : Z) (n : nat)
    (lo hi w : Z) (st : InputBitStream.t) (out : list byte) :
  dec_reach CF_low T AtSymbol lo hi w st ->
  decode_loop CF_low T (S n) lo hi w st out = None \/
  decode_loop CF_low T (S n) lo hi w st out = Some out \/
  exists s lo' hi' w' st',
    dec_reach CF_low T AtSymbol lo' hi' w' st' /\
    decode_loop CF_low T (S n) lo hi w st out
    = decode_loop CF_low T n lo' hi' w' st' (out ++ [Z_to_byte s]).
Proof.
  intros Hr. cbn [decode_loop].
  destruct (Z.eqb_spec (dec_range lo hi) 0) as [E|E]; [left; reflexivity|].
  destruct (find_symbol CF_low (length CF_low) 0 (scaled_symbol T lo hi w))
    as [s|] eqn:Hf; [|left; reflexivity].
  cbn [bind].
  destruct (Z.eqb_spec s EOF_SYMBOL) as [Es|Es];
    [right; left; reflexivity|].
  destruct (dec_narrow CF_low T lo hi s) as [[l u]|] eqn:Hn;
    [|left; reflexivity].
  cbn [bind].
  destruct (dec_renorm renorm_fuel l u w st) as [[[[l' u'] w'] st']|] eqn:Hd;
    [|left; reflexivity].
  cbn [bind]. right. right. exists s, l', u', w', st'.
  split; [|reflexivity].
  apply (dec_renorm_reach CF_low T renorm_fuel l u w st); [|exact Hd].
  apply (dec_take CF_low T lo hi w st s l u); assumption.
Qed.

Lemma narrow_same (CF_low : list Z) (T lo hi s : Z) :
  enc_narrow CF_low T lo hi s = dec_narrow CF_low T lo hi s.
Proof.
  unfold enc_narrow, dec_narrow, dec_range, wrap64.
  destruct (T =? 0); [reflexivity|].
  rewrite Zminus_mod_idemp_l, Zplus_mod_idemp_l.
  replace (hi + 1 - lo) with (hi - lo + 1) by lia. reflexivity.
Qed.

Lemma enc_renorm_total (lo hi k : Z) (st : OutputBitStream.t) :
  ordered lo hi -> is_int k ->
  exists lo' hi' k' st',
    enc_renorm renorm_fuel lo hi k st = Some (lo', hi', k', st') /\
    normalized lo' hi'.
Proof.
  intros Ho Hk.
  destruct (enc_renorm_count renorm_fuel lo hi k Ho Hk
              (renorm_fuel_enough _ _ Ho))
    as (E & lo' & hi' & k' & p & _ & Hn & _ & _ & Henc & _).
  exists lo', hi', k', (push_bits E st). split; [apply Henc | exact Hn].
Qed.

Lemma enc_renorm_passes (fuel : nat) (lo hi k : Z)
    (st : OutputBitStream.t) (r : Z * Z * Z * OutputBitStream.t) :
  enc_renorm fuel lo hi k st = Some r ->
  exists n, (n < fuel)%nat /\ enc_passes n lo hi k st = Some r.
Proof.
  revert lo hi k st. induction fuel as [|fuel IH]; intros lo hi k st He;
    [discriminate|].
  cbn [enc_renorm] in He.
  destruct (enc_renorm_step lo hi k st) as [[[[l u] c] s]|] eqn:Hstep.
  - destruct (IH l u c s He) as (n & Hn & Hp).
    exists (S n). split; [lia|]. cbn [enc_passes]. rewrite Hstep. exact Hp.
  - exists 0%nat. split; [lia|]. exact He.
Qed.

Lemma dec_renorm_passes (fuel : nat) (lo hi w : Z)
    (st : InputBitStream.t) (r : Z * Z * Z * InputBitStream.t) :
  dec_renorm fuel lo hi w st = Some r ->
  exists n, (n < fuel)%nat /\ dec_passes n lo hi w st = Some r.
Proof.
  revert lo hi w st. induction fuel as [|fuel IH]; intros lo hi w st He;
    [discriminate|].
  cbn [dec_renorm] in He.
  destruct (dec_renorm_step lo hi w st) as [[[[l u] c] s]|] eqn:Hstep.
  - destruct (IH l u c s He) as (n & Hn & Hp).
    exists (S n). split; [lia|]. cbn [dec_passes]. rewrite Hstep. exact Hp.
  - exists 0%nat. split; [lia|]. exact He.
Qed.

Lemma dec_renorm_total (lo hi w : Z) (st : InputBitStream.t) :
  ordered lo hi -> 0 <= w < 2 ^ 32 -> bit_ok st ->
  exists lo' hi' w' st',
    dec_renorm renorm_fuel lo hi w st = Some (lo', hi', w', st') /\
    normalized lo' hi'.
Proof.
  intros Ho. generalize (renorm_fuel_enough _ _ Ho).
  generalize renorm_fuel as fuel. intros fuel. revert lo hi w st Ho.
  induction fuel as [|fuel IH]; intros lo hi w st Ho Hf Hw Hst.
  - unfold ordered in Ho. simpl in Hf. lia.
  - rewrite pow2_succ in Hf. cbn [dec_renorm]. unfold dec_renorm_step.
    destruct (read_bit_ok st Hst) as [Hb Hst'].
    destruct (InputBitStream.read_bit st) as [b st0]. cbn [fst snd] in *.
    destruct (renorm_cases lo hi Ho)
      as [(H1 & Hm & _ & Hl & Hu)
         |[(H1 & Hm & _ & Hl & Hu)
          |[(H1 & H2 & Hm & Hun & Hl & Hu)|(Hn & Hm & Hun)]]];
      rewrite Hm; try rewrite Hun.
    + apply IH; [rewrite Hl, Hu; unfold ordered in *; lia
                | rewrite Hl, Hu; lia
                | rewrite shift_window_spec by lia; zlia | exact Hst'].
    + apply IH; [rewrite Hl, Hu; unfold ordered in *; lia
                | rewrite Hl, Hu; lia
                | rewrite shift_window_spec by lia; zlia | exact Hst'].
    + apply IH; [rewrite Hl, Hu; unfold ordered in *; lia
                | rewrite Hl, Hu; lia
                | rewrite splice_window_spec by lia; zlia | exact Hst'].
    + exists lo, hi, w, st. split; [reflexivity | exact Hn].
Qed.

(** The counter of pending underflow bits, an [int] in the source: at
    every head of a loop it is at most 33 per symbol taken so far, so it
    has not overflowed while [33 * n < 2^31] for [n] symbols taken. *)
Lemma underflow_counter_bound (n : nat) (p : pc) (lo hi k : Z)
    (st : OutputBitStream.t) :
  enc_reach the_CF_low the_total n p lo hi k st ->
  33 * Z.of_nat n < 2 ^ 31 ->
  0 <= k <= 33 * Z.of_nat n.
Proof.
  intros Hr Hn.
  destruct (enc_reach_inv the_CF_low the_total the_model_length
              the_model_zero the_model_incr the_model_total
              the_model_small n p lo hi k st Hr) as (_ & _ & Hk).
  apply Hk. exact Hn.
Qed.

(** ** Renormalization, bit by bit *)

Lemma top_bit_spec (x : Z) :
  0 <= x < 2 ^ 32 -> top_bit x = (2 ^ 31 <=? x).
Proof.
  intros Hx. unfold top_bit.
  pose proof (Z.testbit_spec' x 31 ltac:(lia)) as H.
  destruct (Z.leb_spec (2 ^ 31) x), (Z.testbit x 31); cbn [Z.b2z] in H;
    try reflexivity; zlia.
Qed.

Lemma underflow_bits (lo hi : Z) :
  underflow lo hi = second_bit lo && negb (second_bit hi).
Proof.
  unfold underflow, second_bit. rewrite !land_shiftr_testbit by lia.
  destruct (Z.testbit lo 30), (Z.testbit hi 30); reflexivity.
Qed.

Lemma shifted_in_spec (b : bool) (x : Z) :
  0 <= x < 2 ^ 32 -> shifted_in b x ((2 * x) mod 2 ^ 32 + Z.b2z b).
Proof.
  intros Hx. pose proof (b2z_range b) as Hb.
  replace ((2 * x) mod 2 ^ 32) with (2 * (x mod 2 ^ 31)) by zlia.
  unfold shifted_in. split; [zlia|]. split.
  - apply Z.testbit_0_r.
  - intros i Hi. replace i with (Z.succ (i - 1)) at 1 by lia.
    rewrite Z.testbit_succ_r by lia. apply Z.mod_pow2_bits_low. lia.
Qed.

Lemma spliced_in_spec (b : bool) (x : Z) :
  0 <= x < 2 ^ 32 ->
  spliced_in b x (x / 2 ^ 31 * 2 ^ 31 + 2 * (x mod 2 ^ 30) + Z.b2z b).
Proof.
  intros Hx. pose proof (b2z_range b) as Hb.
  assert (Hv : 0 <= 2 * (x mod 2 ^ 30) + Z.b2z b < 2 ^ 31) by zlia.
  assert (E : forall j, 0 <= j ->
    Z.testbit (x / 2 ^ 31 * 2 ^ 31 + 2 * (x mod 2 ^ 30) + Z.b2z b) j
    = if j <? 31 then Z.testbit (2 * (x mod 2 ^ 30) + Z.b2z b) j
      else Z.testbit (x / 2 ^ 31) (j - 31)).
  { intros j Hj. rewrite <- testbit_add_high by lia. f_equal. lia. }
  unfold spliced_in. split; [zlia|]. split; [|split].
  - rewrite E by lia. apply Z.testbit_0_r.
  - rewrite E by lia. cbn [Z.ltb Z.compare Pos.compare Pos.compare_cont].
    change (31 - 31) with 0. rewrite Z.div_pow2_bits by lia. reflexivity.
  - intros i Hi. rewrite E by lia.
    destruct (Z.ltb_spec i 31); [|lia].
    replace i with (Z.succ (i - 1)) at 1 by lia.
    rewrite Z.testbit_succ_r by lia. apply Z.mod_pow2_bits_low. lia.
Qed.

Lemma enc_renorm_stops (fuel : nat) (lo hi k : Z) (st : OutputBitStream.t)
    (lo' hi' k' : Z) (st' : OutputBitStream.t) :
  enc_renorm fuel lo hi k st = Some (lo', hi', k', st') ->
  enc_renorm_step lo' hi' k' st' = None.
Proof.
  revert lo hi k st. induction fuel as [|fuel IH]; intros lo hi k st He;
    [discriminate|].
  cbn [enc_renorm] in He.
  destruct (enc_renorm_step lo hi k st) as [[[[l u] c] s]|] eqn:Hstep.
  - apply (IH l u c s He).
  - injection He as <- <- <- <-. exact Hstep.
Qed.

Lemma dec_renorm_stops (fuel : nat) (lo hi w : Z) (st : InputBitStream.t)
    (lo' hi' w' : Z) (st' : InputBitStream.t) :
  dec_renorm fuel lo hi w st = Some (lo', hi', w', st') ->
  dec_renorm_step lo' hi' w' st' = None.
Proof.
  revert lo hi w st. induction fuel as [|fuel IH]; intros lo hi w st He;
    [discriminate|].
  cbn [dec_renorm] in He.
  destruct (dec_renorm_step lo hi w st) as [[[[l u] c] s]|] eqn:Hstep.
  - apply (IH l u c s He).
  - injection He as <- <- <- <-. exact Hstep.
Qed.

Lemma b2z_eqb_1 (bit : Z) : 0 <= bit <= 1 -> Z.b2z (bit =? 1) = bit.
Proof.
  intros Hb. destruct (Z.eqb_spec bit 1); cbn [Z.b2z]; lia.
Qed.

Lemma enc_pass_refines (lo hi k : Z) (st : OutputBitStream.t) :
  ordered lo hi -> - 2 ^ 31 <= k + 1 < 2 ^ 31 ->
  enc_pass_spec lo hi k st (enc_renorm_step lo hi k st).
Proof.
  intros Ho Hk. unfold enc_pass_spec.
  assert (Hlo : 0 <= lo < 2 ^ 32) by (unfold ordered in Ho; lia).
  assert (Hhi : 0 <= hi < 2 ^ 32) by (unfold ordered in Ho; lia).
  assert (Hle : lo <= hi) by (unfold ordered in Ho; lia).
  rewrite !top_bit_spec, <- underflow_bits by assumption.
  destruct (renorm_cases lo hi Ho)
    as [(H1 & Hm & Hb & Hl & Hu)
       |[(H1 & Hm & Hb & Hl & Hu)
        |[(H1 & H2 & Hm & Hun & Hl & Hu)|(Hn & Hm & Hun)]]].
  - replace (2 ^ 31 <=? lo) with false by (symmetry; apply Z.leb_gt; lia).
    replace (2 ^ 31 <=? hi) with false by (symmetry; apply Z.leb_gt; lia).
    cbn [Bool.eqb negb]. exists (shift_lower lo), (shift_upper hi).
    split; [apply (enc_renorm_step_shift false); assumption|].
    rewrite shift_lower_spec, shift_upper_spec by assumption.
    split; [|apply (shifted_in_spec true); assumption].
    rewrite <- (Z.add_0_r (_ mod _)).
    apply (shifted_in_spec false); assumption.
  - replace (2 ^ 31 <=? lo) with true by (symmetry; apply Z.leb_le; lia).
    replace (2 ^ 31 <=? hi) with true by (symmetry; apply Z.leb_le; lia).
    cbn [Bool.eqb negb]. exists (shift_lower lo), (shift_upper hi).
    split; [apply (enc_renorm_step_shift true); assumption|].
    rewrite shift_lower_spec, shift_upper_spec by assumption.
    split; [|apply (shifted_in_spec true); assumption].
    rewrite <- (Z.add_0_r (_ mod _)).
    apply (shifted_in_spec false); assumption.
  - replace (2 ^ 31 <=? lo) with false by (symmetry; apply Z.leb_gt; lia).
    replace (2 ^ 31 <=? hi) with true by (symmetry; apply Z.leb_le; lia).
    cbn [Bool.eqb]. rewrite Hun.
    exists (splice_lower lo), (splice_upper hi).
    split; [unfold enc_renorm_step;
            rewrite Hm, Hun, wrap_int_small by exact Hk; reflexivity|].
    rewrite Hl, Hu. split.
    + replace (2 * lo - 2 ^ 31)
        with (lo / 2 ^ 31 * 2 ^ 31 + 2 * (lo mod 2 ^ 30) + Z.b2z false)
        by (cbn [Z.b2z]; zlia).
      apply spliced_in_spec; assumption.
    + replace (2 * hi - 2 ^ 31 + 1)
        with (hi / 2 ^ 31 * 2 ^ 31 + 2 * (hi mod 2 ^ 30) + Z.b2z true)
        by (cbn [Z.b2z]; zlia).
      apply spliced_in_spec; assumption.
  - unfold normalized in Hn.
    replace (2 ^ 31 <=? lo) with false by (symmetry; apply Z.leb_gt; lia).
    replace (2 ^ 31 <=? hi) with true by (symmetry; apply Z.leb_le; lia).
    cbn [Bool.eqb]. rewrite Hun.
    unfold enc_renorm_step. rewrite Hm, Hun. reflexivity.
Qed.

Lemma dec_pass_refines (lo hi w : Z) (st : InputBitStream.t) :
  ordered lo hi -> 0 <= w < 2 ^ 32 -> bit_ok st ->
  dec_pass_spec lo hi w st (dec_renorm_step lo hi w st).
Proof.
  intros Ho Hw Hst. unfold dec_pass_spec, dec_renorm_step.
  assert (Hlo : 0 <= lo < 2 ^ 32) by (unfold ordered in Ho; lia).
  assert (Hhi : 0 <= hi < 2 ^ 32) by (unfold ordered in Ho; lia).
  destruct (read_bit_ok st Hst) as [Hb _].
  destruct (InputBitStream.read_bit st) as [bit st']. cbn [fst] in Hb.
  assert (Hle : lo <= hi) by (unfold ordered in Ho; lia).
  rewrite !top_bit_spec, <- underflow_bits by assumption.
  assert (Hsw : shifted_in (bit =? 1) w (shift_window w bit)).
  { rewrite shift_window_spec by assumption.
    rewrite <- (b2z_eqb_1 bit Hb) at 2. apply shifted_in_spec. exact Hw. }
  assert (Hpw : spliced_in (bit =? 1) w (splice_window w bit)).
  { rewrite splice_window_spec by assumption.
    rewrite <- (b2z_eqb_1 bit Hb) at 2. apply spliced_in_spec. exact Hw. }
  destruct (renorm_cases lo hi Ho)
    as [(H1 & Hm & _ & Hl & Hu)
       |[(H1 & Hm & _ & Hl & Hu)
        |[(H1 & H2 & Hm & Hun & Hl & Hu)|(Hn & Hm & Hun)]]].
  - replace (2 ^ 31 <=? lo) with false by (symmetry; apply Z.leb_gt; lia).
    replace (2 ^ 31 <=? hi) with false by (symmetry; apply Z.leb_gt; lia).
    cbn [Bool.eqb]. rewrite Hm.
    exists (shift_lower lo), (shift_upper hi), (shift_window w bit).
    split; [reflexivity|].
    rewrite shift_lower_spec, shift_upper_spec by assumption.
    split; [|split; [apply (shifted_in_spec true); assumption|exact Hsw]].
    rewrite <- (Z.add_0_r (_ mod _)).
    apply (shifted_in_spec false); assumption.
  - replace (2 ^ 31 <=? lo) with true by (symmetry; apply Z.leb_le; lia).
    replace (2 ^ 31 <=? hi) with true by (symmetry; apply Z.leb_le; lia).
    cbn [Bool.eqb]. rewrite Hm.
    exists (shift_lower lo), (shift_upper hi), (shift_window w bit).
    split; [reflexivity|].
    rewrite shift_lower_spec, shift_upper_spec by assumption.
    split; [|split; [apply (shifted_in_spec true); assumption|exact Hsw]].
    rewrite <- (Z.add_0_r (_ mod _)).
    apply (shifted_in_spec false); assumption.
  - replace (2 ^ 31 <=? lo) with false by (symmetry; apply Z.leb_gt; lia).
    replace (2 ^ 31 <=? hi) with true by (symmetry; apply Z.leb_le; lia).
    cbn [Bool.eqb]. rewrite Hm, Hun.
    exists (splice_lower lo), (splice_upper hi), (splice_window w bit).
    split; [reflexivity|]. rewrite Hl, Hu. split; [|split; [|exact Hpw]].
    + replace (2 * lo - 2 ^ 31)
        with (lo / 2 ^ 31 * 2 ^ 31 + 2 * (lo mod 2 ^ 30) + Z.b2z false)
        by (cbn [Z.b2z]; zlia).
      apply spliced_in_spec; assumption.
    + replace (2 * hi - 2 ^ 31 + 1)
        with (hi / 2 ^ 31 * 2 ^ 31 + 2 * (hi mod 2 ^ 30) + Z.b2z true)
        by (cbn [Z.b2z]; zlia).
      apply spliced_in_spec; assumption.
  - unfold normalized in Hn.
    replace (2 ^ 31 <=? lo) with false by (symmetry; apply Z.leb_gt; lia).
    replace (2 ^ 31 <=? hi) with true by (symmetry; apply Z.leb_le; lia).
    cbn [Bool.eqb]. rewrite Hm, Hun. reflexivity.
Qed.

Lemma normalized_neither (lo hi : Z) :
  normalized lo hi ->
  Bool.eqb (top_bit lo) (top_bit hi) = false /\
  second_bit lo && negb (second_bit hi) = false.
Proof.
  intros Hn. unfold normalized in Hn.
  rewrite !top_bit_spec, <- underflow_bits, underflow_spec by lia.
  replace (2 ^ 31 <=? lo) with false by (symmetry; apply Z.leb_gt; lia).
  replace (2 ^ 31 <=? hi) with true by (symmetry; apply Z.leb_le; lia).
  split; [reflexivity|].
  destruct (Z.leb_spec (2 ^ 30) lo), (Z.ltb_spec hi (2 ^ 31 + 2 ^ 30));
    try reflexivity; lia.
Qed.

(** ** Scenarios of the specification, run *)

Example hello_world_round_trip :
  (c <- arith_compress (list_byte_of_string "Hello, World!") ;;
   arith_decompress 14 c)
  = Some (list_byte_of_string "Hello, World!").
Proof. vm_compute. reflexivity. Qed.

Example high_bytes_round_trip :
  (c <- arith_compress (repeat "255"%byte 100) ;; arith_decompress 101 c)
  = Some (repeat "255"%byte 100).
Proof. vm_compute. reflexivity. Qed.

Example vowels_are_cheaper :
  match arith_compress (list_byte_of_string "AEIOUaeiou"),
        arith_compress (list_byte_of_string "0123456789") with
  | Some v, Some d => (length v <? length d)%nat
  | _, _ => false
  end = true.
Proof. vm_compute. reflexivity. Qed.

(** * The claims *)



(** C2, as stated, fails: symbol 91, the character after [Z], is not a
    letter and has weight 2. *)
Lemma weight_of_bracket :
  weight 91 = Some 2 /\ is_letter 91 = false /\ claimed_weight 91 = 1 /\
  weight 91 <> Some (claimed_weight 91).
Proof.
  split; [vm_compute; reflexivity|]. split; [vm_compute; reflexivity|].
  split; [vm_compute; reflexivity|]. vm_compute. discriminate.
Qed.

(** C2, amended.  Every symbol of the alphabet has weight 1, except weight
    2 for the symbols 65 to 122 (the letters and the six characters between
    [Z] and [a]) and weight 4 for the ten vowels. *)
Theorem weight_rule (s : Z) :
  0 <= s <= 256 -> weight s = Some (coded_weight s).
Proof.
  intros Hs.
  assert (H : (match weight s with
               | Some w => w =? coded_weight s
               | None => false
               end) = true).
  { apply (forall_below
             (fun s => match weight s with
                       | Some w => w =? coded_weight s
                       | None => false
                       end) 257); [vm_compute; reflexivity | lia]. }
  destruct (weight s) as [w|]; [|discriminate].
  apply Z.eqb_eq in H. congruence.
Qed.

Lemma weight_rule_witness :
  0 <= 91 <= 256 /\ weight 91 = Some (coded_weight 91).
Proof. split; [lia | apply (weight_rule 91); lia]. Defined.

(** C3.  Interval containment: in every state the compressor reaches at the
    head of either of its loops [lower_bound <= upper_bound]; in every state
    the decompressor reaches there, on any input, [lower_bound <=
    upper_bound] and [lower_bound <= window <= upper_bound], so in
    particular at the start of every symbol-decoding iteration. *)
Theorem interval_containment :
  (forall n p lo hi k st,
      enc_reach the_CF_low the_total n p lo hi k st -> lo <= hi) /\
  (forall p lo hi w st,
      dec_reach the_CF_low the_total p lo hi w st ->
      lo <= hi /\ lo <= w <= hi).
Proof.
  split.
  - intros n p lo hi k st Hr.
    destruct (enc_reach_inv the_CF_low the_total the_model_length
                the_model_zero the_model_incr the_model_total
                the_model_small n p lo hi k st Hr) as [[Ho _] _].
    unfold ordered in Ho. lia.
  - intros p lo hi w st Hr.
    destruct (dec_reach_inv the_CF_low the_total the_model_length
                the_model_zero the_model_incr the_model_total
                the_model_small p lo hi w st Hr) as ([Ho _] & Hw & _).
    unfold ordered in Ho. lia.
Qed.

Lemma interval_containment_witness :
  2134662850 <= 2185946039 /\
  (2134662850 <= 2185946039 /\ 2134662850 <= 2147745791 <= 2185946039).
Proof.
  split.
  - apply (proj1 interval_containment 1%nat AtRenorm
             2134662850 2185946039 1 OutputBitStream.new).
    apply (enc_pass _ _ 1 2141073249 2166714843 0 OutputBitStream.new).
    + apply (enc_take _ _ 0 0 (wrap32 (-1)) 0 OutputBitStream.new 108).
      * apply enc_start.
      * unfold EOF_SYMBOL. lia.
      * vm_compute. reflexivity.
    + vm_compute. reflexivity.
  - apply (proj2 interval_containment AtRenorm
             2134662850 2185946039 2147745791
             (snd (InputBitStream.read_bit
                     (snd (read_window 32 0
                             (InputBitStream.new
                                ["001"%byte; "128"%byte])))))).
    apply (dec_pass _ _ 2141073249 2166714843 2147614719
             (snd (read_window 32 0
                     (InputBitStream.new ["001"%byte; "128"%byte])))).
    + apply (dec_take _ _ 0 (wrap32 (-1)) 2147614719 _ 108).
      * apply (dec_start _ _ ["001"%byte; "128"%byte]).
        vm_compute. reflexivity.
      * vm_compute. discriminate.
      * vm_compute. reflexivity.
      * unfold EOF_SYMBOL. lia.
      * vm_compute. reflexivity.
    + vm_compute. reflexivity.
Defined.

(** C4.  Interval narrowing: from bounds as the outer loops hold them, for
    every symbol [s], both programs set [lower_bound] to [lower_bound +
    floor(current_range * low(s) / total)] and [upper_bound] to
    [lower_bound + floor(current_range * high(s) / total) - 1], where
    [current_range = upper_bound - lower_bound + 1] is at most [2^32] and its
    products with the cumulative frequencies stay below [2^64]; and the update
    of the compressor is that of the decompressor on all arguments. *)
Theorem interval_narrowing (lo hi s : Z) :
  normalized lo hi -> 0 <= s <= 256 ->
  let current_range := hi - lo + 1 in
  let low := cf the_CF_low s in
  let high := cf the_CF_low (s + 1) in
  enc_narrow the_CF_low the_total lo hi s
    = Some (lo + current_range * low / the_total,
            lo + current_range * high / the_total - 1) /\
  dec_narrow the_CF_low the_total lo hi s
    = Some (lo + current_range * low / the_total,
            lo + current_range * high / the_total - 1) /\
  at_ the_CF_low s = Some low /\ at_ the_CF_low (s + 1) = Some high /\
  wrap64 (wrap64 (hi + 1) - lo) = current_range /\
  0 < current_range <= 2 ^ 32 /\
  0 <= current_range * low <= current_range * high /\
  current_range * high < 2 ^ 64 /\
  (forall lo' hi' s',
      enc_narrow the_CF_low the_total lo' hi' s'
      = dec_narrow the_CF_low the_total lo' hi' s').
Proof.
  intros Hn Hs current_range low high.
  pose proof (normalized_ordered _ _ Hn) as Ho.
  pose proof (normalized_range _ _ Hn) as HR.
  pose proof (cf_range the_CF_low the_total the_model_length the_model_zero
                the_model_incr the_model_total s) as Hc.
  pose proof (cf_range the_CF_low the_total the_model_length the_model_zero
                the_model_incr the_model_total (s + 1)) as Hc'.
  pose proof (the_model_incr s Hs) as Hi.
  fold low in Hc, Hi. fold high in Hc', Hi.
  assert (HT : the_total <= hi - lo + 1) by (unfold the_total; lia).
  split; [|split].
  - apply (enc_narrow_spec the_CF_low the_total); try model_facts;
      assumption.
  - apply (dec_narrow_spec the_CF_low the_total); try model_facts;
      assumption.
  - split; [apply (at_cf the_CF_low the_model_length); lia|].
    split; [apply (at_cf the_CF_low the_model_length); lia|].
    split; [apply enc_range_spec; exact Ho|].
    unfold ordered, the_total in *. subst current_range.
    split; [lia|]. split; [nia|]. split; [nia|].
    intros lo' hi' s'. apply narrow_same.
Qed.

Lemma interval_narrowing_witness :
  enc_narrow the_CF_low the_total 0 (wrap32 (-1)) 65
  = Some (0 + (wrap32 (-1) - 0 + 1) * cf the_CF_low 65 / the_total,
          0 + (wrap32 (-1) - 0 + 1) * cf the_CF_low (65 + 1) / the_total
          - 1).
Proof.
  apply (interval_narrowing 0 (wrap32 (-1)) 65).
  - unfold normalized. change (wrap32 (-1)) with (2 ^ 32 - 1). lia.
  - lia.
Defined.

(** C5.  Renormalization, from bounds in order and a counter below
    [INT_MAX].  One pass of the compressor's inner loop: if the top bits of
    the bounds match it emits that bit and then [underflow_counter] copies
    of its complement, resets the counter, and shifts both bounds left, a 1
    entering [upper_bound] and a 0 entering [lower_bound]; otherwise, if the
    second bit of [lower_bound] is 1 and that of [upper_bound] is 0, it
    increments the counter and shifts both bounds left with their top bits
    kept and their second bits spliced out; otherwise it stops.  One pass
    of the decompressor's inner loop does the same to its bounds and moves
    the window the same way, the bit it has just read entering at the low
    end.  Each loop repeats its pass until neither case applies: what it
    returns is the state that [n] passes in a row lead to from the state
    it was given, for some [n] of at most 32, and in that state the next
    pass stops. *)
Theorem renormalization (lo hi k w : Z) (st : OutputBitStream.t)
    (ist : InputBitStream.t) :
  ordered lo hi -> 0 <= k < 2 ^ 31 - 1 -> 0 <= w < 2 ^ 32 -> bit_ok ist ->
  enc_pass_spec lo hi k st (enc_renorm_step lo hi k st) /\
  dec_pass_spec lo hi w ist (dec_renorm_step lo hi w ist) /\
  (exists n lo' hi' k' st',
      (n <= 32)%nat /\
      enc_passes n lo hi k st = Some (lo', hi', k', st') /\
      enc_renorm_step lo' hi' k' st' = None /\
      enc_renorm renorm_fuel lo hi k st = Some (lo', hi', k', st') /\
      Bool.eqb (top_bit lo') (top_bit hi') = false /\
      second_bit lo' && negb (second_bit hi') = false) /\
  (exists n lo' hi' w' ist',
      (n <= 32)%nat /\
      dec_passes n lo hi w ist = Some (lo', hi', w', ist') /\
      dec_renorm_step lo' hi' w' ist' = None /\
      dec_renorm renorm_fuel lo hi w ist = Some (lo', hi', w', ist') /\
      Bool.eqb (top_bit lo') (top_bit hi') = false /\
      second_bit lo' && negb (second_bit hi') = false).
Proof.
  intros Ho Hk Hw Hist.
  split; [apply enc_pass_refines; [exact Ho | lia]|].
  split; [apply dec_pass_refines; assumption|]. split.
  - destruct (enc_renorm_total lo hi k st Ho)
      as (lo' & hi' & k' & st' & He & Hn); [unfold is_int; lia|].
    destruct (enc_renorm_passes _ _ _ _ _ _ He) as (n & Hlt & Hp).
    exists n, lo', hi', k', st'.
    split; [unfold renorm_fuel in Hlt; lia|]. split; [exact Hp|].
    split; [exact (enc_renorm_stops _ _ _ _ _ _ _ _ _ He)|].
    split; [exact He|].
    apply normalized_neither. exact Hn.
  - destruct (dec_renorm_total lo hi w ist Ho Hw Hist)
      as (lo' & hi' & w' & ist' & He & Hn).
    destruct (dec_renorm_passes _ _ _ _ _ _ He) as (n & Hlt & Hp).
    exists n, lo', hi', w', ist'.
    split; [unfold renorm_fuel in Hlt; lia|]. split; [exact Hp|].
    split; [exact (dec_renorm_stops _ _ _ _ _ _ _ _ _ He)|].
    split; [exact He|].
    apply normalized_neither. exact Hn.
Qed.

Lemma renormalization_witness :
  exists n lo' hi' k' st',
    (n <= 32)%nat /\
    enc_passes n (2 ^ 30 + 7) (2 ^ 31 + 5) 3 OutputBitStream.new
      = Some (lo', hi', k', st') /\
    enc_renorm_step lo' hi' k' st' = None /\
    enc_renorm renorm_fuel (2 ^ 30 + 7) (2 ^ 31 + 5) 3 OutputBitStream.new
      = Some (lo', hi', k', st') /\
    Bool.eqb (top_bit lo') (top_bit hi') = false /\
    second_bit lo' && negb (second_bit hi') = false.
Proof.
  apply (renormalization (2 ^ 30 + 7) (2 ^ 31 + 5) 3 (2 ^ 31)
           OutputBitStream.new (InputBitStream.new ["a"%byte])).
  - unfold ordered. lia.
  - lia.
  - lia.
  - unfold bit_ok. simpl. lia.
Defined.

(** C6.  Symbol identification: from bounds as the outer loop holds them
    and a window between them, the decompressor computes [scaled =
    floor(((window - lower_bound + 1) * total - 1) / current_range)], its
    search returns the one symbol [s] with [CF[s] <= scaled < CF[s+1]], and
    the iteration stops with the bytes put out so far when [s] is the
    end-of-stream symbol, and otherwise puts out byte [s] and goes on. *)
Theorem symbol_identification (lo hi w : Z) (st : InputBitStream.t)
    (out : list byte) (n : nat) :
  normalized lo hi -> lo <= w <= hi ->
  let scaled := scaled_symbol the_total lo hi w in
  scaled = ((w - lo + 1) * the_total - 1) / (hi - lo + 1) /\
  exists s,
    find_symbol the_CF_low (length the_CF_low) 0 scaled = Some s /\
    0 <= s <= 256 /\
    cf the_CF_low s <= scaled < cf the_CF_low (s + 1) /\
    (forall s', 0 <= s' <= 256 ->
       cf the_CF_low s' <= scaled < cf the_CF_low (s' + 1) -> s' = s) /\
    (s = EOF_SYMBOL ->
       decode_loop the_CF_low the_total (S n) lo hi w st out = Some out) /\
    (s <> EOF_SYMBOL ->
       decode_loop the_CF_low the_total (S n) lo hi w st out
       = '(lo', hi') <- dec_narrow the_CF_low the_total lo hi s ;;
         '(lo', hi', w', st') <- dec_renorm renorm_fuel lo' hi' w st ;;
         decode_loop the_CF_low the_total n lo' hi' w' st'
           (out ++ [Z_to_byte s])).
Proof.
  intros Hn Hw scaled.
  pose proof (normalized_ordered _ _ Hn) as Ho.
  pose proof (normalized_range _ _ Hn) as HR.
  assert (HT : the_total <= hi - lo + 1) by (unfold the_total; lia).
  assert (Hsc : scaled = scaled_of the_total lo hi w).
  { apply (scaled_symbol_spec the_CF_low the_total); try model_facts;
      assumption. }
  split; [exact Hsc|].
  destruct (cf_locate the_CF_low the_total the_model_length the_model_zero
              the_model_total scaled) as (s & Hs & Hx).
  { rewrite Hsc. apply (scaled_range the_CF_low the_total);
      try model_facts; assumption. }
  assert (Hfind : find_symbol the_CF_low (length the_CF_low) 0 scaled
                  = Some s).
  { apply find_symbol_spec; try model_facts; assumption. }
  assert (Hin : narrow_lo the_CF_low the_total lo hi s <= w
                <= narrow_hi the_CF_low the_total lo hi s).
  { apply symbol_in_scaled; try model_facts; try assumption.
    rewrite <- Hsc. exact Hx. }
  pose proof (decode_loop_step the_CF_low the_total the_model_length
                the_model_zero the_model_incr the_model_total
                the_model_small n lo hi w s st out Ho Hin HT Hs) as Hstep.
  exists s. split; [exact Hfind|]. split; [exact Hs|]. split; [exact Hx|].
  split; [|split].
  - intros s' Hs' Hx'. symmetry.
    apply (cf_unique the_CF_low the_model_length the_model_incr s s' scaled);
      assumption.
  - intros ->. rewrite Hstep. reflexivity.
  - intros Hne. rewrite Hstep.
    replace (s =? EOF_SYMBOL) with false by (symmetry; apply Z.eqb_neq; lia).
    rewrite (dec_narrow_spec the_CF_low the_total) by
      (try model_facts; assumption).
    reflexivity.
Qed.

Lemma symbol_identification_witness :
  find_symbol the_CF_low (length the_CF_low) 0
    (scaled_symbol the_total 0 (wrap32 (-1)) (2 ^ 31)) = Some 108.
Proof.
  assert (Hn : normalized 0 (wrap32 (-1)))
    by (unfold normalized; change (wrap32 (-1)) with (2 ^ 32 - 1); lia).
  assert (Hw : 0 <= 2 ^ 31 <= wrap32 (-1))
    by (change (wrap32 (-1)) with (2 ^ 32 - 1); lia).
  destruct (symbol_identification 0 (wrap32 (-1)) (2 ^ 31)
              (InputBitStream.new []) [] 0 Hn Hw)
    as (_ & s & Hf & _).
  rewrite Hf. vm_compute in Hf. symmetry. exact Hf.
Defined.

(** C7.  Flush: after the outer loop has coded the end-of-stream symbol
    and left the sink in state [st], the output of the compressor is what
    [st] had taken, then the bits 0 and 1, then [p < 8] bits all equal to
    1, which fill the last byte. *)
Theorem flush_pads_with_ones (input : list byte) :
  exists lo hi k st p,
    encode_loop the_CF_low the_total input 0 (wrap32 (-1)) 0
      OutputBitStream.new = Some (lo, hi, k, st) /\
    arith_compress input = Some (OutputBitStream.outfile (flush st)) /\
    (p < 8)%nat /\
    bytes_bits (OutputBitStream.outfile (flush st))
      = written st ++ [false; true] ++ repeat true p /\
    (length (written st ++ [false; true] ++ repeat true p) mod 8 = 0)%nat.
Proof.
  destruct (compress_any input)
    as (E & lo & hi & k & p & Henc & Hc & _ & _ & _).
  destruct (push_bits_written E OutputBitStream.new wf_out_new)
    as [Hwf _].
  destruct (flush_written (push_bits E OutputBitStream.new) Hwf)
    as (q & Hq & Hbits & Hlen).
  exists lo, hi, k, (push_bits E OutputBitStream.new), q.
  repeat split; assumption.
Qed.

(** C8, as stated, fails: on the empty input the compressor writes two
    bytes, not the single byte that the flush bits alone fill. *)
Lemma empty_input_not_flush_only :
  arith_compress [] = Some ["255"%byte; "254"%byte] /\
  OutputBitStream.outfile (flush OutputBitStream.new) = ["254"%byte] /\
  arith_compress []
    <> Some (OutputBitStream.outfile (flush OutputBitStream.new)).
Proof.
  split; [vm_compute; reflexivity|].
  split; [vm_compute; reflexivity|].
  vm_compute. discriminate.
Qed.

(** C8, amended.  On the empty input the compressor emits the eight 1 bits
    that coding the end-of-stream symbol shifts out, then the flush bits 0
    and 1, then six 1 bits of padding: the bytes 255 and 254.  The
    decompressor returns the empty sequence from them. *)
Theorem empty_input :
  arith_compress [] = Some ["255"%byte; "254"%byte] /\
  bytes_bits ["255"%byte; "254"%byte]
    = repeat true 8 ++ [false; true] ++ repeat true 6 /\
  forall n, arith_decompress (S n) ["255"%byte; "254"%byte] = Some [].
Proof.
  split; [vm_compute; reflexivity|].
  split; [vm_compute; reflexivity|].
  intros n.
  destruct (compress_bits [] ltac:(simpl; lia))
    as (E & lo & hi & k & p & _ & _ & Hc & _ & Hbits & Hdec).
  assert (Hc' : arith_compress [] = Some ["255"%byte; "254"%byte])
    by (vm_compute; reflexivity).
  rewrite Hc in Hc'. injection Hc' as Hc'. rewrite Hc' in Hbits.
  apply (decompress_compressed [] E p (S n)); [exact Hbits|exact Hdec|].
  simpl. lia.
Qed.

(** C9.  Building the model aborts exactly when the total of the frequency
    table exceeds [0xFFFFFFFF]; the table of the fixed rule totals 335, so
    the model is always built. *)
Theorem precision_check :
  (forall frequencies,
      length frequencies = 257%nat -> Forall is_u32 frequencies ->
      (model_of frequencies = None <-> 0xffffffff < total_of frequencies))
  /\ build_frequencies = Some the_frequencies
  /\ total_of the_frequencies = 335
  /\ build_model = Some (the_CF_low, 335).
Proof.
  split; [|repeat split; vm_compute; reflexivity].
  intros frequencies Hlen Hu.
  destruct (compute_CF_total frequencies Hlen Hu) as (c & H1 & H2).
  unfold model_of. rewrite H1. cbn [bind]. rewrite H2. cbn [bind].
  destruct (Z.leb_spec (total_of frequencies) 0xffffffff) as [H|H].
  - split; [discriminate | lia].
  - split; [intros _; exact H | reflexivity].
Qed.

Lemma precision_check_witness :
  length (repeat (2 ^ 24) 257) = 257%nat /\
  Forall is_u32 (repeat (2 ^ 24) 257) /\
  model_of (repeat (2 ^ 24) 257) = None.
Proof.
  assert (Hlen : length (repeat (2 ^ 24) 257) = 257%nat)
    by apply repeat_length.
  assert (Hu : Forall is_u32 (repeat (2 ^ 24) 257)).
  { apply Forall_forall. intros x Hx. apply repeat_spec in Hx. subst x.
    unfold is_u32. lia. }
  split; [exact Hlen|]. split; [exact Hu|].
  apply (proj1 precision_check _ Hlen Hu). vm_compute. reflexivity.
Defined.

(** C10.  On an empty input the source returns 0 at every call, its
    [last_real_bit] stays at its initial 0, and the window the
    decompressor builds from the first 32 calls is 0. *)
Theorem empty_source_reads_zero :
  (forall n, InputBitStream.bit_at (InputBitStream.new []) n = 0) /\
  (forall n, InputBitStream.last_real_bit
               (InputBitStream.reads n (InputBitStream.new [])) = 0) /\
  fst (read_window 32 0 (InputBitStream.new [])) = 0.
Proof.
  split; [|split].
  - intros n.
    rewrite (bit_at_remaining []);
      [destruct n; reflexivity | unfold wf_in; simpl; lia | reflexivity].
  - intros [|n]; [reflexivity|].
    cbn [InputBitStream.reads].
    rewrite reads_done; reflexivity.
  - vm_compute. reflexivity.
Qed.


(** * Further properties of the code *)

(** ** The bit source, on any file *)

Lemma nth_bits_from (n r : nat) (from v : Z) (d : bool) :
  (r < n)%nat -> nth r (bits_from n from v) d = Z.testbit v (from + Z.of_nat r).
Proof.
  revert r from. induction n as [|n IH]; intros r from Hr; [lia|].
  rewrite bits_from_S. destruct r as [|r].
  - simpl. rewrite Z.add_0_r. reflexivity.
  - cbn [nth]. rewrite IH by lia. f_equal. lia.
Qed.

Lemma length_bytes_bits (bs : list byte) :
  length (bytes_bits bs) = (8 * length bs)%nat.
Proof.
  induction bs as [|c bs IH]; [reflexivity|].
  rewrite bytes_bits_cons, length_app. unfold byte_bits.
  rewrite length_bits_from, IH. cbn [length]. lia.
Qed.

Lemma nth_bytes_bits (bs : list byte) (q r : nat) (d : bool) :
  (q < length bs)%nat -> (r < 8)%nat ->
  nth (8 * q + r) (bytes_bits bs) d
    = Z.testbit (byte_to_Z (nth q bs "000"%byte)) (Z.of_nat r).
Proof.
  revert q. induction bs as [|c bs IH]; intros q Hq Hr; [simpl in Hq; lia|].
  rewrite bytes_bits_cons. destruct q as [|q].
  - rewrite app_nth1 by (unfold byte_bits; rewrite length_bits_from; lia).
    unfold byte_bits. rewrite Nat.mul_0_r, Nat.add_0_l.
    rewrite nth_bits_from by lia. reflexivity.
  - rewrite app_nth2 by (unfold byte_bits; rewrite length_bits_from; lia).
    unfold byte_bits at 1. rewrite length_bits_from.
    replace (8 * S q + r - 8)%nat with (8 * q + r)%nat by lia.
    cbn [nth]. apply IH; [simpl in Hq; lia | exact Hr].
Qed.

Lemma last_bytes_bits (bs : list byte) (d : bool) :
  bs <> [] ->
  last (bytes_bits bs) d = Z.testbit (byte_to_Z (last bs "000"%byte)) 7.
Proof.
  intros Hne. destruct (exists_last Hne) as (pre & c & ->).
  rewrite bytes_bits_app, bytes_bits_one, last_last.
  unfold byte_bits. rewrite (bits_from_snoc 7), app_assoc, last_last.
  reflexivity.
Qed.

Lemma last_map_b2z (l : list bool) (d : bool) :
  last (map Z.b2z l) (Z.b2z d) = Z.b2z (last l d).
Proof.
  induction l as [|b l IH]; [reflexivity|].
  destruct l as [|b' l]; [reflexivity|]. exact IH.
Qed.

Lemma bit_at_file_general (bs : list byte) (i : nat) :
  InputBitStream.bit_at (InputBitStream.new bs) i
    = Z.b2z (nth i (bytes_bits bs) (last (bytes_bits bs) false)).
Proof.
  rewrite (bit_at_remaining (bytes_bits bs));
    [| unfold wf_in; simpl; lia | reflexivity].
  change (InputBitStream.last_real_bit (InputBitStream.new bs))
    with (Z.b2z false).
  rewrite last_map_b2z. apply map_nth.
Qed.

Lemma reads_add (n m : nat) (s : InputBitStream.t) :
  InputBitStream.reads (n + m) s
    = InputBitStream.reads m (InputBitStream.reads n s).
Proof.
  revert s. induction n as [|n IH]; intros s; [reflexivity|].
  cbn [Nat.add InputBitStream.reads]. apply IH.
Qed.

Lemma bit_at_reads (n i : nat) (s : InputBitStream.t) :
  InputBitStream.bit_at (InputBitStream.reads n s) i
    = InputBitStream.bit_at s (n + i).
Proof.
  unfold InputBitStream.bit_at. rewrite Nat.add_comm, reads_add.
  rewrite <- reads_add, Nat.add_comm, reads_add. reflexivity.
Qed.

Lemma reads_bit_ok (n : nat) (s : InputBitStream.t) :
  bit_ok s -> bit_ok (InputBitStream.reads n s).
Proof.
  revert s. induction n as [|n IH]; intros s Hs; [exact Hs|].
  cbn [InputBitStream.reads]. apply IH. apply read_bit_ok. exact Hs.
Qed.

Lemma bit_at_range (s : InputBitStream.t) (i : nat) :
  bit_ok s -> 0 <= InputBitStream.bit_at s i <= 1.
Proof.
  intros Hs. unfold InputBitStream.bit_at.
  apply read_bit_ok. apply reads_bit_ok. exact Hs.
Qed.

Lemma new_bit_ok (bs : list byte) : bit_ok (InputBitStream.new bs).
Proof. unfold bit_ok. simpl. lia. Qed.

Lemma read_bits_loop_spec (n : nat) :
  forall (i r : Z) (s : InputBitStream.t),
    bit_ok s -> 0 <= i -> i + Z.of_nat n <= 32 -> 0 <= r < 2 ^ i ->
    exists v,
      InputBitStreamReads.read_bits_loop n i r s
        = Some (v, InputBitStream.reads n s) /\
      0 <= v < 2 ^ (i + Z.of_nat n) /\
      (forall j, 0 <= j < i -> Z.testbit v j = Z.testbit r j) /\
      (forall j, (j < n)%nat ->
         Z.testbit v (i + Z.of_nat j) = (InputBitStream.bit_at s j =? 1)).
Proof.
  induction n as [|n IH]; intros i r s Hs Hi Hn Hr.
  - exists r. cbn [InputBitStreamReads.read_bits_loop InputBitStream.reads].
    rewrite Z.add_0_r. repeat split; try lia.
  - cbn [InputBitStreamReads.read_bits_loop InputBitStream.reads].
    rewrite (read_bit_at s).
    destruct (bit_at_range s 0 Hs) as [Hb0 Hb1].
    set (b := InputBitStream.bit_at s 0) in *.
    destruct (Z.ltb_spec i 32) as [_|]; [|lia].
    assert (Hp : 2 ^ i <= 2 ^ 31) by (apply Z.pow_le_mono_r; lia).
    assert (Hp0 : 0 < 2 ^ i) by (apply Z.pow_pos_nonneg; lia).
    assert (Hsh : wrap32 (Z.shiftl b i) = b * 2 ^ i).
    { rewrite Z.shiftl_mul_pow2 by lia. apply wrap32_small.
      change (2 ^ 32) with (2 * 2 ^ 31). nia. }
    rewrite Hsh, (wrap32_small (i + 1)) by lia.
    rewrite Z.lor_comm, lor_low_bits by lia.
    assert (Hr' : 0 <= b * 2 ^ i + r < 2 ^ (i + 1)).
    { rewrite Z.pow_add_r by lia. change (2 ^ 1) with 2. nia. }
    destruct (IH (i + 1) (b * 2 ^ i + r)
                (snd (InputBitStream.read_bit s)))
      as (v & Hv & Hrange & Hlow & Hhigh);
      [apply read_bit_ok; exact Hs | lia | lia | exact Hr' |].
    exists v. split; [exact Hv|]. split.
    { replace (i + Z.of_nat (S n)) with (i + 1 + Z.of_nat n) by lia.
      exact Hrange. }
    split.
    + intros j Hj. rewrite Hlow by lia.
      rewrite Z.add_comm, testbit_add_high by lia.
      destruct (Z.ltb_spec j i); [reflexivity | lia].
    + intros j Hj. destruct j as [|j].
      * rewrite Z.add_0_r, Hlow by lia.
        rewrite Z.add_comm, testbit_add_high by lia.
        rewrite Z.ltb_irrefl, Z.sub_diag. fold b.
        assert (Hb : b = 0 \/ b = 1) by lia.
        destruct Hb as [-> | ->]; reflexivity.
      * replace (i + Z.of_nat (S j)) with (i + 1 + Z.of_nat j) by lia.
        rewrite Hhigh by lia. rewrite bit_at_succ. reflexivity.
Qed.

Lemma eq_of_low_bits (n a b : Z) :
  0 <= n -> 0 <= a < 2 ^ n -> 0 <= b < 2 ^ n ->
  (forall j, 0 <= j < n -> Z.testbit a j = Z.testbit b j) -> a = b.
Proof.
  intros Hn Ha Hb Hbits.
  rewrite <- (Z.mod_small a (2 ^ n)), <- (Z.mod_small b (2 ^ n)) by lia.
  apply Z.bits_inj'. intros j Hj.
  destruct (Z.lt_ge_cases j n).
  - rewrite !Z.mod_pow2_bits_low by lia. apply Hbits. lia.
  - rewrite !Z.mod_pow2_bits_high by lia. reflexivity.
Qed.

Lemma read_bit_mid (v j : Z) (inf : list byte) (lrb : Z) :
  0 <= j < 8 ->
  InputBitStream.read_bit (InputBitStream.mk v j inf false lrb)
    = (Z.b2z (Z.testbit v j),
       InputBitStream.mk v (j + 1) inf false (Z.b2z (Z.testbit v j))).
Proof.
  intros Hj. unfold InputBitStream.read_bit.
  cbn [InputBitStream.numbits].
  destruct (Z.eqb_spec j 8) as [|_]; [lia|].
  cbn [InputBitStream.done InputBitStream.numbits InputBitStream.bitvec
       InputBitStream.infile InputBitStream.last_real_bit].
  rewrite land_shiftr_testbit, wrap32_small by lia. reflexivity.
Qed.

Lemma read_bit_load (v : Z) (c : byte) (inf : list byte) (lrb : Z) :
  InputBitStream.read_bit (InputBitStream.mk v 8 (c :: inf) false lrb)
    = (Z.b2z (Z.testbit (byte_to_Z c) 0),
       InputBitStream.mk (byte_to_Z c) 1 inf false
         (Z.b2z (Z.testbit (byte_to_Z c) 0))).
Proof.
  unfold InputBitStream.read_bit, InputBitStream.input_byte.
  cbn [InputBitStream.done InputBitStream.numbits InputBitStream.bitvec
       InputBitStream.infile InputBitStream.last_real_bit Z.eqb Pos.eqb].
  rewrite land_shiftr_testbit by lia. reflexivity.
Qed.

Lemma reads_mid (m : nat) :
  forall (v j : Z) (inf : list byte) (lrb : Z),
    0 <= j -> j + Z.of_nat m <= 8 -> (1 <= m)%nat ->
    InputBitStream.reads m (InputBitStream.mk v j inf false lrb)
      = InputBitStream.mk v (j + Z.of_nat m) inf false
          (Z.b2z (Z.testbit v (j + Z.of_nat m - 1))).
Proof.
  induction m as [|m IH]; intros v j inf lrb Hj Hm H1; [lia|].
  cbn [InputBitStream.reads]. rewrite read_bit_mid by lia. cbn [snd].
  destruct m as [|m].
  - cbn [InputBitStream.reads]. do 2 f_equal. f_equal. lia.
  - rewrite IH by lia. f_equal; [lia|]. do 2 f_equal. lia.
Qed.

Lemma reads_byte (m : nat) (v : Z) (c : byte) (inf : list byte) (lrb : Z) :
  (1 <= m <= 8)%nat ->
  InputBitStream.reads m (InputBitStream.mk v 8 (c :: inf) false lrb)
    = InputBitStream.mk (byte_to_Z c) (Z.of_nat m) inf false
        (Z.b2z (Z.testbit (byte_to_Z c) (Z.of_nat m - 1))).
Proof.
  intros Hm. destruct m as [|m]; [lia|].
  cbn [InputBitStream.reads]. rewrite read_bit_load. cbn [snd].
  destruct m as [|m]; [reflexivity|].
  rewrite reads_mid by lia. f_equal; [lia|]. do 2 f_equal. lia.
Qed.

Lemma reads_state (k : nat) :
  forall (inf : list byte) (v lrb : Z) (j : nat),
    (k < length inf)%nat -> (1 <= j <= 8)%nat ->
    InputBitStream.reads (8 * k + j) (InputBitStream.mk v 8 inf false lrb)
      = InputBitStream.mk (byte_to_Z (nth k inf "000"%byte)) (Z.of_nat j)
          (skipn (S k) inf) false
          (Z.b2z (Z.testbit (byte_to_Z (nth k inf "000"%byte))
                    (Z.of_nat j - 1))).
Proof.
  induction k as [|k IH]; intros inf v lrb j Hk Hj;
    (destruct inf as [|c inf]; [simpl in Hk; lia|]).
  - rewrite Nat.mul_0_r, Nat.add_0_l. rewrite reads_byte by lia.
    reflexivity.
  - replace (8 * S k + j)%nat with (8 + (8 * k + j))%nat by lia.
    rewrite reads_add, reads_byte by lia.
    change (Z.of_nat 8) with 8.
    rewrite IH by (simpl in Hk; lia). reflexivity.
Qed.

Lemma last_indep {A : Type} (l : list A) (d d' : A) :
  l <> [] -> last l d = last l d'.
Proof.
  intros Hne. destruct (exists_last Hne) as (pre & x & ->).
  rewrite !last_last. reflexivity.
Qed.

Lemma bit_at_boundary (v v' lrb lrb' : Z) (inf : list byte) (i : nat) :
  inf <> [] -> 0 <= lrb <= 1 -> 0 <= lrb' <= 1 ->
  InputBitStream.bit_at (InputBitStream.mk v 8 inf false lrb) i
    = InputBitStream.bit_at (InputBitStream.mk v' 8 inf false lrb') i.
Proof.
  intros Hne Hl Hl'.
  rewrite (bit_at_remaining (bytes_bits inf));
    [| unfold wf_in; simpl; lia | reflexivity].
  rewrite (bit_at_remaining (bytes_bits inf)
             (InputBitStream.mk v' 8 inf false lrb'));
    [| unfold wf_in; simpl; lia | reflexivity].
  f_equal. apply last_indep. intros Hnil.
  apply map_eq_nil in Hnil. apply bytes_bits_nil_inv in Hnil.
  exact (Hne Hnil).
Qed.

Lemma bit_at_file (bs : list byte) (q r : nat) :
  (q < length bs)%nat -> (r < 8)%nat ->
  InputBitStream.bit_at (InputBitStream.new bs) (8 * q + r)
    = Z.b2z (Z.testbit (byte_to_Z (nth q bs "000"%byte)) (Z.of_nat r)).
Proof.
  intros Hq Hr. rewrite bit_at_file_general. f_equal.
  apply nth_bytes_bits; assumption.
Qed.

Lemma bit_at_past (bs : list byte) (i : nat) :
  (8 * length bs <= i)%nat ->
  InputBitStream.bit_at (InputBitStream.new bs) i
    = Z.b2z (Z.testbit (byte_to_Z (last bs "000"%byte)) 7).
Proof.
  intros Hi. rewrite bit_at_file_general. f_equal.
  rewrite nth_overflow by (rewrite length_bytes_bits; exact Hi).
  destruct bs as [|c bs]; [reflexivity|].
  apply last_bytes_bits. discriminate.
Qed.

Lemma read_bits_spec (n : Z) (s : InputBitStream.t) :
  bit_ok s -> 0 <= n <= 32 ->
  exists v,
    InputBitStreamReads.read_bits n s
      = Some (v, InputBitStream.reads (Z.to_nat n) s) /\
    0 <= v < 2 ^ n /\
    (forall j, (j < Z.to_nat n)%nat ->
       Z.testbit v (Z.of_nat j) = (InputBitStream.bit_at s j =? 1)).
Proof.
  intros Hs Hn. unfold InputBitStreamReads.read_bits.
  destruct (read_bits_loop_spec (Z.to_nat n) 0 0 s Hs)
    as (v & Hv & Hr & _ & Hb); [lia | lia | simpl; lia |].
  exists v. split; [exact Hv|]. split.
  - rewrite Z.add_0_l, Z2Nat.id in Hr by lia. exact Hr.
  - intros j Hj. rewrite <- (Hb j Hj). reflexivity.
Qed.

Lemma read_bits_8_value (s : InputBitStream.t) (x : Z) :
  bit_ok s -> 0 <= x < 256 ->
  (forall j, (j < 8)%nat ->
     InputBitStream.bit_at s j = Z.b2z (Z.testbit x (Z.of_nat j))) ->
  InputBitStreamReads.read_bits 8 s = Some (x, InputBitStream.reads 8 s).
Proof.
  intros Hs Hx Hbits.
  destruct (read_bits_spec 8 s Hs) as (v & Hv & Hr & Hb); [lia|].
  rewrite Hv. change (Z.to_nat 8) with 8%nat in *.
  do 2 f_equal. apply (eq_of_low_bits 8); [lia | exact Hr | exact Hx |].
  intros j Hj. rewrite <- (Z2Nat.id j) by lia.
  rewrite Hb by lia. rewrite Hbits by lia.
  destruct (Z.testbit x (Z.of_nat (Z.to_nat j))); reflexivity.
Qed.

Lemma read_byte_at (bs : list byte) (k : nat) (x : Z) :
  0 <= x < 256 ->
  (forall j, (j < 8)%nat ->
     InputBitStream.bit_at (InputBitStream.new bs) (8 * k + j)
       = Z.b2z (Z.testbit x (Z.of_nat j))) ->
  InputBitStreamReads.read_byte
      (InputBitStream.reads (8 * k) (InputBitStream.new bs))
    = Some (x, InputBitStream.reads (8 * k + 8) (InputBitStream.new bs)).
Proof.
  intros Hx Hbits. unfold InputBitStreamReads.read_byte.
  rewrite (read_bits_8_value _ x);
    [| apply reads_bit_ok, new_bit_ok | exact Hx
     | intros j Hj; rewrite bit_at_reads; apply Hbits; exact Hj].
  cbn [bind]. rewrite Z.mod_small by (change (2 ^ 8) with 256; lia).
  rewrite reads_add. reflexivity.
Qed.

(** X1.  [read_bit], called again and again on a file, returns the bits of
    its bytes in file order, each byte from its least significant bit
    up: call number [8 * q + r] returns bit [r] of byte [q]. *)
Theorem source_returns_file_bits (bs : list byte) (q r : nat) :
  (q < length bs)%nat -> (r < 8)%nat ->
  InputBitStream.bit_at (InputBitStream.new bs) (8 * q + r)
    = Z.b2z (Z.testbit (byte_to_Z (nth q bs "000"%byte)) (Z.of_nat r)).
Proof. exact (bit_at_file bs q r). Qed.

Lemma source_returns_file_bits_witness :
  InputBitStream.bit_at (InputBitStream.new ["a"%byte; "b"%byte]) (8 * 1 + 1)
    = Z.b2z (Z.testbit (byte_to_Z "b"%byte) 1).
Proof.
  apply (source_returns_file_bits ["a"%byte; "b"%byte] 1 1); simpl; lia.
Defined.

(** X2.  Once the file is used up, every further [read_bit] returns the last
    bit of the file, the top bit of its last byte; on an empty file it
    returns 0. *)
Theorem source_repeats_last_bit (bs : list byte) (i : nat) :
  (8 * length bs <= i)%nat ->
  InputBitStream.bit_at (InputBitStream.new bs) i
    = Z.b2z (Z.testbit (byte_to_Z (last bs "000"%byte)) 7).
Proof. exact (bit_at_past bs i). Qed.

Lemma source_repeats_last_bit_witness :
  InputBitStream.bit_at (InputBitStream.new ["a"%byte; "200"%byte]) 20
    = Z.b2z (Z.testbit (byte_to_Z "200"%byte) 7).
Proof.
  apply (source_repeats_last_bit ["a"%byte; "200"%byte] 20). simpl. lia.
Defined.

(** X3.  [read_bits(num_bits)] with at most 32 bits makes exactly [num_bits]
    calls of [read_bit] and returns a value below [2 ^ num_bits] whose bit
    [j] is the bit call [j] returned: the first bit read is the least
    significant. *)
Theorem read_bits_lsb_first (n : Z) (s : InputBitStream.t) :
  bit_ok s -> 0 <= n <= 32 ->
  exists v,
    InputBitStreamReads.read_bits n s
      = Some (v, InputBitStream.reads (Z.to_nat n) s) /\
    0 <= v < 2 ^ n /\
    (forall j, (j < Z.to_nat n)%nat ->
       Z.testbit v (Z.of_nat j) = (InputBitStream.bit_at s j =? 1)).
Proof. exact (read_bits_spec n s). Qed.

Lemma read_bits_lsb_first_witness :
  exists v,
    InputBitStreamReads.read_bits 12
        (InputBitStream.new ["a"%byte; "b"%byte])
      = Some (v, InputBitStream.reads (Z.to_nat 12)
                   (InputBitStream.new ["a"%byte; "b"%byte])) /\
    0 <= v < 2 ^ 12 /\
    (forall j, (j < Z.to_nat 12)%nat ->
       Z.testbit v (Z.of_nat j)
         = (InputBitStream.bit_at
              (InputBitStream.new ["a"%byte; "b"%byte]) j =? 1)).
Proof.
  apply (read_bits_lsb_first 12 (InputBitStream.new ["a"%byte; "b"%byte])).
  - unfold bit_ok. simpl. lia.
  - lia.
Defined.

(** X5.  After [k] whole bytes have been read, [read_byte] returns byte [k]
    of the file and leaves the source eight bits further on. *)
Theorem read_byte_returns_file_byte (bs : list byte) (k : nat) (c : byte) :
  nth_error bs k = Some c ->
  InputBitStreamReads.read_byte
      (InputBitStream.reads (8 * k) (InputBitStream.new bs))
    = Some (byte_to_Z c,
            InputBitStream.reads (8 * k + 8) (InputBitStream.new bs)).
Proof.
  intros Hc. apply read_byte_at; [apply byte_to_Z_range|].
  intros j Hj.
  assert (Hk : (k < length bs)%nat).
  { apply nth_error_Some. rewrite Hc. discriminate. }
  rewrite bit_at_file by assumption.
  rewrite (nth_error_nth bs k "000"%byte Hc). reflexivity.
Qed.

Lemma read_byte_returns_file_byte_witness :
  InputBitStreamReads.read_byte
      (InputBitStream.reads (8 * 1)
         (InputBitStream.new ["a"%byte; "b"%byte; "c"%byte]))
    = Some (byte_to_Z "b"%byte,
            InputBitStream.reads (8 * 1 + 8)
              (InputBitStream.new ["a"%byte; "b"%byte; "c"%byte])).
Proof.
  apply (read_byte_returns_file_byte ["a"%byte; "b"%byte; "c"%byte] 1).
  reflexivity.
Defined.

(** X6.  [read_byte] past the end of the file does not fail: it returns 255
    when the last bit of the file is 1, and 0 when it is 0 or the file is
    empty. *)
Theorem read_byte_past_end (bs : list byte) (k : nat) :
  (length bs <= k)%nat ->
  InputBitStreamReads.read_byte
      (InputBitStream.reads (8 * k) (InputBitStream.new bs))
    = Some (if Z.testbit (byte_to_Z (last bs "000"%byte)) 7 then 255 else 0,
            InputBitStream.reads (8 * k + 8) (InputBitStream.new bs)).
Proof.
  intros Hk. apply read_byte_at.
  - destruct (Z.testbit _ 7); lia.
  - intros j Hj. rewrite bit_at_past by lia.
    destruct (Z.testbit (byte_to_Z (last bs "000"%byte)) 7).
    + do 8 (destruct j as [|j]; [reflexivity|]). lia.
    + rewrite Z.bits_0. reflexivity.
Qed.

Lemma read_byte_past_end_witness :
  InputBitStreamReads.read_byte
      (InputBitStream.reads (8 * 3)
         (InputBitStream.new ["a"%byte; "200"%byte]))
    = Some (if Z.testbit (byte_to_Z (last ["a"%byte; "200"%byte] "000"%byte))
                 7 then 255 else 0,
            InputBitStream.reads (8 * 3 + 8)
              (InputBitStream.new ["a"%byte; "200"%byte])).
Proof.
  apply (read_byte_past_end ["a"%byte; "200"%byte] 3). simpl. lia.
Defined.

(** X7.  [flush_to_byte], called after [j] bits (1 to 8) of byte [k] have
    been read, drops the rest of that byte: when a byte follows, the source
    then returns the bits of the file from byte [k + 1] on. *)
Theorem flush_to_byte_skips_to_next_byte (bs : list byte) (k j i : nat) :
  (S k < length bs)%nat -> (1 <= j <= 8)%nat ->
  InputBitStream.bit_at
      (InputBitStreamReads.flush_to_byte
         (InputBitStream.reads (8 * k + j) (InputBitStream.new bs))) i
    = InputBitStream.bit_at (InputBitStream.new bs) (8 * S k + i).
Proof.
  intros Hk Hj. rewrite <- bit_at_reads.
  replace (8 * S k)%nat with (8 * k + 8)%nat by lia.
  unfold InputBitStream.new. rewrite !reads_state by lia.
  unfold InputBitStreamReads.flush_to_byte.
  cbn [InputBitStream.done InputBitStream.numbits InputBitStream.bitvec
       InputBitStream.infile InputBitStream.last_real_bit].
  apply bit_at_boundary; try apply b2z_range.
  intros Hnil.
  assert (Hlen : length (skipn (S k) bs) = 0%nat) by (rewrite Hnil; reflexivity).
  rewrite length_skipn in Hlen. lia.
Qed.

Lemma flush_to_byte_skips_to_next_byte_witness :
  InputBitStream.bit_at
      (InputBitStreamReads.flush_to_byte
         (InputBitStream.reads (8 * 0 + 3)
            (InputBitStream.new ["a"%byte; "b"%byte; "c"%byte]))) 1
    = InputBitStream.bit_at
        (InputBitStream.new ["a"%byte; "b"%byte; "c"%byte]) (8 * 1 + 1).
Proof.
  apply (flush_to_byte_skips_to_next_byte
           ["a"%byte; "b"%byte; "c"%byte] 0 3 1); simpl; lia.
Defined.

(** X8.  [flush_to_byte], called after [j] bits (1 to 8) of the last byte
    have been read, leaves a source that returns for ever the last bit that
    was read, bit [j - 1] of that byte, whatever the rest of the byte
    holds. *)
Theorem flush_to_byte_in_last_byte (bs : list byte) (k j i : nat) :
  S k = length bs -> (1 <= j <= 8)%nat ->
  InputBitStream.bit_at
      (InputBitStreamReads.flush_to_byte
         (InputBitStream.reads (8 * k + j) (InputBitStream.new bs))) i
    = Z.b2z (Z.testbit (byte_to_Z (last bs "000"%byte)) (Z.of_nat j - 1)).
Proof.
  intros Hk Hj. unfold InputBitStream.new. rewrite reads_state by lia.
  unfold InputBitStreamReads.flush_to_byte.
  cbn [InputBitStream.done InputBitStream.numbits InputBitStream.bitvec
       InputBitStream.infile InputBitStream.last_real_bit].
  rewrite skipn_all2 by lia.
  rewrite (bit_at_remaining []);
    [| unfold wf_in; simpl; pose proof (b2z_range
         (Z.testbit (byte_to_Z (nth k bs "000"%byte)) (Z.of_nat j - 1))); lia
     | reflexivity].
  cbn [map last InputBitStream.last_real_bit].
  replace (nth i [] _) with
    (Z.b2z (Z.testbit (byte_to_Z (nth k bs "000"%byte)) (Z.of_nat j - 1)))
    by (destruct i; reflexivity).
  replace k with (Nat.pred (length bs)) by lia.
  do 3 f_equal.
  clear. induction bs as [|c bs IH]; [reflexivity|].
  destruct bs as [|c' bs]; [reflexivity|]. exact IH.
Qed.

Lemma flush_to_byte_in_last_byte_witness :
  InputBitStream.bit_at
      (InputBitStreamReads.flush_to_byte
         (InputBitStream.reads (8 * 1 + 2)
            (InputBitStream.new ["a"%byte; "b"%byte]))) 5
    = Z.b2z (Z.testbit (byte_to_Z (last ["a"%byte; "b"%byte] "000"%byte))
               (Z.of_nat 2 - 1)).
Proof.
  apply (flush_to_byte_in_last_byte ["a"%byte; "b"%byte] 1 2 5); simpl; lia.
Defined.

Lemma read_bits_8_file (pre post : list byte) (c : byte) :
  InputBitStreamReads.read_bits 8
      (InputBitStream.reads (8 * length pre)
         (InputBitStream.new (pre ++ c :: post)))
    = Some (byte_to_Z c,
            InputBitStream.reads (8 * length (pre ++ [c]))
              (InputBitStream.new (pre ++ c :: post))).
Proof.
  rewrite (read_bits_8_value _ (byte_to_Z c));
    [| apply reads_bit_ok, new_bit_ok | apply byte_to_Z_range |].
  - rewrite <- reads_add. do 3 f_equal. rewrite length_app. simpl. lia.
  - intros j Hj. rewrite bit_at_reads, bit_at_file;
      [| rewrite length_app; simpl; lia | exact Hj].
    rewrite app_nth2, Nat.sub_diag by lia. reflexivity.
Qed.

Lemma lor_disjoint (a b : Z) :
  (forall i, 0 <= i -> Z.testbit a i && Z.testbit b i = false) ->
  Z.lor a b = a + b.
Proof.
  intros H. rewrite <- (Z.add_lor_land a b).
  replace (Z.land a b) with 0; [lia|].
  symmetry. apply Z.bits_inj'. intros i Hi.
  rewrite Z.land_spec, Z.bits_0. apply H. exact Hi.
Qed.

Lemma slot_bits (v j b : Z) :
  0 <= v < 256 -> 0 <= j -> 0 <= b ->
  Z.testbit (v * 2 ^ (8 * j)) b = true -> 8 * j <= b < 8 * j + 8.
Proof.
  intros Hv Hj Hb Ht.
  destruct (Z.lt_ge_cases b (8 * j)) as [Hlt|Hge].
  - rewrite Z.mul_pow2_bits_low in Ht by lia. discriminate.
  - rewrite Z.mul_pow2_bits in Ht by lia.
    destruct (Z.lt_ge_cases (b - 8 * j) 8) as [|Hhigh]; [lia|].
    rewrite <- (Z.mod_small v (2 ^ 8)) in Ht
      by (change (2 ^ 8) with 256; lia).
    rewrite Z.mod_pow2_bits_high in Ht by lia. discriminate.
Qed.

Lemma read_operands_spec (order : list Z) :
  forall (cs pre post : list byte) (r : Z),
    length cs = length order ->
    Forall (fun j => 0 <= j <= 3) order -> NoDup order -> 0 <= r ->
    (forall j b, In j order -> 8 * j <= b < 8 * j + 8 ->
       Z.testbit r b = false) ->
    InputBitStreamReads.read_operands order r
        (InputBitStream.reads (8 * length pre)
           (InputBitStream.new (pre ++ cs ++ post)))
      = Some (r + placed order cs,
              InputBitStream.reads (8 * length (pre ++ cs))
                (InputBitStream.new (pre ++ cs ++ post))).
Proof.
  induction order as [|j order IH]; intros cs pre post r Hlen Hall Hnd Hr Hz.
  - destruct cs; [|discriminate]. rewrite app_nil_r, Z.add_0_r. reflexivity.
  - destruct cs as [|c cs]; [discriminate|].
    cbn [InputBitStreamReads.read_operands placed].
    change ((c :: cs) ++ post) with (c :: cs ++ post).
    rewrite read_bits_8_file. cbn [bind].
    inversion Hall as [|? ? Hj Hall']; subst.
    inversion Hnd as [|? ? Hnotin Hnd']; subst.
    pose proof (byte_to_Z_range c) as Hc.
    assert (Hpow : 0 < 2 ^ (8 * j) <= 2 ^ 24).
    { split; [apply Z.pow_pos_nonneg; lia|].
      apply Z.pow_le_mono_r; lia. }
    rewrite Z.shiftl_mul_pow2 by lia.
    rewrite wrap32_small
      by (change (2 ^ 32) with (256 * 2 ^ 24); nia).
    rewrite lor_disjoint.
    2:{ intros i Hi.
        destruct (Z.testbit (byte_to_Z c * 2 ^ (8 * j)) i) eqn:Et;
          [|apply andb_false_r].
        apply slot_bits in Et; [| lia | lia | lia].
        rewrite (Hz j i) by (simpl; auto; lia). reflexivity. }
    replace (pre ++ c :: cs ++ post) with ((pre ++ [c]) ++ cs ++ post)
      by (rewrite <- app_assoc; reflexivity).
    rewrite IH.
    + rewrite <- !app_assoc. cbn [app]. do 2 f_equal. lia.
    + simpl in Hlen. lia.
    + exact Hall'.
    + exact Hnd'.
    + nia.
    + intros j' b Hin Hb.
      rewrite <- lor_disjoint.
      2:{ intros i Hi.
          destruct (Z.testbit (byte_to_Z c * 2 ^ (8 * j)) i) eqn:Et;
            [|apply andb_false_r].
          apply slot_bits in Et; [| lia | lia | lia].
          rewrite (Hz j i) by (simpl; auto; lia). reflexivity. }
      rewrite Z.lor_spec, (Hz j' b) by (simpl; auto).
      destruct (Z.testbit (byte_to_Z c * 2 ^ (8 * j)) b) eqn:Et;
        [|reflexivity].
      rewrite Forall_forall in Hall'. pose proof (Hall' j' Hin).
      apply slot_bits in Et; [| lia | lia | lia].
      assert (j' = j) by lia. subst j'. contradiction.
Qed.

(** X9.  [read_u32] reads the next four bytes of the file, whatever the order
    in which the four [read_bits(8)] calls of its expression run; the byte
    a call reads lands at the position of that call's operand.  Run left
    to right, the value is the little-endian number of the four bytes; in
    another order the same bytes give another number. *)
Theorem read_u32_places_bytes (order : list Z) (cs pre post : list byte) :
  length order = 4%nat -> length cs = 4%nat ->
  Forall (fun j => 0 <= j <= 3) order -> NoDup order ->
  InputBitStreamReads.read_u32 order
      (InputBitStream.reads (8 * length pre)
         (InputBitStream.new (pre ++ cs ++ post)))
    = Some (placed order cs,
            InputBitStream.reads (8 * length pre + 32)
              (InputBitStream.new (pre ++ cs ++ post))).
Proof.
  intros Ho Hc Hall Hnd. unfold InputBitStreamReads.read_u32.
  rewrite read_operands_spec; try assumption; try lia.
  - rewrite length_app, Hc. do 3 f_equal. lia.
  - intros j b _ _. apply Z.bits_0.
Qed.

Lemma read_u32_places_bytes_witness :
  InputBitStreamReads.read_u32 [0; 1; 2; 3]
      (InputBitStream.reads (8 * length ["a"%byte])
         (InputBitStream.new
            (["a"%byte] ++ ["001"%byte; "002"%byte; "003"%byte; "004"%byte]
               ++ ["z"%byte])))
    = Some (placed [0; 1; 2; 3]
              ["001"%byte; "002"%byte; "003"%byte; "004"%byte],
            InputBitStream.reads (8 * length ["a"%byte] + 32)
              (InputBitStream.new
                 (["a"%byte]
                    ++ ["001"%byte; "002"%byte; "003"%byte; "004"%byte]
                    ++ ["z"%byte]))).
Proof.
  apply (read_u32_places_bytes [0; 1; 2; 3]
           ["001"%byte; "002"%byte; "003"%byte; "004"%byte]
           ["a"%byte] ["z"%byte]).
  - reflexivity.
  - reflexivity.
  - repeat constructor; lia.
  - repeat constructor; simpl; lia.
Defined.

(** X10.  [read_u16] reads the next two bytes of the file: the first byte
    read is the low byte when the left operand is evaluated first, and the
    high byte when the right operand is. *)
Theorem read_u16_places_bytes (order : list Z) (c0 c1 : byte)
    (pre post : list byte) :
  order = [0; 1] \/ order = [1; 0] ->
  InputBitStreamReads.read_u16 order
      (InputBitStream.reads (8 * length pre)
         (InputBitStream.new (pre ++ [c0; c1] ++ post)))
    = Some (if Z.eqb (hd 0 order) 0
            then byte_to_Z c0 + 256 * byte_to_Z c1
            else 256 * byte_to_Z c0 + byte_to_Z c1,
            InputBitStream.reads (8 * length pre + 16)
              (InputBitStream.new (pre ++ [c0; c1] ++ post))).
Proof.
  intros Ho. unfold InputBitStreamReads.read_u16.
  pose proof (byte_to_Z_range c0). pose proof (byte_to_Z_range c1).
  rewrite (read_operands_spec order [c0; c1]).
  - cbn [bind]. rewrite length_app. cbn [length].
    replace (8 * (length pre + 2))%nat with (8 * length pre + 16)%nat by lia.
    destruct Ho as [-> | ->]; cbn [placed hd Z.eqb];
      rewrite Z.mod_small
        by (change (2 ^ (8 * 0)) with 1; change (2 ^ (8 * 1)) with 256;
            change (2 ^ 16) with 65536; lia);
      do 2 f_equal;
      change (2 ^ (8 * 0)) with 1; change (2 ^ (8 * 1)) with 256; lia.
  - destruct Ho as [-> | ->]; reflexivity.
  - destruct Ho as [-> | ->]; repeat constructor; lia.
  - destruct Ho as [-> | ->]; repeat constructor; simpl; lia.
  - lia.
  - intros j b _ _. apply Z.bits_0.
Qed.

Lemma read_u16_places_bytes_witness :
  InputBitStreamReads.read_u16 [1; 0]
      (InputBitStream.reads (8 * length ["a"%byte])
         (InputBitStream.new (["a"%byte] ++ ["001"%byte; "002"%byte] ++ [])))
    = Some (if Z.eqb (hd 0 [1; 0]) 0
            then byte_to_Z "001"%byte + 256 * byte_to_Z "002"%byte
            else 256 * byte_to_Z "001"%byte + byte_to_Z "002"%byte,
            InputBitStream.reads (8 * length ["a"%byte] + 16)
              (InputBitStream.new
                 (["a"%byte] ++ ["001"%byte; "002"%byte] ++ []))).
Proof.
  apply (read_u16_places_bytes [1; 0] "001"%byte "002"%byte ["a"%byte] []).
  right. reflexivity.
Defined.

(** ** The cumulative table, cell by cell *)

Lemma nth_update_other (a : list Z) (n m : nat) (v d : Z) :
  n <> m -> nth m (update a n v) d = nth m a d.
Proof.
  revert n m. induction a as [|h t IH]; intros [|n] [|m] Hnm; simpl;
    try reflexivity; try lia. apply IH. lia.
Qed.

Lemma cf_loop_prefix (frequencies : list Z) (fuel : nat) (i : Z)
    (cf0 : list Z) :
  length frequencies = 257%nat -> Forall is_u32 frequencies ->
  length cf0 = 258%nat -> 1 <= i <= 258 -> 258 - i < Z.of_nat fuel ->
  (forall j, (j < Z.to_nat i)%nat ->
     nth j cf0 0 = total_of (firstn j frequencies)) ->
  exists cf1, cf_loop fuel i frequencies cf0 = Some cf1 /\
              length cf1 = 258%nat /\
              forall j, (j < 258)%nat ->
                nth j cf1 0 = total_of (firstn j frequencies).
Proof.
  intros Hlen Hu. revert i cf0.
  induction fuel as [|fuel IH]; intros i cf0 Hcf Hi Hf Hprev; [lia|].
  cbn [cf_loop]. unfold EOF_SYMBOL.
  destruct (Z.ltb_spec i (256 + 2)) as [Hlt|Hge].
  - unfold wrap32. rewrite (Z.mod_small (i - 1)) by lia.
    rewrite (at_nth cf0), (at_nth frequencies) by lia. cbn [bind].
    rewrite set_at_in by lia. cbn [bind].
    rewrite (Z.mod_small (i + 1)) by lia.
    apply IH; try lia.
    + rewrite length_update. exact Hcf.
    + intros j Hj. destruct (Nat.eq_dec j (Z.to_nat i)) as [->|Hne].
      * rewrite nth_update_same by lia. unfold wrap64.
        replace (Z.to_nat i) with (S (Z.to_nat (i - 1))) by lia.
        rewrite total_of_firstn_succ by lia.
        rewrite Hprev by lia. apply Z.mod_small.
        pose proof (total_of_firstn_bound frequencies (Z.to_nat (i - 1)) Hu).
        pose proof (nth_is_u32 frequencies (Z.to_nat (i - 1)) Hu). lia.
      * rewrite nth_update_other by lia. apply Hprev. lia.
  - exists cf0. repeat split; auto. intros j Hj. apply Hprev. lia.
Qed.

(** X11.  For every table of 257 frequencies that fit 32 bits, the loop of
    lines 44-48 fills all 258 cells of [CF_low] and none wraps: cell [i]
    holds the sum of the frequencies of the symbols below [i], so the
    share [CF_low.at(i+1) - CF_low.at(i)] of symbol [i] is its
    frequency. *)
Theorem cumulative_table_prefix_sums (frequencies : list Z) :
  length frequencies = 257%nat -> Forall is_u32 frequencies ->
  exists CF_low,
    compute_CF frequencies = Some CF_low /\
    length CF_low = 258%nat /\
    (forall i, 0 <= i <= 257 ->
       at_ CF_low i = Some (total_of (firstn (Z.to_nat i) frequencies))) /\
    (forall i, 0 <= i <= 256 ->
       exists low high,
         at_ CF_low i = Some low /\ at_ CF_low (i + 1) = Some high /\
         at_ frequencies i = Some (high - low)).
Proof.
  intros Hlen Hu. unfold compute_CF.
  change (set_at (repeat 0 (Z.to_nat (EOF_SYMBOL + 2))) 0 0)
    with (Some (repeat 0 258)).
  cbv beta iota delta [bind].
  destruct (cf_loop_prefix frequencies 259 1 (repeat 0 258) Hlen Hu)
    as (cf1 & H1 & H2 & H3); try reflexivity; try lia.
  { intros j Hj. replace j with 0%nat by lia. reflexivity. }
  assert (Hat : forall i, 0 <= i <= 257 ->
            at_ cf1 i = Some (total_of (firstn (Z.to_nat i) frequencies))).
  { intros i Hi. rewrite at_nth by lia. f_equal. apply H3. lia. }
  exists cf1. split; [exact H1|]. split; [exact H2|]. split; [exact Hat|].
  intros i Hi. eexists. eexists.
  split; [apply Hat; lia|]. split; [apply Hat; lia|].
  rewrite at_nth by lia. f_equal.
  replace (Z.to_nat (i + 1)) with (S (Z.to_nat i)) by lia.
  rewrite total_of_firstn_succ by lia. lia.
Qed.

Lemma cumulative_table_prefix_sums_witness :
  exists CF_low,
    compute_CF the_frequencies = Some CF_low /\
    length CF_low = 258%nat /\
    (forall i, 0 <= i <= 257 ->
       at_ CF_low i
         = Some (total_of (firstn (Z.to_nat i) the_frequencies))) /\
    (forall i, 0 <= i <= 256 ->
       exists low high,
         at_ CF_low i = Some low /\ at_ CF_low (i + 1) = Some high /\
         at_ the_frequencies i = Some (high - low)).
Proof.
  apply (cumulative_table_prefix_sums the_frequencies).
  - reflexivity.
  - apply Forall_forall. intros x Hx.
    assert (H : forallb (fun x => (0 <=? x) && (x <? 2 ^ 32))
                  the_frequencies = true) by (vm_compute; reflexivity).
    rewrite forallb_forall in H. specialize (H x Hx).
    apply andb_prop in H. destruct H as [H1 H2].
    apply Z.leb_le in H1. apply Z.ltb_lt in H2. unfold is_u32. lia.
Defined.

(** ** The window the decompressor starts from, bit by bit *)

Lemma read_window_bits (n : nat) :
  forall (acc : Z) (st : InputBitStream.t),
    bit_ok st -> (n <= 32)%nat -> 0 <= acc < 2 ^ (32 - Z.of_nat n) ->
    exists w,
      read_window n acc st = (w, InputBitStream.reads n st) /\
      0 <= w < 2 ^ 32 /\ w / 2 ^ Z.of_nat n = acc /\
      forall i, (i < n)%nat ->
        Z.testbit w (Z.of_nat n - 1 - Z.of_nat i)
          = (InputBitStream.bit_at st i =? 1).
Proof.
  induction n as [|n IH]; intros acc st Hs Hn Hacc.
  - exists acc. cbn [read_window InputBitStream.reads].
    change (32 - Z.of_nat 0) with 32 in Hacc.
    repeat split; try lia.
    + change (2 ^ Z.of_nat 0) with 1. apply Z.div_1_r.
  - cbn [read_window InputBitStream.reads].
    rewrite (read_bit_at st).
    destruct (bit_at_range st 0 Hs) as [Hb0 Hb1].
    remember (InputBitStream.bit_at st 0) as b eqn:Eb.
    assert (Hpow : 2 ^ (32 - Z.of_nat n) = 2 * 2 ^ (32 - Z.of_nat (S n))).
    { replace (32 - Z.of_nat n) with (1 + (32 - Z.of_nat (S n))) by lia.
      rewrite Z.pow_add_r by lia. reflexivity. }
    assert (Hle : 2 ^ (32 - Z.of_nat n) <= 2 ^ 32)
      by (apply Z.pow_le_mono_r; lia).
    fold (shift_window acc b).
    rewrite shift_window_spec by lia.
    rewrite (Z.mod_small (2 * acc)) by lia.
    destruct (IH (2 * acc + b) (snd (InputBitStream.read_bit st)))
      as (w & Hw & Hr & Hd & Hbits);
      [apply read_bit_ok; exact Hs | lia | lia |].
    exists w. split; [exact Hw|]. split; [exact Hr|]. split.
    + rewrite pow2_succ, Z.mul_comm, <- Z.div_div, Hd
        by (try apply Z.pow_pos_nonneg; lia).
      zlia.
    + intros i Hi. destruct i as [|i].
      * replace (Z.of_nat (S n) - 1 - Z.of_nat 0) with (Z.of_nat n) by lia.
        rewrite <- (Z.add_0_l (Z.of_nat n)) at 1.
        rewrite <- Z.div_pow2_bits, Hd by lia.
        rewrite Z.add_comm, Z.mul_comm.
        change (b + acc * 2) with (b + acc * 2 ^ 1).
        rewrite testbit_add_high by lia.
        change (0 <? 1) with true. cbv beta iota. rewrite <- Eb.
        assert (Hb : b = 0 \/ b = 1) by lia.
        destruct Hb as [-> | ->]; reflexivity.
      * replace (Z.of_nat (S n) - 1 - Z.of_nat (S i))
          with (Z.of_nat n - 1 - Z.of_nat i) by lia.
        rewrite Hbits by lia. rewrite bit_at_succ. reflexivity.
Qed.

(** X12.  The loop of lines 61-64 of the decompressor makes exactly 32 calls
    of [read_bit] and packs them most significant first: bit [31 - i] of the
    window is the bit call [i] returned, the reverse of the order
    [read_bits] uses. *)
Theorem initial_window_msb_first (st : InputBitStream.t) :
  bit_ok st ->
  exists w,
    read_window 32 0 st = (w, InputBitStream.reads 32 st) /\
    0 <= w < 2 ^ 32 /\
    forall i, (i < 32)%nat ->
      Z.testbit w (31 - Z.of_nat i) = (InputBitStream.bit_at st i =? 1).
Proof.
  intros Hs.
  destruct (read_window_bits 32 0 st Hs) as (w & Hw & Hr & _ & Hb);
    [lia | simpl; lia |].
  exists w. split; [exact Hw|]. split; [exact Hr|].
  intros i Hi. rewrite <- (Hb i Hi). reflexivity.
Qed.

Lemma initial_window_msb_first_witness :
  exists w,
    read_window 32 0 (InputBitStream.new ["a"%byte])
      = (w, InputBitStream.reads 32 (InputBitStream.new ["a"%byte])) /\
    0 <= w < 2 ^ 32 /\
    forall i, (i < 32)%nat ->
      Z.testbit w (31 - Z.of_nat i)
        = (InputBitStream.bit_at (InputBitStream.new ["a"%byte]) i =? 1).
Proof.
  apply (initial_window_msb_first (InputBitStream.new ["a"%byte])).
  unfold bit_ok. simpl. lia.
Defined.

(** ** The sub-intervals of the symbols *)

(** X13.  At the head of an outer loop the sub-intervals the update of lines
    75-79 gives the 257 symbols split the current interval: every value
    between the bounds lies in the sub-interval of exactly one symbol. *)
Theorem subintervals_partition (lo hi w : Z) :
  normalized lo hi -> lo <= w <= hi ->
  exists s,
    0 <= s <= 256 /\
    (exists lo' hi',
       enc_narrow the_CF_low the_total lo hi s = Some (lo', hi') /\
       lo' <= w <= hi') /\
    forall s' lo' hi',
      0 <= s' <= 256 ->
      enc_narrow the_CF_low the_total lo hi s' = Some (lo', hi') ->
      lo' <= w <= hi' -> s' = s.
Proof.
  intros Hn Hw.
  pose proof (normalized_ordered lo hi Hn) as Ho.
  pose proof (normalized_range lo hi Hn) as Hr.
  pose proof the_model_small as Hsmall.
  pose proof (scaled_range the_CF_low the_total the_model_length
                the_model_zero the_model_incr the_model_total
                lo hi w Ho Hw) as Hsc.
  destruct (cf_locate the_CF_low the_total the_model_length the_model_zero
              the_model_total _ Hsc) as (s & Hs & Hcf).
  exists s. split; [exact Hs|]. split.
  - exists (narrow_lo the_CF_low the_total lo hi s),
           (narrow_hi the_CF_low the_total lo hi s).
    split.
    + apply (enc_narrow_spec the_CF_low the_total the_model_length
               the_model_zero the_model_incr the_model_total
               the_model_small); [exact Ho | lia | exact Hs].
    + apply (symbol_in_scaled the_CF_low the_total the_model_length
               the_model_zero the_model_incr the_model_total);
        assumption.
  - intros s' lo' hi' Hs' Hnar Hin.
    rewrite (enc_narrow_spec the_CF_low the_total the_model_length
               the_model_zero the_model_incr the_model_total
               the_model_small) in Hnar; [| exact Ho | lia | exact Hs'].
    injection Hnar as <- <-.
    apply (cf_unique the_CF_low the_model_length the_model_incr s' s
             (scaled_of the_total lo hi w)); try assumption.
    apply (scaled_in_symbol the_CF_low the_total the_model_length
             the_model_zero the_model_incr the_model_total); assumption.
Qed.

Lemma subintervals_partition_witness :
  exists s,
    0 <= s <= 256 /\
    (exists lo' hi',
       enc_narrow the_CF_low the_total 0 (2 ^ 32 - 1) s = Some (lo', hi') /\
       lo' <= 12345 <= hi') /\
    forall s' lo' hi',
      0 <= s' <= 256 ->
      enc_narrow the_CF_low the_total 0 (2 ^ 32 - 1) s' = Some (lo', hi') ->
      lo' <= 12345 <= hi' -> s' = s.
Proof.
  apply (subintervals_partition 0 (2 ^ 32 - 1) 12345).
  - unfold normalized. lia.
  - lia.
Defined.

(** ** What a pass of the inner loops does to the numbers *)


(** X14.  A pass of the inner loop that does not break doubles the interval:
    both bounds are doubled and moved down by the same amount (0, [2^31] or
    [2^32]), the upper one taking a 1 in its low bit.  The decompressor's
    pass moves its bounds to the same place and its window along with
    them: the distance of the window from the lower bound doubles and
    takes in the bit just read, so the window stays between the bounds. *)
Theorem pass_doubles_interval (lo hi k : Z) (st : OutputBitStream.t)
    (lo' hi' k' : Z) (st' : OutputBitStream.t) :
  ordered lo hi ->
  enc_renorm_step lo hi k st = Some (lo', hi', k', st') ->
  hi' - lo' + 1 = 2 * (hi - lo + 1) /\
  ordered lo' hi' /\
  forall w ist,
    lo <= w <= hi -> bit_ok ist ->
    exists w',
      dec_renorm_step lo hi w ist
        = Some (lo', hi', w', snd (InputBitStream.read_bit ist)) /\
      w' - lo' = 2 * (w - lo) + fst (InputBitStream.read_bit ist) /\
      lo' <= w' <= hi'.
Proof.
  intros Ho Henc. unfold enc_renorm_step in Henc.
  destruct (renorm_cases lo hi Ho)
    as [(H1 & Hm & Hb & Hl & Hu)
       | [(H1 & Hm & Hb & Hl & Hu)
         | [(H1 & H2 & Hm & Hun & Hl & Hu)
           | (Hn & Hm & Hun)]]];
    rewrite Hm, ?Hun in Henc; [| | |discriminate];
    injection Henc as <- <- _ _; rewrite Hl, Hu;
    unfold ordered in *; (split; [lia|]); (split; [lia|]);
    intros w ist Hw Hs;
    pose proof (read_bit_ok ist Hs) as [Hbit _];
    unfold dec_renorm_step; rewrite Hm, ?Hun;
    destruct (InputBitStream.read_bit ist) as [b ist'];
    cbn [fst snd] in *; rewrite Hl, Hu;
    eexists; (split; [reflexivity|]);
    rewrite ?shift_window_spec, ?splice_window_spec by lia; zlia.
Qed.

Lemma pass_doubles_interval_witness :
  2 ^ 31 + 201 - (2 ^ 31) + 1 = 2 * (2 ^ 30 + 100 - (2 ^ 30) + 1) /\
  ordered (2 ^ 31) (2 ^ 31 + 201) /\
  forall w ist,
    2 ^ 30 <= w <= 2 ^ 30 + 100 -> bit_ok ist ->
    exists w',
      dec_renorm_step (2 ^ 30) (2 ^ 30 + 100) w ist
        = Some (2 ^ 31, 2 ^ 31 + 201, w',
                snd (InputBitStream.read_bit ist)) /\
      w' - 2 ^ 31 = 2 * (w - 2 ^ 30) + fst (InputBitStream.read_bit ist) /\
      2 ^ 31 <= w' <= 2 ^ 31 + 201.
Proof.
  apply (pass_doubles_interval (2 ^ 30) (2 ^ 30 + 100) 0
           OutputBitStream.new (2 ^ 31) (2 ^ 31 + 201) 0
           (OutputBitStream.push_bit 0 OutputBitStream.new)).
  - unfold ordered. lia.
  - reflexivity.
Defined.

(** ** Counting the passes *)

(** X15.  Coding one symbol from the head of the outer loop, with a
    counter that cannot overflow on the way, never fails: after the
    interval update the inner loop makes [p] passes in a row and the next
    one stops, with [128 <= f * 2^p <= 1024] for a symbol of weight [f]: 7
    to 10 passes at weight 1, 6 to 9 at weight 2, 5 to 8 at weight 4.  The
    bits pushed plus the bits left pending are the bits that were pending
    plus [p]. *)
Theorem bits_per_symbol (s lo hi k : Z) :
  normalized lo hi -> 0 <= k < 2 ^ 31 - 33 -> 0 <= s <= 256 ->
  exists E nlo nhi lo' hi' k' p,
    enc_narrow the_CF_low the_total lo hi s = Some (nlo, nhi) /\
    (forall st, enc_passes p nlo nhi k st
                = Some (lo', hi', k', push_bits E st)) /\
    (forall st, enc_renorm_step lo' hi' k' (push_bits E st) = None) /\
    (forall st, enc_symbol the_CF_low the_total s lo hi k st
                = Some (lo', hi', k', push_bits E st)) /\
    normalized lo' hi' /\ 0 <= k' /\
    Z.of_nat (length E) + k' = k + Z.of_nat p /\
    128 <= (cf the_CF_low (s + 1) - cf the_CF_low s) * 2 ^ Z.of_nat p
        <= 1024 /\
    (5 <= p <= 10)%nat.
Proof.
  intros Hn Hk Hs.
  destruct (enc_symbol_count s lo hi k Hn ltac:(unfold is_int; lia) Hs)
    as (E & lo' & hi' & k' & p & Hn' & Hk' & Hpass & Henc & _ & Heq & Hp
        & Hp').
  destruct Heq as [Hk0 Heq]; [lia | lia |].
  pose proof (normalized_ordered _ _ Hn) as Ho.
  pose proof (normalized_range _ _ Hn) as HR.
  pose proof the_model_small as Hsmall.
  exists E, (narrow_lo the_CF_low the_total lo hi s),
         (narrow_hi the_CF_low the_total lo hi s), lo', hi', k', p.
  split.
  { apply (enc_narrow_spec the_CF_low the_total the_model_length
             the_model_zero the_model_incr the_model_total
             the_model_small); [exact Ho | lia | exact Hs]. }
  split; [exact Hpass|]. split.
  { intros st. unfold enc_symbol in Henc. specialize (Henc st).
    rewrite (enc_narrow_spec the_CF_low the_total the_model_length
               the_model_zero the_model_incr the_model_total
               the_model_small) in Henc by (try assumption; lia).
    cbn [bind] in Henc.
    exact (enc_renorm_stops _ _ _ _ _ _ _ _ _ Henc). }
  repeat (split; [assumption|]). exact Hp'.
Qed.

Lemma bits_per_symbol_witness :
  exists E nlo nhi lo' hi' k' p,
    enc_narrow the_CF_low the_total 0 (2 ^ 32 - 1) 108 = Some (nlo, nhi) /\
    (forall st, enc_passes p nlo nhi 5 st
                = Some (lo', hi', k', push_bits E st)) /\
    (forall st, enc_renorm_step lo' hi' k' (push_bits E st) = None) /\
    (forall st, enc_symbol the_CF_low the_total 108 0 (2 ^ 32 - 1) 5 st
                = Some (lo', hi', k', push_bits E st)) /\
    normalized lo' hi' /\ 0 <= k' /\
    Z.of_nat (length E) + k' = 5 + Z.of_nat p /\
    128 <= (cf the_CF_low (108 + 1) - cf the_CF_low 108) * 2 ^ Z.of_nat p
        <= 1024 /\
    (5 <= p <= 10)%nat.
Proof.
  apply (bits_per_symbol 108 0 (2 ^ 32 - 1) 5).
  - unfold normalized. lia.
  - lia.
  - lia.
Defined.

(** X16.  The compressor never fails, and its output is never empty and
    never longer than ten bits for each input byte and for the
    end-of-stream symbol, two bits of flush and the padding of the last
    byte: [8 * length c <= 10 * (length S + 1) + 9].  (The sink is
    [OutputBitStream] as the specification describes it.) *)
Theorem compressed_size_bound (S : list byte) :
  exists c, arith_compress S = Some c /\
            c <> [] /\
            8 * Z.of_nat (length c) <= 10 * (Z.of_nat (length S) + 1) + 9.
Proof.
  destruct (compress_any S)
    as (E & lo' & hi' & k' & p & _ & Hcomp & Hp & Hbits & HE).
  eexists. split; [exact Hcomp|].
  apply (f_equal (@length bool)) in Hbits.
  rewrite length_bytes_bits, !length_app, repeat_length in Hbits.
  cbn [length] in Hbits.
  split.
  - intros Hnil. rewrite Hnil in Hbits. cbn [length] in Hbits. lia.
  - lia.
Qed.

(** X17.  The counter of pending bits, an [int] in the source, is never
    negative and cannot overflow on inputs of fewer than [2^25] bytes: at
    every head of a loop it is at most 33 per symbol taken so far. *)
Theorem underflow_counter_fits_int (n : nat) (p : pc) (lo hi k : Z)
    (st : OutputBitStream.t) :
  enc_reach the_CF_low the_total n p lo hi k st ->
  Z.of_nat n <= 2 ^ 25 ->
  0 <= k <= 33 * Z.of_nat n /\ k <= 2 ^ 31 - 1.
Proof.
  intros Hr Hn.
  destruct (enc_reach_inv the_CF_low the_total the_model_length
              the_model_zero the_model_incr the_model_total
              the_model_small n p lo hi k st Hr) as (_ & _ & Hk).
  destruct (Hk ltac:(lia)) as [Hk' _].
  split; [exact Hk' | lia].
Qed.

Lemma underflow_counter_fits_int_witness :
  0 <= 1 <= 33 * Z.of_nat 1 /\ 1 <= 2 ^ 31 - 1.
Proof.
  apply (underflow_counter_fits_int 1 AtRenorm 2134662850 2185946039 1
           OutputBitStream.new).
  - apply (enc_pass _ _ 1 2141073249 2166714843 0 OutputBitStream.new).
    + apply (enc_take _ _ 0 0 (wrap32 (-1)) 0 OutputBitStream.new 108).
      * apply enc_start.
      * unfold EOF_SYMBOL. lia.
      * vm_compute. reflexivity.
    + vm_compute. reflexivity.
  - simpl. lia.
Defined.

(** ** The decompressor on any file *)

(** [decode_loop] is [decode_pass] repeated, and [decode_run] tells apart
    what [decode_loop] returns as [None]. *)
Lemma decode_loop_pass (CF_low : list Z) (T : Z) (n : nat) (lo hi w : Z)
    (st : InputBitStream.t) (out : list byte) :
  decode_loop CF_low T (S n) lo hi w st out
  = match decode_pass CF_low T lo hi w st with
    | Fault => None
    | Stop => Some out
    | Emit s lo' hi' w' st' =>
        decode_loop CF_low T n lo' hi' w' st' (out ++ [Z_to_byte s])
    end.
Proof.
  cbn [decode_loop]. unfold decode_pass.
  destruct (dec_range lo hi =? 0); [reflexivity|].
  destruct (find_symbol CF_low (length CF_low) 0
              (scaled_symbol T lo hi w)) as [s|]; [|reflexivity].
  cbn [bind]. destruct (s =? EOF_SYMBOL); [reflexivity|].
  destruct (dec_narrow CF_low T lo hi s) as [[l u]|]; [|reflexivity].
  cbn [bind].
  destruct (dec_renorm renorm_fuel l u w st) as [[[[a b] c] d]|];
    reflexivity.
Qed.

Lemma decode_loop_run (CF_low : list Z) (T : Z) (n : nat) :
  forall (lo hi w : Z) (st : InputBitStream.t) (out : list byte),
    decode_loop CF_low T n lo hi w st out
    = match decode_run CF_low T n lo hi w st out with
      | Stopped o => Some o
      | _ => None
      end.
Proof.
  induction n as [|n IH]; intros lo hi w st out; [reflexivity|].
  rewrite decode_loop_pass. cbn [decode_run].
  destruct (decode_pass CF_low T lo hi w st); try reflexivity.
  apply IH.
Qed.

Lemma decode_pass_reach (lo hi w : Z) (st : InputBitStream.t) :
  dec_reach the_CF_low the_total AtSymbol lo hi w st ->
  decode_pass the_CF_low the_total lo hi w st = Stop \/
  exists s lo' hi' w' st',
    0 <= s < 256 /\
    decode_pass the_CF_low the_total lo hi w st = Emit s lo' hi' w' st' /\
    dec_reach the_CF_low the_total AtSymbol lo' hi' w' st'.
Proof.
  intros Hr.
  destruct (dec_reach_inv the_CF_low the_total the_model_length
              the_model_zero the_model_incr the_model_total
              the_model_small _ _ _ _ _ Hr) as ([Ho Hn] & Hw & Hst).
  specialize (Hn eq_refl).
  pose proof (normalized_range _ _ Hn) as HR.
  pose proof the_model_small as Hsmall.
  assert (HT : the_total <= hi - lo + 1) by lia.
  pose proof (scaled_range the_CF_low the_total the_model_length
                the_model_zero the_model_incr the_model_total
                lo hi w Ho Hw) as Hsc.
  destruct (cf_locate the_CF_low the_total the_model_length the_model_zero
              the_model_total _ Hsc) as (s & Hs & Hcf).
  assert (Hfind : find_symbol the_CF_low (length the_CF_low) 0
                    (scaled_symbol the_total lo hi w) = Some s).
  { rewrite (scaled_symbol_spec the_CF_low the_total the_model_length
               the_model_zero the_model_incr the_model_total
               the_model_small) by assumption.
    apply (find_symbol_spec the_CF_low the_model_length
             the_model_incr); assumption. }
  assert (Hnar : dec_narrow the_CF_low the_total lo hi s
                 = Some (narrow_lo the_CF_low the_total lo hi s,
                         narrow_hi the_CF_low the_total lo hi s)).
  { apply (dec_narrow_spec the_CF_low the_total the_model_length
             the_model_zero the_model_incr the_model_total
             the_model_small); assumption. }
  assert (Hrange : dec_range lo hi <> 0)
    by (rewrite dec_range_spec by exact Ho; lia).
  unfold decode_pass.
  destruct (Z.eqb_spec (dec_range lo hi) 0) as [|_]; [contradiction|].
  rewrite Hfind.
  destruct (Z.eqb_spec s EOF_SYMBOL) as [Heof|Hne]; [left; reflexivity|].
  right. rewrite Hnar.
  pose proof (symbol_in_scaled the_CF_low the_total the_model_length
                the_model_zero the_model_incr the_model_total
                lo hi w s Ho Hw Hs Hcf) as Hin.
  destruct (bounds_inv_narrow the_CF_low the_total the_model_length
              the_model_zero the_model_incr the_model_total
              the_model_small lo hi s Hn Hs) as [Ho' _].
  destruct (dec_renorm_total (narrow_lo the_CF_low the_total lo hi s)
              (narrow_hi the_CF_low the_total lo hi s) w st Ho')
    as (lo' & hi' & w' & st' & Hd & Hn');
    [unfold ordered in *; lia | exact Hst |].
  rewrite Hd. exists s, lo', hi', w', st'.
  split; [unfold EOF_SYMBOL in Hne; lia|]. split; [reflexivity|].
  apply (dec_renorm_reach the_CF_low the_total renorm_fuel
           (narrow_lo the_CF_low the_total lo hi s)
           (narrow_hi the_CF_low the_total lo hi s) w st);
    [|exact Hd].
  apply (dec_take the_CF_low the_total lo hi w st s); assumption.
Qed.

Lemma decode_run_reach (n : nat) :
  forall (lo hi w : Z) (st : InputBitStream.t) (out : list byte),
    dec_reach the_CF_low the_total AtSymbol lo hi w st ->
    match decode_run the_CF_low the_total n lo hi w st out with
    | Faulted => False
    | Stopped o => (length o < length out + n)%nat
    | Running lo' hi' w' st' o =>
        length o = (length out + n)%nat /\
        dec_reach the_CF_low the_total AtSymbol lo' hi' w' st'
    end.
Proof.
  induction n as [|n IH]; intros lo hi w st out Hr.
  - cbn [decode_run]. split; [lia | exact Hr].
  - cbn [decode_run].
    destruct (decode_pass_reach lo hi w st Hr)
      as [-> | (s & lo1 & hi1 & w1 & st1 & Hs & -> & Hr1)].
    + lia.
    + specialize (IH lo1 hi1 w1 st1 (out ++ [Z_to_byte s]) Hr1).
      rewrite length_app in IH. cbn [length] in IH.
      destruct (decode_run the_CF_low the_total n lo1 hi1 w1 st1
                  (out ++ [Z_to_byte s])); [exact IH | lia|].
      destruct IH as [Hl Hr']. split; [lia | exact Hr'].
Qed.

(** X18.  The decompressor never faults, whatever file it is given: no
    [at] throws, nothing divides by zero, no inner loop runs on for more
    than 32 passes.  After at most [n] passes of its outer loop from the
    window it reads at the start, it has either stopped at the
    end-of-stream symbol, having written fewer than [n] bytes, which are
    its output; or it has written exactly [n] bytes and stands at the head
    of the loop again, bounds normalized and the window between them. *)
Theorem decompressor_never_faults (c : list byte) (n : nat) :
  match decode_run the_CF_low the_total n 0 (wrap32 (-1))
          (fst (read_window 32 0 (InputBitStream.new c)))
          (snd (read_window 32 0 (InputBitStream.new c))) [] with
  | Faulted => False
  | Stopped out =>
      (length out < n)%nat /\ arith_decompress n c = Some out
  | Running lo hi w st out =>
      length out = n /\ normalized lo hi /\ lo <= w <= hi /\
      arith_decompress n c = None
  end.
Proof.
  assert (Hr : dec_reach the_CF_low the_total AtSymbol 0 (wrap32 (-1))
                 (fst (read_window 32 0 (InputBitStream.new c)))
                 (snd (read_window 32 0 (InputBitStream.new c)))).
  { apply (dec_start the_CF_low the_total c). apply surjective_pairing. }
  assert (Hd : arith_decompress n c
               = match decode_run the_CF_low the_total n 0 (wrap32 (-1))
                         (fst (read_window 32 0 (InputBitStream.new c)))
                         (snd (read_window 32 0 (InputBitStream.new c)))
                         [] with
                 | Stopped o => Some o
                 | _ => None
                 end).
  { unfold arith_decompress. rewrite build_model_eq. cbn [bind].
    unfold decode.
    destruct (read_window 32 0 (InputBitStream.new c)) as [w st].
    cbn [fst snd]. apply decode_loop_run. }
  pose proof (decode_run_reach n _ _ _ _ [] Hr) as Hsafe.
  destruct (decode_run the_CF_low the_total n 0 (wrap32 (-1))
              (fst (read_window 32 0 (InputBitStream.new c)))
              (snd (read_window 32 0 (InputBitStream.new c))) [])
    as [|out|lo hi w st out].
  - exact Hsafe.
  - cbn [length] in Hsafe. split; [lia | exact Hd].
  - destruct Hsafe as [Hl Hr'].
    destruct (dec_reach_inv the_CF_low the_total the_model_length
                the_model_zero the_model_incr the_model_total
                the_model_small _ _ _ _ _ Hr') as ([_ Hn] & Hw & _).
    split; [exact Hl|]. split; [apply Hn; reflexivity|].
    split; [exact Hw | exact Hd].
Qed.

(** ** Files of one repeated bit *)

Lemma constant_file (c : byte) (b : bool) (m i : nat) :
  (forall r, (r < 8)%nat -> Z.testbit (byte_to_Z c) (Z.of_nat r) = b) ->
  (0 < m)%nat \/ b = false ->
  InputBitStream.bit_at (InputBitStream.new (repeat c m)) i = Z.b2z b.
Proof.
  intros Hc Hm.
  destruct (Nat.lt_ge_cases i (8 * m)) as [Hlt|Hge].
  - replace i with (8 * (i / 8) + i mod 8)%nat
      by (symmetry; apply Nat.div_mod_eq).
    assert (Hq : (i / 8 < m)%nat)
      by (apply Nat.Div0.div_lt_upper_bound; lia).
    assert (Hr : (i mod 8 < 8)%nat) by (apply Nat.mod_upper_bound; lia).
    rewrite bit_at_file by (rewrite ?repeat_length; assumption).
    rewrite nth_repeat_lt by exact Hq. rewrite Hc by exact Hr. reflexivity.
  - rewrite bit_at_past by (rewrite repeat_length; exact Hge).
    destruct m as [|m].
    + destruct Hm as [Hm| ->]; [lia|]. reflexivity.
    + replace (last (repeat c (S m)) "000"%byte) with c.
      * change 7 with (Z.of_nat 7). rewrite (Hc 7%nat) by lia.
        reflexivity.
      * clear. induction m as [|m IH]; [reflexivity|]. exact IH.
Qed.

Lemma constant_source_reads (b : Z) (n : nat) (st : InputBitStream.t) :
  constant_source b st -> constant_source b (InputBitStream.reads n st).
Proof. intros H i. rewrite bit_at_reads. apply H. Qed.

Lemma constant_source_ok (b : Z) (st : InputBitStream.t) :
  0 <= b <= 1 -> constant_source b st -> bit_ok st ->
  InputBitStream.read_bit st = (b, snd (InputBitStream.read_bit st)) /\
  constant_source b (snd (InputBitStream.read_bit st)) /\
  bit_ok (snd (InputBitStream.read_bit st)).
Proof.
  intros Hb Hc Hs. split; [|split].
  - rewrite (read_bit_at st) at 1. rewrite (Hc 0%nat). reflexivity.
  - intros i. rewrite <- bit_at_succ. apply Hc.
  - apply read_bit_ok. exact Hs.
Qed.

Lemma constant_window (b : bool) (st : InputBitStream.t) :
  bit_ok st -> constant_source (Z.b2z b) st ->
  read_window 32 0 st
    = ((if b then 2 ^ 32 - 1 else 0), InputBitStream.reads 32 st).
Proof.
  intros Hs Hc.
  destruct (read_window_bits 32 0 st Hs) as (w & Hw & Hr & _ & Hb);
    [lia | simpl; lia |].
  rewrite Hw. f_equal.
  apply (eq_of_low_bits 32); [lia | exact Hr | destruct b; lia |].
  intros j Hj.
  replace j with (Z.of_nat 32 - 1 - Z.of_nat (Z.to_nat (31 - j))) by lia.
  rewrite Hb by lia. rewrite Hc.
  replace (Z.of_nat 32 - 1 - Z.of_nat (Z.to_nat (31 - j))) with j by lia.
  destruct b; cbn [Z.b2z].
  - change (2 ^ 32 - 1) with (Z.ones 32).
    rewrite Z.ones_spec_low by lia. reflexivity.
  - rewrite Z.bits_0. reflexivity.
Qed.

Lemma dec_renorm_zero (fuel : nat) :
  forall (hi : Z) (st : InputBitStream.t),
    0 <= hi < 2 ^ 32 -> constant_source 0 st -> bit_ok st ->
    2 ^ 32 < (hi + 1) * 2 ^ Z.of_nat fuel ->
    exists hi' st',
      dec_renorm fuel 0 hi 0 st = Some (0, hi', 0, st') /\
      normalized 0 hi' /\ constant_source 0 st' /\ bit_ok st'.
Proof.
  induction fuel as [|fuel IH]; intros hi st Hhi Hc Hs Hf.
  - simpl in Hf. lia.
  - rewrite pow2_succ in Hf.
    assert (Ho : ordered 0 hi) by (unfold ordered; lia).
    destruct (constant_source_ok 0 st ltac:(lia) Hc Hs) as (Hrb & Hc' & Hs').
    destruct (renorm_cases 0 hi Ho)
      as [(H1 & Hm & Hb & Hl & Hu)
         |[(H1 & Hm & Hb & Hl & Hu)
          |[(H1 & H2 & Hm & Hun & Hl & Hu)|(Hn & Hm & Hun)]]];
      try lia.
    + destruct (IH (shift_upper hi) (snd (InputBitStream.read_bit st)))
        as (hi' & st' & Hd & Hn & Hc'' & Hs'');
        [rewrite Hu; lia | exact Hc' | exact Hs' | rewrite Hu; lia |].
      exists hi', st'. split; [|auto].
      cbn [dec_renorm]. unfold dec_renorm_step. rewrite Hm, Hrb.
      rewrite Hl, shift_window_spec by lia.
      exact Hd.
    + exists hi, st. split; [|auto].
      cbn [dec_renorm]. unfold dec_renorm_step. rewrite Hm, Hun.
      reflexivity.
Qed.

Lemma zero_pass (hi : Z) (st : InputBitStream.t) :
  normalized 0 hi -> constant_source 0 st -> bit_ok st ->
  exists hi' st',
    normalized 0 hi' /\ constant_source 0 st' /\ bit_ok st' /\
    decode_pass the_CF_low the_total 0 hi 0 st = Emit 0 0 hi' 0 st'.
Proof.
  intros Hn Hc Hs.
  pose proof (normalized_ordered _ _ Hn) as Ho.
  pose proof (normalized_range _ _ Hn) as HR.
  pose proof the_model_small as Hsmall.
  assert (Hlo : narrow_lo the_CF_low the_total 0 hi 0 = 0).
  { unfold narrow_lo. rewrite the_model_zero, Z.mul_0_r. reflexivity. }
  assert (Hhi : 0 <= narrow_hi the_CF_low the_total 0 hi 0 <= hi).
  { destruct (narrow_bounds the_CF_low the_total the_model_length
                the_model_zero the_model_incr the_model_total
                0 hi 0 Ho) as (B1 & B2 & B3); [lia | lia |].
    rewrite Hlo in B2. lia. }
  unfold ordered in Ho.
  destruct (dec_renorm_zero renorm_fuel
              (narrow_hi the_CF_low the_total 0 hi 0) st)
    as (hi' & st' & Hd & Hn' & Hc' & Hs'); [lia | exact Hc | exact Hs | |].
  { pose proof (renorm_fuel_enough 0
                  (narrow_hi the_CF_low the_total 0 hi 0)
                  ltac:(unfold ordered; lia)).
    lia. }
  exists hi', st'. repeat (split; [assumption|]).
  assert (Hfind : find_symbol the_CF_low (length the_CF_low) 0
                    (scaled_symbol the_total 0 hi 0) = Some 0).
  { rewrite (scaled_symbol_spec the_CF_low the_total the_model_length
               the_model_zero the_model_incr the_model_total
               the_model_small) by (unfold ordered; lia).
    apply (find_symbol_spec the_CF_low the_model_length
             the_model_incr); [lia|].
    apply (scaled_in_symbol the_CF_low the_total the_model_length
             the_model_zero the_model_incr the_model_total);
      [unfold ordered; lia | lia | rewrite Hlo; lia]. }
  unfold decode_pass.
  rewrite dec_range_spec by (unfold ordered; lia).
  destruct (Z.eqb_spec (hi - 0 + 1) 0) as [|_]; [lia|].
  rewrite Hfind. change (0 =? EOF_SYMBOL) with false. cbv iota.
  rewrite (dec_narrow_spec the_CF_low the_total the_model_length
             the_model_zero the_model_incr the_model_total
             the_model_small) by (unfold ordered; lia).
  rewrite Hlo, Hd. reflexivity.
Qed.

Lemma zero_run (n : nat) :
  forall (hi : Z) (st : InputBitStream.t) (out : list byte),
    normalized 0 hi -> constant_source 0 st -> bit_ok st ->
    exists hi' st',
      normalized 0 hi' /\ constant_source 0 st' /\
      decode_run the_CF_low the_total n 0 hi 0 st out
      = Running 0 hi' 0 st' (out ++ repeat "000"%byte n).
Proof.
  induction n as [|n IH]; intros hi st out Hn Hc Hs.
  - exists hi, st. split; [exact Hn|]. split; [exact Hc|].
    cbn [repeat decode_run]. rewrite app_nil_r. reflexivity.
  - destruct (zero_pass hi st Hn Hc Hs)
      as (hi1 & st1 & Hn1 & Hc1 & Hs1 & Hgo).
    destruct (IH hi1 st1 (out ++ ["000"%byte]) Hn1 Hc1 Hs1)
      as (hi' & st' & Hn' & Hc' & Hrun).
    exists hi', st'. split; [exact Hn'|]. split; [exact Hc'|].
    cbn [decode_run]. rewrite Hgo.
    change (Z_to_byte 0) with "000"%byte.
    rewrite Hrun, <- app_assoc. reflexivity.
Qed.

(** X19.  On an empty file, and on a file of zero bytes of any length, the
    decompressor never reaches the end-of-stream symbol and never faults:
    the window it reads at the start is 0, and after [n] passes of its outer
    loop, for every [n], it stands at the head of the loop with [n] zero
    bytes written, lower bound and window still 0, and a source that
    returns 0 from then on. *)
Theorem zero_input_never_ends (m n : nat) :
  exists hi st,
    decode_run the_CF_low the_total n 0 (wrap32 (-1))
      (fst (read_window 32 0 (InputBitStream.new (repeat "000"%byte m))))
      (snd (read_window 32 0 (InputBitStream.new (repeat "000"%byte m))))
      []
    = Running 0 hi 0 st (repeat "000"%byte n) /\
    normalized 0 hi /\ constant_source 0 st.
Proof.
  assert (Hsrc : constant_source (Z.b2z false)
                   (InputBitStream.new (repeat "000"%byte m))).
  { intros i. apply constant_file; [|auto].
    intros r Hr. apply Z.bits_0. }
  rewrite (constant_window false) by (try apply new_bit_ok; exact Hsrc).
  cbn [fst snd].
  destruct (zero_run n (wrap32 (-1))
              (InputBitStream.reads 32
                 (InputBitStream.new (repeat "000"%byte m))) []
              initial_normalized)
    as (hi' & st' & Hn' & Hc' & Hrun).
  - apply constant_source_reads. exact Hsrc.
  - apply reads_bit_ok, new_bit_ok.
  - exists hi', st'. split; [exact Hrun|]. split; assumption.
Qed.

(** X20.  A file whose first 32 bits read as 1 (four bytes 255, or fewer
    when the file holds nothing else) decodes to the empty output: the
    first symbol found is the end-of-stream symbol. *)
Theorem ones_input_decodes_empty (c : list byte) (n : nat) :
  (forall i, (i < 32)%nat ->
     InputBitStream.bit_at (InputBitStream.new c) i = 1) ->
  arith_decompress (S n) c = Some [].
Proof.
  intros Hones.
  destruct (read_window_bits 32 0 (InputBitStream.new c) (new_bit_ok c))
    as (w & Hw & Hr & _ & Hb); [lia | simpl; lia |].
  assert (Hwv : w = 2 ^ 32 - 1).
  { apply (eq_of_low_bits 32); [lia | exact Hr | lia |].
    intros j Hj.
    replace j with (Z.of_nat 32 - 1 - Z.of_nat (Z.to_nat (31 - j))) by lia.
    rewrite Hb, Hones by lia.
    replace (Z.of_nat 32 - 1 - Z.of_nat (Z.to_nat (31 - j))) with j by lia.
    change (2 ^ 32 - 1) with (Z.ones 32).
    rewrite Z.ones_spec_low by lia. reflexivity. }
  unfold arith_decompress. rewrite build_model_eq. cbn [bind].
  unfold decode. rewrite Hw, Hwv.
  rewrite (decode_loop_step the_CF_low the_total the_model_length
             the_model_zero the_model_incr the_model_total
             the_model_small n 0 (wrap32 (-1)) (2 ^ 32 - 1) EOF_SYMBOL).
  - reflexivity.
  - apply normalized_ordered, initial_normalized.
  - vm_compute. split; discriminate.
  - vm_compute. discriminate.
  - unfold EOF_SYMBOL. lia.
Qed.

Lemma ones_input_decodes_empty_witness :
  arith_decompress (S 0) ["255"%byte] = Some [].
Proof.
  apply (ones_input_decodes_empty ["255"%byte] 0).
  intros i Hi.
  do 32 (destruct i as [|i]; [reflexivity|]). lia.
Defined.

(** ** What follows the compressed stream *)

Lemma bytes_bits_ones (m : nat) :
  bytes_bits (repeat "255"%byte m) = repeat true (8 * m).
Proof.
  induction m as [|m IH]; [reflexivity|].
  cbn [repeat]. rewrite bytes_bits_cons, IH.
  replace (8 * S m)%nat with (8 + 8 * m)%nat by lia.
  rewrite repeat_app. reflexivity.
Qed.

Lemma decompress_padded (S c : list byte) (m n : nat) :
  33 * (Z.of_nat (length S) + 1) < 2 ^ 31 ->
  arith_compress S = Some c -> (length S < n)%nat ->
  arith_decompress n (c ++ repeat "255"%byte m) = Some S.
Proof.
  intros Hlen Hc Hn.
  destruct (compress_bits S Hlen)
    as (E & lo & hi & k & p & _ & _ & Hcomp & _ & Hbits & Hdec).
  rewrite Hcomp in Hc. injection Hc as <-.
  apply (decompress_compressed S E (p + 8 * m)); [|exact Hdec|exact Hn].
  rewrite bytes_bits_app, Hbits, bytes_bits_ones.
  rewrite <- !app_assoc. cbn [app]. rewrite repeat_app. reflexivity.
Qed.

(** X21.  Bytes 255 appended to the compressor's output change nothing: the
    decompressor returns the same input, as the comment at lines 146-151 of
    the compressor has it.  (For inputs short enough for the [int] counter
    of pending bits not to overflow: [33 * (length S + 1) < 2^31].) *)
Theorem trailing_ones_ignored (S c : list byte) (m n : nat) :
  33 * (Z.of_nat (length S) + 1) < 2 ^ 31 ->
  arith_compress S = Some c -> (length S < n)%nat ->
  arith_decompress n (c ++ repeat "255"%byte m) = Some S.
Proof. exact (decompress_padded S c m n). Qed.

Lemma trailing_ones_ignored_witness :
  arith_decompress 3 (["030"%byte; "029"%byte; "252"%byte]
                        ++ repeat "255"%byte 2)
    = Some ["h"%byte; "i"%byte].
Proof.
  apply (trailing_ones_ignored ["h"%byte; "i"%byte]).
  - simpl. lia.
  - vm_compute. reflexivity.
  - simpl. lia.
Defined.

(** X22.  The compressor is injective on the inputs short enough for the
    [int] counter of pending bits not to overflow ([33 * (length S + 1) <
    2^31]): two of them with the same output are the same input. *)
Theorem compress_injective (S1 S2 c : list byte) :
  33 * (Z.of_nat (length S1) + 1) < 2 ^ 31 ->
  33 * (Z.of_nat (length S2) + 1) < 2 ^ 31 ->
  arith_compress S1 = Some c -> arith_compress S2 = Some c -> S1 = S2.
Proof.
  intros L1 L2 H1 H2.
  pose proof (decompress_padded S1 c 0 (S (length S1 + length S2)) L1 H1
                ltac:(lia)) as D1.
  pose proof (decompress_padded S2 c 0 (S (length S1 + length S2)) L2 H2
                ltac:(lia)) as D2.
  rewrite D1 in D2. injection D2 as D2. exact D2.
Qed.

Lemma compress_injective_witness :
  ["h"%byte; "i"%byte] = ["h"%byte; "i"%byte].
Proof.
  apply (compress_injective ["h"%byte; "i"%byte] ["h"%byte; "i"%byte]
           ["030"%byte; "029"%byte; "252"%byte]);
    try (simpl; lia); vm_compute; reflexivity.
Defined.

(** ** The search past the table *)

Lemma find_symbol_past (fuel : nat) :
  forall j x,
    0 <= j <= 257 ->
    (forall i, 0 <= i <= 257 -> cf the_CF_low i <= x) ->
    find_symbol the_CF_low fuel j x = None.
Proof.
  induction fuel as [|fuel IH]; intros j x Hj Hx; [reflexivity|].
  cbn [find_symbol]. rewrite wrap32_small by lia.
  destruct (Z.eq_dec j 257) as [->|Hne].
  - reflexivity.
  - rewrite (at_cf the_CF_low the_model_length) by lia. cbn [bind].
    destruct (Z.leb_spec (cf the_CF_low (j + 1)) x) as [_|Hlt].
    + apply IH; [lia | exact Hx].
    + specialize (Hx (j + 1)). lia.
Qed.

(** X23.  The linear search of lines 82-84 has no bound of its own: given a
    scaled value that is not below the total, it walks off the end of
    [CF_low] and [at] throws.  (Inside the decompressor the scaled value is
    always below the total.) *)
Theorem find_symbol_out_of_range (x : Z) :
  the_total <= x ->
  find_symbol the_CF_low (length the_CF_low) 0 x = None.
Proof.
  intros Hx. apply find_symbol_past; [lia|].
  intros i Hi.
  pose proof (cf_range the_CF_low the_total the_model_length
                the_model_zero the_model_incr the_model_total i Hi).
  lia.
Qed.

Lemma find_symbol_out_of_range_witness :
  find_symbol the_CF_low (length the_CF_low) 0 335 = None.
Proof.
  apply (find_symbol_out_of_range 335). unfold the_total. lia.
Defined.

(** ** Reading a value in two parts *)

(** X24.  [read_bits] composes: reading [a] bits and then [b] bits returns
    the low [a] bits and the high [b] bits of what one call for [a + b] bits
    returns, and leaves the source in the same state. *)
Theorem read_bits_split (a b : Z) (s : InputBitStream.t) :
  bit_ok s -> 0 <= a -> 0 <= b -> a + b <= 32 ->
  exists va vb s1,
    InputBitStreamReads.read_bits a s = Some (va, s1) /\
    InputBitStreamReads.read_bits b s1
      = Some (vb, InputBitStream.reads (Z.to_nat (a + b)) s) /\
    InputBitStreamReads.read_bits (a + b) s
      = Some (va + vb * 2 ^ a, InputBitStream.reads (Z.to_nat (a + b)) s).
Proof.
  intros Hs Ha Hb Hab.
  destruct (read_bits_spec a s Hs) as (va & Hva & Hra & Hba); [lia|].
  destruct (read_bits_spec b (InputBitStream.reads (Z.to_nat a) s))
    as (vb & Hvb & Hrb & Hbb); [apply reads_bit_ok; exact Hs | lia |].
  destruct (read_bits_spec (a + b) s Hs) as (v & Hv & Hr & Hbv); [lia|].
  exists va, vb, (InputBitStream.reads (Z.to_nat a) s).
  split; [exact Hva|]. split.
  - rewrite Hvb, <- reads_add, <- Z2Nat.inj_add by lia. reflexivity.
  - rewrite Hv. do 2 f_equal.
    assert (Hpa : 0 < 2 ^ a) by (apply Z.pow_pos_nonneg; lia).
    apply (eq_of_low_bits (a + b)); [lia | exact Hr | |].
    + rewrite Z.pow_add_r by lia. nia.
    + intros j Hj. rewrite testbit_add_high by lia.
      rewrite <- (Z2Nat.id j) at 1 by lia. rewrite Hbv by lia.
      destruct (Z.ltb_spec j a) as [Hlt|Hge].
      * rewrite <- (Z2Nat.id j) at 2 by lia. rewrite Hba by lia.
        reflexivity.
      * rewrite <- (Z2Nat.id (j - a)) by lia. rewrite Hbb by lia.
        rewrite bit_at_reads. do 2 f_equal. lia.
Qed.

Lemma read_bits_split_witness :
  exists va vb s1,
    InputBitStreamReads.read_bits 3
        (InputBitStream.new ["a"%byte; "b"%byte]) = Some (va, s1) /\
    InputBitStreamReads.read_bits 9 s1
      = Some (vb, InputBitStream.reads (Z.to_nat (3 + 9))
                    (InputBitStream.new ["a"%byte; "b"%byte])) /\
    InputBitStreamReads.read_bits (3 + 9)
        (InputBitStream.new ["a"%byte; "b"%byte])
      = Some (va + vb * 2 ^ 3,
              InputBitStream.reads (Z.to_nat (3 + 9))
                (InputBitStream.new ["a"%byte; "b"%byte])).
Proof.
  apply (read_bits_split 3 9 (InputBitStream.new ["a"%byte; "b"%byte])).
  - unfold bit_ok. simpl. lia.
  - lia.
  - lia.
  - lia.
Defined.

(** ** The end of the compressed stream *)

Lemma last_ones (F : list bool) (p : nat) (d : bool) :
  last (F ++ true :: repeat true p) d = true.
Proof.
  revert F. induction p as [|p IH]; intros F.
  - apply last_last.
  - cbn [repeat].
    replace (F ++ true :: true :: repeat true p)
      with ((F ++ [true]) ++ true :: repeat true p)
      by (rewrite <- app_assoc; reflexivity).
    apply IH.
Qed.

(** X25.  The last byte of the compressor's output has its top bit set, so a
    source opened on that output returns 1 at every call past its end:
    the endless run of 1s the flush counts on.  (The compressor's output
    bytes are those of [OutputBitStream] as the specification describes
    it.) *)
Theorem output_ends_in_one (S : list byte) :
  exists c,
    arith_compress S = Some c /\
    Z.testbit (byte_to_Z (last c "000"%byte)) 7 = true /\
    forall i, (8 * length c <= i)%nat ->
      InputBitStream.bit_at (InputBitStream.new c) i = 1.
Proof.
  destruct (compress_any S) as (E & lo & hi & k & p & _ & Hcomp & _
                                  & Hbits & _).
  eexists. split; [exact Hcomp|].
  set (c := OutputBitStream.outfile
              (flush (push_bits E OutputBitStream.new))) in *.
  assert (Hne : c <> []).
  { intros Hnil. rewrite Hnil in Hbits. cbn [bytes_bits flat_map] in Hbits.
    destruct E; discriminate. }
  assert (Htop : Z.testbit (byte_to_Z (last c "000"%byte)) 7 = true).
  { rewrite <- (last_bytes_bits c false Hne), Hbits.
    replace (E ++ [false; true] ++ repeat true p)
      with ((E ++ [false]) ++ true :: repeat true p)
      by (rewrite <- app_assoc; reflexivity).
    apply last_ones. }
  split; [exact Htop|].
  intros i Hi. rewrite bit_at_past by exact Hi. rewrite Htop. reflexivity.
Qed.

Lemma output_ends_in_one_witness :
  exists c,
    arith_compress ["h"%byte; "i"%byte] = Some c /\
    InputBitStream.bit_at (InputBitStream.new c) (8 * length c + 5) = 1.
Proof.
  destruct (output_ends_in_one ["h"%byte; "i"%byte]) as (c & Hc & _ & Hi).
  exists c. split; [exact Hc|]. apply Hi. lia.
Defined.
